(** * Page-replacement simulator: optimal (OPT) and clock policies

    A shallow embedding of [main.go] (package [main]) and the properties
    of its two replacement policies.

    Conventions of the embedding:
    - Go's [int] is a 64-bit signed integer: it is a [Z], and the
      additions the program writes ([pageFaults++], [m[k]++], [i+1],
      [clockPointer + 1], [j++]) carry their wrap-around ([int_add]); the
      index of a [range] loop is counted by the language and cannot
      overflow.  Division and remainder are Go's truncating ones
      ([Z.quot], [Z.rem]).
    - A run-time panic (index out of range, nil dereference, a length or
      capacity that [make] refuses) is the outcome [Panic]; the only
      unbounded loop of the program (the clock scan) is given fuel and
      reports [Timeout] when the fuel runs out.
    - [make] on a slice is [runtime.makeslice]: it fails on a negative
      length or capacity and on a capacity that takes more bytes than the
      runtime gives to one slice.  That limit, [maxAlloc], is a parameter
      of the embedding (class [Runtime]): it is [runtime.maxAlloc], 2^48
      where [int] has 64 bits, on a machine that has the memory, and less
      on a machine that has not.  Both failures (the panic of
      [makeslice], the fatal error of an exhausted heap) stop the program
      and are the outcome [Panic].
    - Go maps are [gmap]s, slices are lists; the [fmt.Print*] calls of the
      didactic mode and of the loader do not influence the state and are
      left out; the lines [Run] and [main] print are kept as data.
    - Both policies carry one ghost variable, the list of the pages they
      have evicted; the clock scan also counts the frames it visits.
    - [main] takes [strconv.Atoi] and the trace loader ([LoadAccessFile],
      which reads a file) as parameters. *)

From Stdlib Require Import ZArith Lia Ascii.
From stdpp Require Import base option list sorting gmap sets strings.

#[local] Set Warnings "-clear-no-such-hyp".
Local Open Scope Z_scope.

(** ** Go integers *)

Definition wrap64 (z : Z) : Z := (z + 2 ^ 63) mod 2 ^ 64 - 2 ^ 63.
Definition int_add (a b : Z) : Z := wrap64 (a + b).
Definition MaxInt : Z := 2 ^ 63 - 1.

(** ** Outcomes of a computation that may panic *)

Inductive outcome (A : Type) : Type :=
| Done (a : A)
| Panic
| Timeout.
Arguments Done {A} a.
Arguments Panic {A}.
Arguments Timeout {A}.

#[global] Instance outcome_ret : MRet outcome := λ A a, Done a.
#[global] Instance outcome_bind : MBind outcome := λ A B f m,
  match m with
  | Done a => f a
  | Panic => Panic
  | Timeout => Timeout
  end.

(** [l[i]] with Go's bounds check. *)
Definition index {A} (l : list A) (i : Z) : outcome A :=
  if i <? 0 then Panic
  else match l !! Z.to_nat i with
       | Some x => Done x
       | None => Panic
       end.

Definition len {A} (l : list A) : Z := Z.of_nat (length l).

(** ** Allocation of slices

    The runtime the program runs on: [maxAlloc] is the largest number of
    bytes it gives to one slice, a [uintptr]. *)
Class Runtime : Type := {
  maxAlloc : Z;
  maxAlloc_uintptr : maxAlloc < 2 ^ 64
}.

(** The runtime of the platforms where [int] has 64 bits (the heap has
    48 address bits), on a machine that has the memory; the examples are
    run on it. *)
#[global] Instance go64 : Runtime := {| maxAlloc := 2 ^ 48; maxAlloc_uintptr := eq_refl |}.

(** A string is a pointer and a length, a [*PageFrame] is a pointer. *)
Definition sizeofString : Z := 16.
Definition sizeofPointer : Z := 8.

(** [runtime.makeslice]: the size in bytes is [elemSize * cap]; the call
    fails when that overflows a [uintptr] or exceeds [maxAlloc], when
    [len] is negative and when [len > cap], which covers a negative
    [cap]. *)
Definition makeslice `{Runtime} (elemSize len cap : Z) : outcome unit :=
  if (len <? 0) || (cap <? len)
     || (2 ^ 64 <=? elemSize * cap) || (maxAlloc <? elemSize * cap)
  then Panic
  else Done tt.

(** ** Data model *)

Definition PAGE_SIZE : Z := 4096.

Module PageAccess.
Record t : Type := mk { PageID : string; Type_ : string }.
End PageAccess.

Module PageFrame.
Record t : Type := mk { PageID : string; Referenced : bool; LoadCount : Z }.
End PageFrame.

Record Simulator : Type := mkSimulator {
  memorySize : Z;
  totalFrames : Z;
  accesses : list PageAccess.t;
  distinctPages : gmap string bool;
  pageLoadCount : gmap string Z;
  didacticMode : bool;
  showLoadCount : bool;
  showPageTable : bool;
  skipOptimal : bool
}.

Definition set_pageLoadCount (m : gmap string Z) (s : Simulator) : Simulator :=
  {| memorySize := memorySize s; totalFrames := totalFrames s;
     accesses := accesses s; distinctPages := distinctPages s;
     pageLoadCount := m;
     didacticMode := didacticMode s; showLoadCount := showLoadCount s;
     showPageTable := showPageTable s; skipOptimal := skipOptimal s |}.

Definition NewSimulator (memorySize : Z) : Simulator :=
  {| memorySize := memorySize;
     totalFrames := Z.quot memorySize PAGE_SIZE;
     accesses := [];
     distinctPages := ∅;
     pageLoadCount := ∅;
     didacticMode := false; showLoadCount := false;
     showPageTable := false; skipOptimal := false |}.

(** [m[k]++] on a [map[string]int]: a missing key reads as 0. *)
Definition map_incr (k : string) (m : gmap string Z) : gmap string Z :=
  <[k := int_add (default 0 (m !! k)) 1]> m.

(** ** [sort.SearchInts]

    The binary search of Go's [sort.Search], instantiated with the
    predicate [a[h] >= x]; [h] is [int(uint(i+j) >> 1)], the floor of the
    half sum, and always lies in [[i, j)], so [a[h]] is in range.  Each
    iteration shrinks [j - i], so [length a] iterations are always enough
    (lemma [Search_fuel]). *)

Fixpoint Search (fuel : nat) (a : list Z) (x : Z) (i j : Z) : Z :=
  match fuel with
  | O => i
  | S fuel' =>
      if i <? j then
        let h := Z.shiftr (i + j) 1 in
        if default 0 (a !! Z.to_nat h) >=? x
        then Search fuel' a x i h
        else Search fuel' a x (h + 1) j
      else i
  end.

Definition SearchInts (a : list Z) (x : Z) : Z :=
  Search (length a) a x 0 (len a).

(** ** The optimal policy *)

(** The first loop of [OptimalAlgorithm]: the positions of every page. *)
Fixpoint recordPositions (i : Z) (accs : list PageAccess.t)
    (m : gmap string (list Z)) : gmap string (list Z) :=
  match accs with
  | [] => m
  | access :: rest =>
      let p := PageAccess.PageID access in
      recordPositions (i + 1) rest (<[p := default [] (m !! p) ++ [i]]> m)
  end.

Module Opt.

(** Local variables of [OptimalAlgorithm], with [s.pageLoadCount].
    [evicted] is a ghost log of the victims, in order. *)
Record state : Type := mk {
  frames : list string;
  inMemory : gmap string bool;
  pageFaults : Z;
  loads : gmap string Z;
  evicted : list string
}.

Definition init : state :=
  {| frames := []; inMemory := ∅; pageFaults := 0; loads := ∅; evicted := [] |}.

(** The victim scan [for frameIdx, pageInFrame := range frames] of
    main.go, from frame [frameIdx] on. *)
Fixpoint selectVictim (pageAccessPositions : gmap string (list Z)) (i : Z)
    (frames : list string) (frameIdx farthest victimIndex : Z) : outcome Z :=
  match frames with
  | [] => Done victimIndex
  | pageInFrame :: rest =>
      let positions := default [] (pageAccessPositions !! pageInFrame) in
      let nextUsePos := SearchInts positions (int_add i 1) in
      if nextUsePos =? len positions then Done frameIdx
      else
        nextUse ← index positions nextUsePos;
        if nextUse >? farthest
        then selectVictim pageAccessPositions i rest (frameIdx + 1) nextUse frameIdx
        else selectVictim pageAccessPositions i rest (frameIdx + 1) farthest victimIndex
  end.

(** The same scan as the older revision of the file writes it: a page
    that is never used again gets the distance [len(s.accesses)]. *)
Fixpoint selectVictim_old (nAccesses : Z) (nextUse : gmap string (list Z)) (i : Z)
    (frames : list string) (frameIdx farthestNextUse victimFrame : Z) : outcome Z :=
  match frames with
  | [] => Done victimFrame
  | pageInFrame :: rest =>
      let positions := default [] (nextUse !! pageInFrame) in
      let searchIndex := SearchInts positions (int_add i 1) in
      nextPos ← (if searchIndex =? len positions then Done nAccesses
                 else index positions searchIndex);
      let farthestNextUse' := if nextPos >? farthestNextUse then nextPos else farthestNextUse in
      let victimFrame' := if nextPos >? farthestNextUse then frameIdx else victimFrame in
      if nextPos =? nAccesses then Done victimFrame'
      else selectVictim_old nAccesses nextUse i rest (frameIdx + 1) farthestNextUse' victimFrame'
  end.

(** One iteration of the main loop: access number [i] to [pageID]. *)
Definition access (totalFrames : Z) (pageAccessPositions : gmap string (list Z))
    (i : Z) (pageID : string) (st : state) : outcome state :=
  match inMemory st !! pageID with
  | Some _ => Done st
  | None =>
      let pageFaults' := int_add (pageFaults st) 1 in
      let loads' := map_incr pageID (loads st) in
      if len (frames st) <? totalFrames then
        Done {| frames := frames st ++ [pageID];
                inMemory := <[pageID := true]> (inMemory st);
                pageFaults := pageFaults';
                loads := loads';
                evicted := evicted st |}
      else
        victimIndex ← selectVictim pageAccessPositions i (frames st) 0 (-1) (-1);
        victim ← index (frames st) victimIndex;
        Done {| frames := <[Z.to_nat victimIndex := pageID]> (frames st);
                inMemory := <[pageID := true]> (delete victim (inMemory st));
                pageFaults := pageFaults';
                loads := loads';
                evicted := evicted st ++ [victim] |}
  end.

Fixpoint loop (totalFrames : Z) (pageAccessPositions : gmap string (list Z))
    (i : Z) (accs : list PageAccess.t) (st : state) : outcome state :=
  match accs with
  | [] => Done st
  | a :: rest =>
      st' ← access totalFrames pageAccessPositions i (PageAccess.PageID a) st;
      loop totalFrames pageAccessPositions (i + 1) rest st'
  end.

(** The whole run, from [frames := make([]string, 0, s.totalFrames)]. *)
Definition run `{Runtime} (s : Simulator) : outcome state :=
  _ ← makeslice sizeofString 0 (totalFrames s);
  loop (totalFrames s) (recordPositions 0 (accesses s) ∅) 0 (accesses s) init.

End Opt.

Definition OptimalAlgorithm `{Runtime} (s : Simulator) : outcome (Z * Simulator) :=
  st ← Opt.run s;
  Done (Opt.pageFaults st, set_pageLoadCount (Opt.loads st) s).

(** ** The clock policy *)

Module Clock.

(** Local variables of [ClockAlgorithm], with [s.pageLoadCount] and the
    ghost log of the victims. *)
Record state : Type := mk {
  frames : list (option PageFrame.t);
  pageToFrame : gmap string Z;
  clockPointer : Z;
  pageFaults : Z;
  loads : gmap string Z;
  evicted : list string
}.

Definition init (totalFrames : Z) : state :=
  {| frames := replicate (Z.to_nat totalFrames) None; pageToFrame := ∅;
     clockPointer := 0; pageFaults := 0; loads := ∅; evicted := [] |}.

Definition fresh (pageID : string) : PageFrame.t :=
  {| PageFrame.PageID := pageID; PageFrame.Referenced := true; PageFrame.LoadCount := 1 |}.

Definition setReferenced (b : bool) (f : PageFrame.t) : PageFrame.t :=
  {| PageFrame.PageID := PageFrame.PageID f; PageFrame.Referenced := b;
     PageFrame.LoadCount := PageFrame.LoadCount f |}.

(** [frames[i]] followed by a field access: the frame must be non-nil. *)
Definition deref (frames : list (option PageFrame.t)) (i : Z) : outcome PageFrame.t :=
  f ← index frames i;
  match f with
  | Some fr => Done fr
  | None => Panic
  end.

(** [for j := 0; j < s.totalFrames; j++ { if frames[j] == nil ... } ],
    from [j] on, with [n] iterations left. *)
Fixpoint findEmpty (n : nat) (frames : list (option PageFrame.t)) (j : Z) : outcome Z :=
  match n with
  | O => Done (-1)
  | S n' =>
      f ← index frames j;
      match f with
      | None => Done j
      | Some _ => findEmpty n' frames (int_add j 1)
      end
  end.

(** Go's [a % b]. *)
Definition int_rem (a b : Z) : outcome Z :=
  if b =? 0 then Panic else Done (Z.rem a b).

(** The victim scan [for { ... }].  It returns the frames, the page
    table, the clock pointer, the victim's page and the number of frames
    it has visited. *)
Fixpoint scan (fuel : nat) (totalFrames : Z) (pageID : string)
    (frames : list (option PageFrame.t)) (pageToFrame : gmap string Z)
    (clockPointer : Z) (visited : Z)
  : outcome (list (option PageFrame.t) * gmap string Z * Z * string * Z) :=
  match fuel with
  | O => Timeout
  | S fuel' =>
      fr ← deref frames clockPointer;
      if negb (PageFrame.Referenced fr) then
        let oldPageID := PageFrame.PageID fr in
        let pageToFrame' := delete oldPageID pageToFrame in
        let frames' := <[Z.to_nat clockPointer := Some (fresh pageID)]> frames in
        let pageToFrame'' := <[pageID := clockPointer]> pageToFrame' in
        clockPointer' ← int_rem (int_add clockPointer 1) totalFrames;
        Done (frames', pageToFrame'', clockPointer', oldPageID, visited + 1)
      else
        let frames' := <[Z.to_nat clockPointer := Some (setReferenced false fr)]> frames in
        clockPointer' ← int_rem (int_add clockPointer 1) totalFrames;
        scan fuel' totalFrames pageID frames' pageToFrame clockPointer' (visited + 1)
  end.

(** The scan clears one referenced bit per iteration that does not stop,
    so this many iterations are always enough (lemma [scan_total]). *)
Definition scanFuel (frames : list (option PageFrame.t)) : nat := S (length frames).

(** One iteration of the main loop. *)
Definition access (totalFrames : Z) (pageID : string) (st : state) : outcome state :=
  match pageToFrame st !! pageID with
  | Some frameIndex =>
      fr ← deref (frames st) frameIndex;
      Done {| frames := <[Z.to_nat frameIndex := Some (setReferenced true fr)]> (frames st);
              pageToFrame := pageToFrame st;
              clockPointer := clockPointer st;
              pageFaults := pageFaults st;
              loads := loads st;
              evicted := evicted st |}
  | None =>
      let pageFaults' := int_add (pageFaults st) 1 in
      let loads' := map_incr pageID (loads st) in
      emptyFrame ← findEmpty (Z.to_nat totalFrames) (frames st) 0;
      if negb (emptyFrame =? -1) then
        _ ← index (frames st) emptyFrame;
        Done {| frames := <[Z.to_nat emptyFrame := Some (fresh pageID)]> (frames st);
                pageToFrame := <[pageID := emptyFrame]> (pageToFrame st);
                clockPointer := clockPointer st;
                pageFaults := pageFaults';
                loads := loads';
                evicted := evicted st |}
      else
        r ← scan (scanFuel (frames st)) totalFrames pageID
               (frames st) (pageToFrame st) (clockPointer st) 0;
        let '(frames', pageToFrame', clockPointer', victim, _) := r in
        Done {| frames := frames';
                pageToFrame := pageToFrame';
                clockPointer := clockPointer';
                pageFaults := pageFaults';
                loads := loads';
                evicted := evicted st ++ [victim] |}
  end.

Fixpoint loop (totalFrames : Z) (accs : list PageAccess.t) (st : state) : outcome state :=
  match accs with
  | [] => Done st
  | a :: rest =>
      st' ← access totalFrames (PageAccess.PageID a) st;
      loop totalFrames rest st'
  end.

(** The whole run, from [frames := make([]*PageFrame, s.totalFrames)]. *)
Definition run `{Runtime} (s : Simulator) : outcome state :=
  _ ← makeslice sizeofPointer (totalFrames s) (totalFrames s);
  loop (totalFrames s) (accesses s) (init (totalFrames s)).

End Clock.

Arguments Clock.scanFuel : simpl never.

Definition ClockAlgorithm `{Runtime} (s : Simulator) : outcome (Z * Simulator) :=
  st ← Clock.run s;
  Done (Clock.pageFaults st, set_pageLoadCount (Clock.loads st) s).

(** ** Reports and the driver *)

(** What the program prints, line by line, with the values it prints
    (numbers are kept as numbers, the formatting is left out). *)
Inductive line : Type :=
| Banner (memorySize pageSize totalFrames nAccesses nDistinct : Z) (estimate : string)
| InsufficientMemory (minimum : Z)
| OptimalFaults (n : Z)
| OptimalSkipped
| ClockFaults (n : Z)
| Efficiency (optimalFaults clockFaults : Z)
| EfficiencyNotRun
| EfficiencyNoFaults
| LoadCountTitle
| LoadCountOf (page : string) (n : Z)
| PageTableEstimate (numDistinctPages entrySize tableSize : Z)
| Usage
| InvalidMemorySize (arg : string)
| MemoryTooSmall (memorySize : Z)
| UnknownOption (arg : string)
| Loading (filename : string)
| LoadFailed
| Loaded.

(** [sort.Strings] of the keys of [s.pageLoadCount], then one line each. *)
Definition ShowLoadCount (s : Simulator) : list line :=
  if negb (showLoadCount s) then []
  else
    let pages := merge_sort String.le (map_to_list (pageLoadCount s)).*1 in
    LoadCountTitle
      :: map (λ page, LoadCountOf page (default 0 (pageLoadCount s !! page))) pages.

Definition EstimatePageTableSize (s : Simulator) : list line :=
  if negb (showPageTable s) then []
  else
    let entrySize := 8 in
    let numDistinctPages := Z.of_nat (size (distinctPages s)) in
    [PageTableEstimate numDistinctPages entrySize (wrap64 (numDistinctPages * entrySize))].

Definition estimateExecutionTime (s : Simulator) : string :=
  let accesses := len (accesses s) in
  if skipOptimal s then "< 5 segundos"
  else if accesses <? 1000000 then "1-5 segundos"
  else if accesses <? 10000000 then "5-20 segundos"
  else "Pode demorar mais de 30 segundos".

Definition Run `{Runtime} (s : Simulator) : outcome (list line * Simulator) :=
  let banner :=
    Banner (memorySize s) PAGE_SIZE (totalFrames s) (len (accesses s))
      (Z.of_nat (size (distinctPages s))) (estimateExecutionTime s) in
  if totalFrames s =? 0 then Done ([banner; InsufficientMemory PAGE_SIZE], s)
  else
    '(optimalFaults, optimalLines, s1) ←
      (if negb (skipOptimal s)
       then '(n, s') ← OptimalAlgorithm s; Done (n, [OptimalFaults n], s')
       else Done (-1, [OptimalSkipped], s));
    '(clockFaults, s2) ← ClockAlgorithm s1;
    let efficiency :=
      if (optimalFaults >? 0) && (clockFaults >? 0) then Efficiency optimalFaults clockFaults
      else if optimalFaults =? -1 then EfficiencyNotRun
      else EfficiencyNoFaults in
    Done (banner :: optimalLines ++ [ClockFaults clockFaults; efficiency]
            ++ ShowLoadCount s2 ++ EstimatePageTableSize s2, s2).

Definition set_flags (didactic loadCount pageTable skip : bool) (s : Simulator) : Simulator :=
  {| memorySize := memorySize s; totalFrames := totalFrames s;
     accesses := accesses s; distinctPages := distinctPages s;
     pageLoadCount := pageLoadCount s;
     didacticMode := didactic; showLoadCount := loadCount;
     showPageTable := pageTable; skipOptimal := skip |}.

(** The option loop of [main]. *)
Fixpoint processOptions (args : list string) (s : Simulator) : list line * Simulator :=
  match args with
  | [] => ([], s)
  | arg :: rest =>
      let '(warning, s') :=
        if String.eqb arg "-all"
        then ([], set_flags true true true (skipOptimal s) s)
        else if String.eqb arg "-didactic"
        then ([], set_flags true (showLoadCount s) (showPageTable s) (skipOptimal s) s)
        else if String.eqb arg "-loadcount"
        then ([], set_flags (didacticMode s) true (showPageTable s) (skipOptimal s) s)
        else if String.eqb arg "-pagetable"
        then ([], set_flags (didacticMode s) (showLoadCount s) true (skipOptimal s) s)
        else if String.eqb arg "-skipoptimal"
        then ([], set_flags (didacticMode s) (showLoadCount s) (showPageTable s) true s)
        else ([UnknownOption arg], s) in
      let '(warnings, s'') := processOptions rest s' in
      (warning ++ warnings, s'')
  end.

Section driver.
(** The environment of [main]: the runtime, [strconv.Atoi] and the trace
    loader ([LoadAccessFile], which reads the file system). *)
Context {rt : Runtime}.
Variable Atoi : string → option Z.
Variable LoadAccessFile : string → Simulator → option Simulator.

Definition main (args : list string) : outcome (list line) :=
  if len args <? 3 then Done [Usage]
  else
    filename ← index args 1;
    arg2 ← index args 2;
    match Atoi arg2 with
    | None => Done [InvalidMemorySize arg2]
    | Some memorySize =>
        if memorySize <? PAGE_SIZE then Done [MemoryTooSmall memorySize]
        else
          let '(warnings, simulator) := processOptions (drop 3 args) (NewSimulator memorySize) in
          match LoadAccessFile filename simulator with
          | None => Done (warnings ++ [Loading filename; LoadFailed])
          | Some simulator' =>
              '(lines, _) ← Run simulator';
              Done (warnings ++ [Loading filename; Loaded] ++ lines)
          end
    end.
End driver.

(** ** Demand paging in the abstract

    What the two policies have in common, over any type of pages: the
    resident set is a finite set, a fault loads the page and, when the
    memory is full, removes a victim first. *)

Section paging.
Context {P : Type} `{Countable P}.

(** Position of the first occurrence of [q] in [t], if any. *)
Fixpoint firstOcc (q : P) (t : list P) : option nat :=
  match t with
  | [] => None
  | p :: t' => if decide (p = q) then Some O else S <$> firstOcc q t'
  end.

(** [a] is needed in [t] no later than [b] is: [b] never occurs, or [a]
    occurs first. *)
Definition noLater (a b : P) (t : list P) : Prop :=
  match firstOcc b t with
  | None => True
  | Some jb => match firstOcc a t with
               | None => False
               | Some ja => (ja ≤ jb)%nat
               end
  end.

(** [Serves F R t n]: some schedule with [F] frames serves the trace
    [t] from the resident set [R] with [n] faults.  On a fault the
    schedule may keep any part of the resident set that leaves room for
    the new page. *)
Inductive Serves (F : nat) : gset P → list P → nat → Prop :=
| Serves_nil R : Serves F R [] O
| Serves_hit R p t n :
    p ∈ R → Serves F R t n → Serves F R (p :: t) n
| Serves_fault R R' p t n :
    p ∉ R → R' ⊆ R ∪ {[p]} → p ∈ R' → (size R' ≤ F)%nat →
    Serves F R' t n → Serves F R (p :: t) (S n).

(** What a policy run exposes: resident set, fault counter, load
    counter and the victims so far. *)
Record view : Type := mkView {
  resident : gset P;
  faults : Z;
  loadmap : gmap P Z;
  victims : list P
}.

Definition bump (p : P) (m : gmap P Z) : gmap P Z :=
  <[p := default 0 (m !! p) + 1]> m.

(** One access to [p], [rest] being the accesses still to come; [V]
    restricts the victim. *)
Inductive step (F : nat) (V : gset P → list P → P → Prop) (p : P) (rest : list P)
  : view → view → Prop :=
| step_hit a : p ∈ resident a → step F V p rest a a
| step_load a :
    p ∉ resident a → (size (resident a) < F)%nat →
    step F V p rest a
      {| resident := resident a ∪ {[p]}; faults := faults a + 1;
         loadmap := bump p (loadmap a); victims := victims a |}
| step_evict a v :
    p ∉ resident a → (F ≤ size (resident a))%nat →
    v ∈ resident a → V (resident a) rest v →
    step F V p rest a
      {| resident := resident a ∖ {[v]} ∪ {[p]}; faults := faults a + 1;
         loadmap := bump p (loadmap a); victims := victims a ++ [v] |}.

Inductive steps (F : nat) (V : gset P → list P → P → Prop)
  : list P → view → view → Prop :=
| steps_nil a : steps F V [] a a
| steps_cons p rest a a' a'' :
    step F V p rest a a' → steps F V rest a' a'' → steps F V (p :: rest) a a''.

(** The victim of the optimal policy: no resident page is needed later. *)
Definition farthest (R : gset P) (rest : list P) (v : P) : Prop :=
  ∀ q, q ∈ R → noLater q v rest.

Definition anyVictim (R : gset P) (rest : list P) (v : P) : Prop := True.

(** Sum of the counters of a load map. *)
Definition total (m : gmap P Z) : Z := map_fold (λ _ v acc, v + acc) 0 m.

End paging.

(** ** Specification vocabulary for the two policies *)

(** The pages of a trace, in order. *)
Definition pages (accs : list PageAccess.t) : list string :=
  map PageAccess.PageID accs.

(** The positions of [q] in [accs], the first record being number [start]. *)
Fixpoint positionsOf (q : string) (start : Z) (accs : list PageAccess.t) : list Z :=
  match accs with
  | [] => []
  | a :: rest =>
      if decide (PageAccess.PageID a = q)
      then start :: positionsOf q (start + 1) rest
      else positionsOf q (start + 1) rest
  end.

(** Position of the next access to [q] strictly after position [i]. *)
Definition nextUseAfter (accs : list PageAccess.t) (i : Z) (q : string) : option Z :=
  (λ k : nat, i + 1 + Z.of_nat k) <$> firstOcc q (pages (drop (S (Z.to_nat i)) accs)).

(** The distinct pages of a trace. *)
Definition distinct (accs : list PageAccess.t) : gset string :=
  list_to_set (pages accs).

(** What a policy run is observed to produce: the fault count and the
    contents of the load counter. *)
Definition measurement (o : outcome (Z * Simulator)) : outcome (Z * gmap string Z) :=
  '(n, s') ← o; Done (n, pageLoadCount s').

(** The three ways the victim scan of the optimal policy over the frames
    [fs] can end, the frames being numbered from [k0] and the running
    maximum [f0] being held by [v0]: at the first page that is not used
    again; with the running maximum unchanged; or at the first frame that
    holds the latest next use. *)
Definition scan_result (nextUse : string → option Z) (fs : list string)
    (k0 f0 v0 v : Z) : Prop :=
  (∃ (j : nat) q, fs !! j = Some q ∧ nextUse q = None ∧ v = k0 + Z.of_nat j ∧
     ∀ (j' : nat) q', (j' < j)%nat → fs !! j' = Some q' → nextUse q' ≠ None)
  ∨ ((∀ q, q ∈ fs → nextUse q ≠ None) ∧
     ((v = v0 ∧ ∀ q u, q ∈ fs → nextUse q = Some u → u ≤ f0)
      ∨ (∃ (j : nat) q u, fs !! j = Some q ∧ nextUse q = Some u ∧
           v = k0 + Z.of_nat j ∧ f0 < u ∧
           (∀ q' u', q' ∈ fs → nextUse q' = Some u' → u' ≤ u) ∧
           (∀ (j' : nat) q' u', (j' < j)%nat → fs !! j' = Some q' →
              nextUse q' = Some u' → u' < u)))).

(** What Go's types guarantee about a simulator: [totalFrames] is an
    [int] and [len(s.accesses)] fits in one. *)
Definition go_values (s : Simulator) : Prop :=
  - 2 ^ 63 ≤ totalFrames s ≤ MaxInt ∧ len (accesses s) ≤ MaxInt.

Definition view0 : view (P := string) :=
  {| resident := ∅; faults := 0; loadmap := ∅; victims := [] |}.

Definition counters_ok (i : Z) (pageFaults : Z) (loads : gmap string Z) : Prop :=
  0 ≤ pageFaults ≤ i ∧ map_Forall (λ _ v, 0 ≤ v ≤ pageFaults) loads.

Definition Opt_view (st : Opt.state) : view :=
  {| resident := list_to_set (Opt.frames st); faults := Opt.pageFaults st;
     loadmap := Opt.loads st; victims := Opt.evicted st |}.

(** Invariant of the main loop of [OptimalAlgorithm] before access [i]. *)
Definition Opt_inv (F i : Z) (st : Opt.state) : Prop :=
  NoDup (Opt.frames st) ∧
  (∀ q, is_Some (Opt.inMemory st !! q) ↔ q ∈ Opt.frames st) ∧
  len (Opt.frames st) ≤ F ∧
  counters_ok i (Opt.pageFaults st) (Opt.loads st).

(** The page held by frame [j], if the frame exists and is not empty. *)
Definition pageAt (frames : list (option PageFrame.t)) (j : nat) : option string :=
  match frames !! j with
  | Some (Some fr) => Some (PageFrame.PageID fr)
  | _ => None
  end.

(** The referenced bit of frame [j]; an empty or missing frame counts as
    not referenced. *)
Definition referencedAt (frames : list (option PageFrame.t)) (j : Z) : bool :=
  match frames !! Z.to_nat j with
  | Some (Some fr) => PageFrame.Referenced fr
  | _ => false
  end.

(** Frame [j] after a scan that started at [clockPointer], went past [k]
    referenced frames and put [pageID] in frame [v]. *)
Definition afterScan (totalFrames clockPointer k v : Z) (pageID : string)
    (frames : list (option PageFrame.t)) (j : Z) : option (option PageFrame.t) :=
  if decide (j = v) then Some (Some (Clock.fresh pageID))
  else if decide ((j - clockPointer) mod totalFrames < k)
       then match frames !! Z.to_nat j with
            | Some (Some fr) => Some (Some (Clock.setReferenced false fr))
            | o => o
            end
       else frames !! Z.to_nat j.

(** The page table and the frames agree. *)
Definition table_agrees (pageToFrame : gmap string Z)
    (frames : list (option PageFrame.t)) : Prop :=
  ∀ q (j : Z), pageToFrame !! q = Some j ↔
               0 ≤ j ∧ pageAt frames (Z.to_nat j) = Some q.

Definition Clock_view (st : Clock.state) : view :=
  {| resident := dom (Clock.pageToFrame st); faults := Clock.pageFaults st;
     loadmap := Clock.loads st; victims := Clock.evicted st |}.

(** Invariant of the main loop of [ClockAlgorithm] before access [i]. *)
Definition Clock_inv (F i : Z) (st : Clock.state) : Prop :=
  length (Clock.frames st) = Z.to_nat F ∧
  0 ≤ Clock.clockPointer st < F ∧
  table_agrees (Clock.pageToFrame st) (Clock.frames st) ∧
  (size (Clock.pageToFrame st) ≤ length (Clock.frames st))%nat ∧
  (∀ j : nat, (j < length (Clock.frames st))%nat →
     is_Some (pageAt (Clock.frames st) j) ↔ (j < size (Clock.pageToFrame st))%nat) ∧
  counters_ok i (Clock.pageFaults st) (Clock.loads st).

(** ** Sample inputs *)

(** The record [LoadAccessFile] builds for a valid page identifier. *)
Definition accessOf (pageID : string) : PageAccess.t :=
  {| PageAccess.PageID := pageID; PageAccess.Type_ := String.substring 0 1 pageID |}.

(** The simulator [main] runs for a memory size and a file holding these
    page identifiers, all options off. *)
Definition simulatorOf (memorySize : Z) (pageIDs : list string) : Simulator :=
  {| memorySize := memorySize;
     totalFrames := Z.quot memorySize PAGE_SIZE;
     accesses := accessOf <$> pageIDs;
     distinctPages := gset_to_gmap true (list_to_set pageIDs);
     pageLoadCount := ∅;
     didacticMode := false; showLoadCount := false;
     showPageTable := false; skipOptimal := false |}.

Definition anomalyTrace : list string :=
  ["D1"; "D2"; "D3"; "D4"; "D1"; "D2"; "D5"; "D1"; "D2"; "D3"; "D4"; "D5"].

Definition sampleTrace : list string :=
  ["IA"; "IB"; "IC"; "IA"; "IB"; "ID"; "IA"; "IB"; "IC"; "ID"].

(** The state of [OptimalAlgorithm] on [sampleTrace] with three frames
    when it reaches access number 5 (page ID). *)
Definition sampleOptState : Opt.state :=
  {| Opt.frames := ["IA"; "IB"; "IC"];
     Opt.inMemory := {["IA" := true; "IB" := true; "IC" := true]};
     Opt.pageFaults := 3;
     Opt.loads := {["IA" := 1; "IB" := 1; "IC" := 1]};
     Opt.evicted := [] |}.

(** The state of [ClockAlgorithm] on [sampleTrace] with three frames at
    the same point. *)
Definition sampleClockState : Clock.state :=
  {| Clock.frames := [Some (Clock.fresh "IA"); Some (Clock.fresh "IB"); Some (Clock.fresh "IC")];
     Clock.pageToFrame := {["IA" := 0; "IB" := 1; "IC" := 2]};
     Clock.clockPointer := 0;
     Clock.pageFaults := 3;
     Clock.loads := {["IA" := 1; "IB" := 1; "IC" := 1]};
     Clock.evicted := [] |}.

(** [sampleTrace] with three frames and the [-loadcount] option. *)
Definition sampleReportRun : Simulator :=
  set_flags false true false false (simulatorOf 12288 sampleTrace).

(** ** The trace loader

    [LoadAccessFile] reads the file through [os.Open] and a
    [bufio.Scanner] and cuts every line with [strings.TrimSpace] and
    [strings.Fields].  These are the environment of the loader: the file
    system gives, for a file name, either nothing (the file cannot be
    opened) or the lines the scanner delivers and whether it ended on an
    error. *)

Inductive loadError : Type :=
| OpenError (filename : string)
| ReadError
| NoValidAccess.

(** What the loader prints. *)
Inductive notice : Type :=
| BadFormat (lineNo : Z) (text : string)
| BadPage (lineNo : Z) (text : string)
| MoreInvalid (n : Z)
| FileProcessed (lineCount valid invalid : Z).

Definition set_trace (accs : list PageAccess.t) (pagesSeen : gmap string bool)
    (s : Simulator) : Simulator :=
  {| memorySize := memorySize s; totalFrames := totalFrames s;
     accesses := accs; distinctPages := pagesSeen;
     pageLoadCount := pageLoadCount s;
     didacticMode := didacticMode s; showLoadCount := showLoadCount s;
     showPageTable := showPageTable s; skipOptimal := skipOptimal s |}.

(** [len(pageID) >= 2 && (pageID[0] == 'I' || pageID[0] == 'D')] *)
Definition validPageID (pageID : string) : bool :=
  (2 <=? Z.of_nat (String.length pageID))
  && match pageID with
     | String c _ => Ascii.eqb c "I"%char || Ascii.eqb c "D"%char
     | EmptyString => false
     end.

(** The field of a line that names the page: [parts[1]] when there are
    at least two fields, [parts[0]] when there is one. *)
Definition pageField (parts : list string) : option string :=
  match parts with
  | _ :: pageID :: _ => Some pageID
  | [pageID] => Some pageID
  | [] => None
  end.

(** Local variables of [LoadAccessFile], with the simulator it fills and
    what it has printed. *)
Record loading : Type := mkLoading {
  loaded : Simulator;
  lineCount : Z;
  invalidLines : Z;
  notices : list notice
}.

Section loader.
Variable TrimSpace : string → string.
Variable Fields : string → list string.
Variable openFile : string → option (list string * bool).

(** An invalid line: counted, and reported for the first ten. *)
Definition rejectLine (lineNo : Z) (report : notice) (st : loading) : loading :=
  let invalidLines' := int_add (invalidLines st) 1 in
  {| loaded := loaded st; lineCount := lineNo; invalidLines := invalidLines';
     notices := notices st ++ (if invalidLines' <=? 10 then [report] else []) |}.

(** One iteration of [for scanner.Scan()]. *)
Definition scanLine (st : loading) (text : string) : loading :=
  let line := TrimSpace text in
  let lineCount' := int_add (lineCount st) 1 in
  if String.eqb line ""
  then {| loaded := loaded st; lineCount := lineCount';
          invalidLines := invalidLines st; notices := notices st |}
  else
    match pageField (Fields line) with
    | None => rejectLine lineCount' (BadFormat lineCount' line) st
    | Some pageID =>
        if validPageID pageID then
          let pageAccess := accessOf pageID in
          {| loaded := set_trace (accesses (loaded st) ++ [pageAccess])
                         (<[PageAccess.PageID pageAccess := true]> (distinctPages (loaded st)))
                         (loaded st);
             lineCount := lineCount';
             invalidLines := invalidLines st; notices := notices st |}
        else rejectLine lineCount' (BadPage lineCount' line) st
    end.

Definition LoadAccessFile (filename : string) (s : Simulator)
  : list notice * Simulator * option loadError :=
  match openFile filename with
  | None => ([], s, Some (OpenError filename))
  | Some (texts, readFailed) =>
      let st := fold_left scanLine texts
                  {| loaded := s; lineCount := 0; invalidLines := 0; notices := [] |} in
      if readFailed : bool then (notices st, loaded st, Some ReadError)
      else
        let notices' :=
          notices st ++ (if invalidLines st >? 10
                         then [MoreInvalid (wrap64 (invalidLines st - 10))] else []) in
        if len (accesses (loaded st)) =? 0
        then (notices', loaded st, Some NoValidAccess)
        else (notices' ++ [FileProcessed (lineCount st) (len (accesses (loaded st)))
                             (invalidLines st)],
              loaded st, None)
  end.

(** The loader as [main] uses it: the simulator, or a failure. *)
Definition loadOrFail (filename : string) (s : Simulator) : option Simulator :=
  match LoadAccessFile filename s with
  | (_, s', None) => Some s'
  | (_, _, Some _) => None
  end.

(** The pages the loader accepts from these lines, in order. *)
Definition acceptedPage (text : string) : option string :=
  let line := TrimSpace text in
  if String.eqb line "" then None
  else match pageField (Fields line) with
       | Some pageID => if validPageID pageID then Some pageID else None
       | None => None
       end.

Definition isBlank (text : string) : bool := String.eqb (TrimSpace text) "".

Definition isInvalid (text : string) : bool :=
  negb (isBlank text) && negb (bool_decide (is_Some (acceptedPage text))).

End loader.

(** The option names [main] knows. *)
Definition knownOptions : list string :=
  ["-all"; "-didactic"; "-loadcount"; "-pagetable"; "-skipoptimal"].

(** ** Vocabulary for the loader *)

Definition seen_after (m : gmap string bool) (ps : list string) (m' : gmap string bool) : Prop :=
  ∀ q, m' !! q = if decide (q ∈ ps) then Some true else m !! q.
Definition is_warning (lo hi : Z) (n : notice) : Prop :=
  ∃ k text, (n = BadFormat k text ∨ n = BadPage k text) ∧ lo < k ≤ hi.

(** A file system and a field splitter to run the loader on: fields are
    separated by single spaces, the lines carry no surrounding blanks. *)
Fixpoint spaceFields_from (field line : string) : list string :=
  match line with
  | EmptyString => if String.eqb field "" then [] else [field]
  | String c rest =>
      if Ascii.eqb c " "%char
      then (if String.eqb field "" then [] else [field]) ++ spaceFields_from "" rest
      else spaceFields_from (field ++ String c "") rest
  end.

Definition spaceFields (line : string) : list string := spaceFields_from "" line.

Definition sampleLines : list string := ["1 I0"; ""; "2 D1"; "oops"; "I0"; "4 X9"].

Definition cleanLines : list string := ["1 I0"; "2 D1"; "I0"].

Definition sampleOpenFile (filename : string) : option (list string * bool) :=
  if String.eqb filename "trace.txt" then Some (sampleLines, false)
  else if String.eqb filename "clean.txt" then Some (cleanLines, false)
  else None.

Definition sampleAtoi (arg : string) : option Z :=
  if String.eqb arg "8192" then Some 8192 else None.

(** * Properties *)

Section paging_facts.
Context {P : Type} `{Countable P}.
Implicit Types (R X : gset P) (t : list P) (p q a b : P).

Lemma firstOcc_None q t : firstOcc q t = None ↔ q ∉ t.
Proof.
  induction t as [|p t IH]; simpl.
  - split; [intros _; apply not_elem_of_nil | done].
  - destruct (decide (p = q)) as [->|Hne].
    + split; [done | intros Hq; exfalso; apply Hq; left].
    + rewrite fmap_None, IH, not_elem_of_cons. intuition congruence.
Qed.

Lemma noLater_cons_other a b p t :
  p ≠ a → p ≠ b → noLater a b (p :: t) ↔ noLater a b t.
Proof.
  intros Ha Hb. unfold noLater; simpl.
  destruct (decide (p = b)) as [|_]; [done|].
  destruct (decide (p = a)) as [|_]; [done|].
  destruct (firstOcc b t), (firstOcc a t); simpl; try tauto. lia.
Qed.

Lemma noLater_cons_second a b t : a ≠ b → ¬ noLater a b (b :: t).
Proof.
  intros Hab. unfold noLater; simpl.
  destruct (decide (b = b)) as [_|]; [|done].
  destruct (decide (b = a)) as [|_]; [congruence|].
  destruct (firstOcc a t); simpl; [lia | tauto].
Qed.

Lemma noLater_absent a b t : b ∉ t → noLater a b t.
Proof. intros Hb. unfold noLater. apply firstOcc_None in Hb. by rewrite Hb. Qed.

Lemma difference_add R b : b ∈ R → R ∖ {[b]} ∪ {[b]} = R.
Proof.
  intros Hb. apply set_eq. intros x.
  rewrite elem_of_union, elem_of_difference, elem_of_singleton.
  destruct (decide (x = b)); naive_solver.
Qed.

Lemma size_remove R b : b ∈ R → size R = S (size (R ∖ {[b]})).
Proof.
  intros Hb. rewrite <- (difference_add R b Hb) at 1.
  rewrite size_union by set_solver. rewrite size_singleton. lia.
Qed.

Lemma size_add R b : b ∉ R → size (R ∪ {[b]}) = S (size R).
Proof.
  intros Hb. rewrite size_union by set_solver. rewrite size_singleton. lia.
Qed.

Lemma Serves_weaken F F' R t n : (F ≤ F')%nat → Serves F R t n → Serves F' R t n.
Proof.
  intros HF. induction 1.
  - constructor.
  - by constructor.
  - apply Serves_fault with R'; [done..| lia | done].
Qed.

(** A larger resident set never costs more. *)
Lemma Serves_mono F R1 R2 t n :
  R1 ⊆ R2 → Serves F R1 t n → ∃ m, (m ≤ n)%nat ∧ Serves F R2 t m.
Proof.
  intros Hsub Hrun. revert R2 Hsub.
  induction Hrun as [R|R p t n Hp Hrun IH|R R' p t n Hp Hsub' Hp' Hsz Hrun IH];
    intros R2 Hsub.
  - exists O. split; [lia | constructor].
  - destruct (IH R2 Hsub) as (m & Hm & Hrun2).
    exists m. split; [done|]. apply Serves_hit; [set_solver | done].
  - destruct (decide (p ∈ R2)) as [Hin|Hnin].
    + destruct (IH R2) as (m & Hm & Hrun2); [set_solver|].
      exists m. split; [lia|]. by apply Serves_hit.
    + exists (S n). split; [lia|].
      apply Serves_fault with R'; [done | set_solver | done..].
Qed.

(** Losing one resident page costs at most one more fault. *)
Lemma Serves_remove F R b t n :
  (size R ≤ F)%nat → Serves F R t n →
  ∃ m, (m ≤ S n)%nat ∧ Serves F (R ∖ {[b]}) t m.
Proof.
  intros Hsz Hrun.
  induction Hrun as [R|R p t n Hp Hrun IH|R R' p t n Hp Hsub' Hp' Hsz' Hrun IH].
  - exists O. split; [lia | constructor].
  - destruct (decide (p = b)) as [->|Hne].
    + exists (S n). split; [lia|].
      apply Serves_fault with R; [set_solver | | done..].
      intros x ?. destruct (decide (x = b)); set_solver.
    + destruct (IH Hsz) as (m & Hm & Hrun2).
      exists m. split; [done|]. apply Serves_hit; [set_solver | done].
  - destruct (decide (p = b)) as [->|Hne].
    + exists (S n). split; [lia|].
      apply Serves_fault with R'; [set_solver | set_solver | done..].
    + destruct (IH Hsz') as (m & Hm & Hrun2).
      exists (S m). split; [lia|].
      apply Serves_fault with (R' ∖ {[b]}); [set_solver | set_solver | set_solver | | done].
      etrans; [|exact Hsz']. apply subseteq_size. set_solver.
Qed.

(** Exchange: holding the page that is needed sooner is never worse. *)
Lemma Serves_exchange F t : ∀ X a b n,
  a ∉ X → b ∉ X → (size X < F)%nat → noLater a b t →
  Serves F (X ∪ {[b]}) t n → ∃ m, (m ≤ n)%nat ∧ Serves F (X ∪ {[a]}) t m.
Proof.
  induction t as [|p t IH]; intros X a b n Ha Hb Hsz Hlater Hrun.
  - inversion Hrun; subst. exists O. split; [lia | constructor].
  - destruct (decide (a = b)) as [->|Hab]; [by exists n|].
    assert (size (X ∪ {[b]}) ≤ F)%nat as Hszb by (rewrite size_add; [lia|done]).
    destruct (decide (p = a)) as [->|Hpa].
    { (* the left run faults on [a], the right one hits *)
      inversion Hrun as [|? ? ? ? Hin|? R' ? ? n' Hnin Hsub Hin Hsz' Hrun']; subst;
        [set_solver|].
      destruct (Serves_remove F R' b t n' Hsz' Hrun') as (m1 & Hm1 & Hrun1).
      destruct (Serves_mono F (R' ∖ {[b]}) (X ∪ {[a]}) t m1) as (m2 & Hm2 & Hrun2);
        [set_solver | done |].
      exists m2. split; [lia|]. apply Serves_hit; [set_solver | done]. }
    destruct (decide (p = b)) as [->|Hpb].
    { by destruct (noLater_cons_second a b t). }
    apply noLater_cons_other in Hlater; [|done..].
    inversion Hrun as [|? ? ? ? Hin Hrun'|? R' ? ? n' Hnin Hsub Hin Hsz' Hrun']; subst.
    + destruct (IH X a b n Ha Hb Hsz Hlater Hrun') as (m & Hm & Hrun2).
      exists m. split; [done|]. apply Serves_hit; [set_solver | done].
    + destruct (decide (b ∈ R')) as [HbR|HbR].
      * assert (size (R' ∖ {[b]}) < F)%nat as Hsz2.
        { pose proof (size_remove R' b HbR). lia. }
        destruct (IH (R' ∖ {[b]}) a b n') as (m & Hm & Hrun2);
          [set_solver | set_solver | done | done | |].
        { by rewrite difference_add. }
        exists (S m). split; [lia|].
        apply Serves_fault with (R' ∖ {[b]} ∪ {[a]});
          [set_solver | set_solver | set_solver | | done].
        rewrite size_add by set_solver. lia.
      * exists (S n'). split; [lia|].
        apply Serves_fault with R'; [set_solver | set_solver | done..].
Qed.

Lemma step_size F V p rest (x y : view) :
  step F V p rest x y → (size (resident x) ≤ F)%nat → (size (resident y) ≤ F)%nat.
Proof.
  intros Hstep Hsz. destruct Hstep as [x|x Hp Hlt|x v Hp Hge Hv HV]; simpl.
  - done.
  - rewrite size_add by done. lia.
  - rewrite size_add by set_solver. pose proof (size_remove _ _ Hv). lia.
Qed.

Lemma step_faults F V p rest (x y : view) :
  step F V p rest x y → faults x ≤ faults y ≤ faults x + 1.
Proof. destruct 1; simpl; lia. Qed.

Lemma steps_faults F V t (x y : view) :
  steps F V t x y → faults x ≤ faults y ≤ faults x + len t.
Proof.
  unfold len. induction 1 as [x|p rest x y z Hstep _ IH]; simpl length.
  - lia.
  - apply step_faults in Hstep. lia.
Qed.

(** Every policy run is a schedule. *)
Lemma steps_Serves F V t (x y : view) :
  steps F V t x y → (size (resident x) ≤ F)%nat →
  Serves F (resident x) t (Z.to_nat (faults y - faults x)).
Proof.
  induction 1 as [x|p rest x y z Hstep Hsteps IH]; intros Hsz.
  - rewrite Z.sub_diag. constructor.
  - pose proof (steps_faults _ _ _ _ _ Hsteps) as Hz.
    specialize (IH (step_size _ _ _ _ _ _ Hstep Hsz)).
    destruct Hstep as [x|x Hp Hlt|x v Hp Hge Hv HV]; simpl in *.
    + by apply Serves_hit.
    + replace (Z.to_nat (faults z - faults x))
        with (S (Z.to_nat (faults z - (faults x + 1)))) by lia.
      apply Serves_fault with (resident x ∪ {[p]}); [done | done | set_solver | | done].
      rewrite size_add by done. lia.
    + replace (Z.to_nat (faults z - faults x))
        with (S (Z.to_nat (faults z - (faults x + 1)))) by lia.
      apply Serves_fault with (resident x ∖ {[v]} ∪ {[p]});
        [done | set_solver | set_solver | | done].
      rewrite size_add by set_solver. pose proof (size_remove _ _ Hv). lia.
Qed.

(** Evicting a page that is needed last is at least as good as any
    other way of making room. *)
Lemma farthest_choice F R R' p v rest n :
  p ∉ R → (F ≤ size R)%nat → (size R ≤ F)%nat → v ∈ R → farthest R rest v →
  R' ⊆ R ∪ {[p]} → p ∈ R' → (size R' ≤ F)%nat → Serves F R' rest n →
  ∃ m, (m ≤ n)%nat ∧ Serves F (R ∖ {[v]} ∪ {[p]}) rest m.
Proof.
  intros Hp Hge Hle Hv Hfar Hsub Hp' Hsz' Hrun.
  assert (∃ q, q ∈ R ∧ q ∉ R') as (q & Hq & Hq').
  { destruct (size_pos_elem_of (R ∖ (R' ∖ {[p]}))) as [q Hq]; [|exists q; set_solver].
    rewrite size_difference by set_solver.
    pose proof (size_remove R' p Hp'). lia. }
  destruct (Serves_mono F R' (R ∖ {[q]} ∪ {[p]}) rest n) as (m1 & Hm1 & Hrun1);
    [|done|].
  { intros x Hx. destruct (decide (x = q)); set_solver. }
  destruct (decide (q = v)) as [->|Hqv]; [by exists m1|].
  set (X := R ∖ {[q]} ∖ {[v]} ∪ {[p]}).
  assert (R ∖ {[q]} ∪ {[p]} = X ∪ {[v]}) as Heq1.
  { apply set_eq. intros x. unfold X. destruct (decide (x = v)); set_solver. }
  assert (R ∖ {[v]} ∪ {[p]} = X ∪ {[q]}) as Heq2.
  { apply set_eq. intros x. unfold X. destruct (decide (x = q)); set_solver. }
  assert (q ∉ X) as HqX by (unfold X; set_solver).
  assert (v ∉ X) as HvX by (unfold X; set_solver).
  rewrite Heq1 in Hrun1. rewrite Heq2.
  destruct (Serves_exchange F rest X q v m1) as (m2 & Hm2 & Hrun2); try done.
  - assert (size (X ∪ {[q]}) ≤ F)%nat; [|rewrite size_add in *; [lia|done]].
    rewrite <- Heq2. rewrite size_add by set_solver.
    pose proof (size_remove _ _ Hv). lia.
  - by apply Hfar.
  - exists m2. split; [lia | done].
Qed.

(** Optimality of the farthest-in-future policy: no schedule with the
    same number of frames serves the trace with fewer faults. *)
Lemma steps_farthest_optimal F t (x y : view) :
  steps F farthest t x y → ∀ m,
  (size (resident x) ≤ F)%nat → Serves F (resident x) t m →
  faults y - faults x ≤ Z.of_nat m.
Proof.
  induction 1 as [x|p rest x y z Hstep Hsteps IH]; intros m Hsz Hrun.
  - lia.
  - specialize (λ m', IH m' (step_size _ _ _ _ _ _ Hstep Hsz)).
    destruct Hstep as [x|x Hp Hlt|x v Hp Hge Hv HV]; simpl in *.
    + inversion Hrun; subst; [by apply IH | done].
    + inversion Hrun as [| |? R' ? ? n Hnin Hsub Hin Hsz' Hrun']; subst; [done|].
      destruct (Serves_mono F R' (resident x ∪ {[p]}) rest n) as (m1 & Hm1 & Hrun1);
        [done..|].
      specialize (IH m1 Hrun1). lia.
    + inversion Hrun as [| |? R' ? ? n Hnin Hsub Hin Hsz' Hrun']; subst; [done|].
      destruct (farthest_choice F (resident x) R' p v rest n) as (m1 & Hm1 & Hrun1);
        [done..|].
      specialize (IH m1 Hrun1). lia.
Qed.

End paging_facts.

(** ** Go integers and slices *)

Lemma wrap64_small z : - 2 ^ 63 ≤ z ≤ MaxInt → wrap64 z = z.
Proof.
  unfold wrap64, MaxInt. intros Hz.
  rewrite Z.mod_small by lia. lia.
Qed.

Lemma int_add_small a b : - 2 ^ 63 ≤ a + b ≤ MaxInt → int_add a b = a + b.
Proof. apply wrap64_small. Qed.

Lemma makeslice_Done {rt : Runtime} elemSize len cap :
  0 ≤ len ≤ cap → elemSize * cap ≤ maxAlloc → makeslice elemSize len cap = Done tt.
Proof.
  intros Hlen Hcap. unfold makeslice. pose proof maxAlloc_uintptr as Hword.
  destruct (Z.ltb_spec len 0) as [|_]; [lia|].
  destruct (Z.ltb_spec cap len) as [|_]; [lia|].
  destruct (Z.leb_spec (2 ^ 64) (elemSize * cap)) as [|_]; [lia|].
  destruct (Z.ltb_spec maxAlloc (elemSize * cap)) as [|_]; [lia | done].
Qed.

Lemma makeslice_Panic {rt : Runtime} elemSize len cap :
  cap < 0 ∨ maxAlloc < elemSize * cap → makeslice elemSize len cap = Panic.
Proof.
  intros Hcap. unfold makeslice.
  destruct (Z.ltb_spec len 0) as [|Hlen]; [done|].
  destruct (Z.ltb_spec cap len) as [|Hle]; [done|].
  destruct (Z.leb_spec (2 ^ 64) (elemSize * cap)) as [|_]; [done|].
  destruct (Z.ltb_spec maxAlloc (elemSize * cap)) as [|Hfit]; [done | lia].
Qed.

Lemma index_Done {A} (l : list A) (i : nat) x :
  l !! i = Some x → index l (Z.of_nat i) = Done x.
Proof.
  intros Hl. unfold index.
  destruct (Z.ltb_spec (Z.of_nat i) 0) as [|_]; [lia|].
  by rewrite Nat2Z.id, Hl.
Qed.

Lemma index_Done_Z {A} (l : list A) (i : Z) x :
  0 ≤ i → l !! Z.to_nat i = Some x → index l i = Done x.
Proof.
  intros Hi Hl. rewrite <- (Z2Nat.id i Hi). by apply index_Done.
Qed.

Lemma index_Done_inv {A} (l : list A) (i : Z) x :
  index l i = Done x → 0 ≤ i < len l ∧ l !! Z.to_nat i = Some x.
Proof.
  unfold index, len. destruct (Z.ltb_spec i 0) as [|Hi]; [done|].
  destruct (l !! Z.to_nat i) as [y|] eqn:Hl; [|done].
  intros [= ->]. apply lookup_lt_Some in Hl as Hlt. split; [lia | done].
Qed.

(** ** [sort.SearchInts] on a sorted slice *)

Lemma Search_spec (l1 l2 : list Z) (x : Z) : ∀ fuel i j,
  Forall (λ v, v < x) l1 → Forall (λ v, x ≤ v) l2 →
  0 ≤ i ≤ len l1 → len l1 ≤ j ≤ len (l1 ++ l2) → j - i ≤ Z.of_nat fuel →
  Search fuel (l1 ++ l2) x i j = len l1.
Proof.
  intros fuel i j H1 H2. revert i j.
  induction fuel as [|fuel IH]; intros i j Hi Hj Hfuel; simpl.
  - lia.
  - destruct (Z.ltb_spec i j) as [Hlt|]; [|lia].
    rewrite Z.shiftr_div_pow2 by lia. change (2 ^ 1) with 2.
    set (h := (i + j) / 2).
    assert (i ≤ h < j) as Hh by (unfold h; split;
      [apply Z.div_le_lower_bound | apply Z.div_lt_upper_bound]; lia).
    unfold len in *. rewrite length_app in Hj.
    destruct (decide (h < Z.of_nat (length l1))) as [Hin|Hin].
    + destruct (lookup_lt_is_Some_2 l1 (Z.to_nat h)) as [v Hv]; [lia|].
      rewrite lookup_app_l, Hv by lia. simpl.
      pose proof (proj1 (Forall_lookup _ _) H1 _ _ Hv) as Hvx. simpl in Hvx.
      destruct (Z.geb_spec v x) as [|_]; [lia|].
      apply IH; rewrite ?length_app; lia.
    + destruct (lookup_lt_is_Some_2 l2 (Z.to_nat h - length l1)) as [v Hv]; [lia|].
      rewrite lookup_app_r, Hv by lia. simpl.
      pose proof (proj1 (Forall_lookup _ _) H2 _ _ Hv) as Hvx. simpl in Hvx.
      destruct (Z.geb_spec v x) as [_|]; [|lia].
      apply IH; rewrite ?length_app; lia.
Qed.

(** More fuel than [j - i] does not change the result, sorted or not. *)
Lemma Search_fuel (a : list Z) (x : Z) : ∀ fuel fuel' i j,
  j - i ≤ Z.of_nat fuel → (fuel ≤ fuel')%nat →
  Search fuel' a x i j = Search fuel a x i j.
Proof.
  induction fuel as [|fuel IH]; intros fuel' i j Hfuel Hle.
  - destruct fuel'; simpl; [done|].
    destruct (Z.ltb_spec i j); [lia | done].
  - destruct fuel' as [|fuel']; [lia|]. simpl.
    destruct (Z.ltb_spec i j) as [Hlt|]; [|done].
    rewrite Z.shiftr_div_pow2 by lia. change (2 ^ 1) with 2.
    assert (i ≤ (i + j) / 2 < j) as Hh by (split;
      [apply Z.div_le_lower_bound | apply Z.div_lt_upper_bound]; lia).
    destruct (_ >=? _); apply IH; lia.
Qed.

Lemma SearchInts_spec (l1 l2 : list Z) (x : Z) :
  Forall (λ v, v < x) l1 → Forall (λ v, x ≤ v) l2 →
  SearchInts (l1 ++ l2) x = len l1.
Proof.
  intros H1 H2. unfold SearchInts.
  apply Search_spec; try done; unfold len; rewrite ?length_app; lia.
Qed.

(** ** The position table of [OptimalAlgorithm] *)

Lemma recordPositions_lookup q : ∀ accs i m,
  default [] (recordPositions i accs m !! q)
  = default [] (m !! q) ++ positionsOf q i accs.
Proof.
  induction accs as [|a rest IH]; intros i m; simpl.
  - by rewrite app_nil_r.
  - rewrite IH. destruct (decide (PageAccess.PageID a = q)) as [->|Hne].
    + rewrite lookup_insert_eq. simpl. by rewrite <- app_assoc.
    + by rewrite lookup_insert_ne.
Qed.

Lemma positionsOf_app q : ∀ l1 l2 start,
  positionsOf q start (l1 ++ l2)
  = positionsOf q start l1 ++ positionsOf q (start + len l1) l2.
Proof.
  unfold len. induction l1 as [|a l1 IH]; intros l2 start; simpl.
  - by rewrite Z.add_0_r.
  - rewrite IH. replace (start + 1 + Z.of_nat (length l1))
      with (start + Z.pos (Pos.of_succ_nat (length l1))) by lia.
    by destruct (decide _).
Qed.

Lemma positionsOf_bounds q : ∀ l start,
  Forall (λ v, start ≤ v < start + len l) (positionsOf q start l).
Proof.
  unfold len. induction l as [|a l IH]; intros start; simpl; [constructor|].
  assert (Forall (λ v, start ≤ v < start + Z.pos (Pos.of_succ_nat (length l)))
            (positionsOf q (start + 1) l)) as Htl.
  { eapply Forall_impl; [apply IH|]. simpl. intros v ?. lia. }
  destruct (decide _); [constructor; [lia | done] | done].
Qed.

Lemma positionsOf_first q : ∀ l start,
  match firstOcc q (pages l) with
  | None => positionsOf q start l = []
  | Some k => ∃ tl, positionsOf q start l = (start + Z.of_nat k) :: tl
  end.
Proof.
  induction l as [|a l IH]; intros start; simpl; [done|].
  destruct (decide (PageAccess.PageID a = q)) as [_|_].
  - exists (positionsOf q (start + 1) l). by rewrite Z.add_0_r.
  - specialize (IH (start + 1)). destruct (firstOcc q (pages l)) as [k|]; simpl; [|done].
    destruct IH as [tl ->]. exists tl. f_equal. lia.
Qed.

Lemma drop_past (pre : list PageAccess.t) a rest :
  drop (S (Z.to_nat (len pre))) (pre ++ a :: rest) = rest.
Proof.
  unfold len. rewrite Nat2Z.id.
  change (S (length pre)) with (1 + length pre)%nat.
  rewrite Nat.add_comm, <- drop_drop, drop_app_length. done.
Qed.

Lemma nextUseAfter_split pre a rest q :
  nextUseAfter (pre ++ a :: rest) (len pre) q
  = (λ k : nat, len pre + 1 + Z.of_nat k) <$> firstOcc q (pages rest).
Proof. unfold nextUseAfter. by rewrite drop_past. Qed.

(** What the victim scan reads for a resident page [q] at access [i]:
    the binary search falls off the end of the position list exactly
    when [q] is not accessed again, and otherwise points at its next use. *)
Lemma lookahead pre a rest q :
  len pre + 1 ≤ MaxInt →
  let positions := default [] (recordPositions 0 (pre ++ a :: rest) ∅ !! q) in
  let nextUsePos := SearchInts positions (int_add (len pre) 1) in
  match nextUseAfter (pre ++ a :: rest) (len pre) q with
  | None => nextUsePos = len positions
  | Some u => nextUsePos ≠ len positions ∧ index positions nextUsePos = Done u
  end.
Proof.
  intros Hmax. cbv zeta.
  rewrite nextUseAfter_split, recordPositions_lookup, lookup_empty. simpl.
  rewrite int_add_small by (unfold len, MaxInt in *; lia).
  replace (pre ++ a :: rest) with ((pre ++ [a]) ++ rest) by (by rewrite <- app_assoc).
  rewrite positionsOf_app. rewrite Z.add_0_l.
  assert (len (pre ++ [a]) = len pre + 1) as Hlen
    by (unfold len; rewrite length_app; simpl; lia).
  rewrite Hlen.
  set (l1 := positionsOf q 0 (pre ++ [a])).
  set (l2 := positionsOf q (len pre + 1) rest).
  assert (Forall (λ v, v < len pre + 1) l1) as H1.
  { eapply Forall_impl; [apply positionsOf_bounds|]. simpl. intros v. rewrite Hlen. lia. }
  assert (Forall (λ v, len pre + 1 ≤ v) l2) as H2.
  { eapply Forall_impl; [apply positionsOf_bounds|]. simpl. intros v. lia. }
  rewrite SearchInts_spec by done.
  pose proof (positionsOf_first q rest (len pre + 1)) as Hfirst. fold l2 in Hfirst.
  destruct (firstOcc q (pages rest)) as [d|]; simpl.
  - destruct Hfirst as [tl Htl]. rewrite Htl. split.
    + unfold len. rewrite length_app. simpl. lia.
    + unfold len at 1. apply index_Done. by rewrite lookup_app_r, Nat.sub_diag by lia.
  - rewrite Hfirst, app_nil_r. done.
Qed.

(** ** The victim scan of the optimal policy *)

Section victim_scan.
Variable positionTable : gmap string (list Z).
Variable i : Z.
(** [nextUse q]: the next position of [q] after [i], if any. *)
Variable nextUse : string → option Z.

Let positions (q : string) : list Z := default [] (positionTable !! q).
Let nextUsePos (q : string) : Z := SearchInts (positions q) (int_add i 1).

Hypothesis table_ok : ∀ q,
  match nextUse q with
  | None => nextUsePos q = len (positions q)
  | Some u => nextUsePos q ≠ len (positions q) ∧ index (positions q) (nextUsePos q) = Done u
  end.

Lemma selectVictim_scan : ∀ fs k0 f0 v0,
  ∃ v, Opt.selectVictim positionTable i fs k0 f0 v0 = Done v
       ∧ scan_result nextUse fs k0 f0 v0 v.
Proof.
  induction fs as [|q fs IH]; intros k0 f0 v0; simpl.
  { exists v0. split; [done|]. right. split; [by intros ? ?%elem_of_nil|].
    left. split; [done|]. by intros ? ? ?%elem_of_nil. }
  pose proof (table_ok q) as Hq. fold (positions q). fold (nextUsePos q).
  destruct (nextUse q) as [u|] eqn:Hu.
  2:{ rewrite Hq, Z.eqb_refl. exists k0. split; [done|]. left.
      exists O, q. repeat split; [done | lia | intros; lia]. }
  destruct Hq as [Hne ->]. destruct (Z.eqb_spec (nextUsePos q) (len (positions q))); [done|].
  simpl. destruct (Z.gtb_spec u f0) as [Hgt|Hle].
  - destruct (IH (k0 + 1) u k0) as (v & -> & Hres). exists v. split; [done|].
    destruct Hres as [(j & q' & Hj & Hnone & -> & Hbefore)|[Hall Hres]].
    + left. exists (S j), q'. repeat split; [done..| lia |].
      intros [|j'] q'' Hlt Hj'; simpl in Hj'; [congruence|]. apply (Hbefore j'); [lia | done].
    + right. split.
      { intros q' [->|Hin]%elem_of_cons; [congruence | by apply Hall]. }
      right. destruct Hres as [[-> Hmax]|(j & q' & u' & Hj & Hu' & -> & Hlt & Hmax & Hbefore)].
      * exists O, q, u. repeat split; [done.. | lia | lia | |].
        -- intros q' u' [->|Hin]%elem_of_cons Hq'; [by simplify_eq | by eapply Hmax].
        -- intros; lia.
      * exists (S j), q', u'. repeat split; [done.. | lia | lia | |].
        -- intros q'' u'' [->|Hin]%elem_of_cons Hq''; [simplify_eq; lia | by eapply Hmax].
        -- intros [|j'] q'' u'' Hlt' Hj' Hq''; simpl in Hj'; [simplify_eq; lia|].
           apply (Hbefore j' q''); [lia | done..].
  - destruct (IH (k0 + 1) f0 v0) as (v & -> & Hres). exists v. split; [done|].
    destruct Hres as [(j & q' & Hj & Hnone & -> & Hbefore)|[Hall Hres]].
    + left. exists (S j), q'. repeat split; [done..| lia |].
      intros [|j'] q'' Hlt Hj'; simpl in Hj'; [congruence|]. apply (Hbefore j'); [lia | done].
    + right. split.
      { intros q' [->|Hin]%elem_of_cons; [congruence | by apply Hall]. }
      destruct Hres as [[-> Hmax]|(j & q' & u' & Hj & Hu' & -> & Hlt & Hmax & Hbefore)].
      * left. split; [done|].
        intros q' u' [->|Hin]%elem_of_cons Hq'; [simplify_eq; lia | by eapply Hmax].
      * right. exists (S j), q', u'. repeat split; [done.. | lia | lia | |].
        -- intros q'' u'' [->|Hin]%elem_of_cons Hq''; [simplify_eq; lia | by eapply Hmax].
        -- intros [|j'] q'' u'' Hlt' Hj' Hq''; simpl in Hj'; [simplify_eq; lia|].
           apply (Hbefore j' q''); [lia | done..].
Qed.

End victim_scan.

(** ** The optimal policy refines the abstract steps *)

Lemma step_hit' F V (p : string) rest (x y : view) :
  p ∈ resident x → y = x → step F V p rest x y.
Proof. intros ? ->. by constructor. Qed.

Lemma step_load' F V (p : string) rest (x y : view) :
  p ∉ resident x → (size (resident x) < F)%nat →
  resident y = resident x ∪ {[p]} → faults y = faults x + 1 →
  loadmap y = bump p (loadmap x) → victims y = victims x →
  step F V p rest x y.
Proof.
  destruct y as [R n m vs]; simpl. intros ? ? -> -> -> ->. by constructor.
Qed.

Lemma step_evict' F V (p : string) rest (x y : view) v :
  p ∉ resident x → (F ≤ size (resident x))%nat → v ∈ resident x →
  V (resident x) rest v →
  resident y = resident x ∖ {[v]} ∪ {[p]} → faults y = faults x + 1 →
  loadmap y = bump p (loadmap x) → victims y = victims x ++ [v] →
  step F V p rest x y.
Proof.
  destruct y as [R n m vs]; simpl. intros ? ? ? ? -> -> -> ->. by constructor.
Qed.

Lemma elem_of_insert_NoDup (l : list string) (j : nat) q p x :
  NoDup l → l !! j = Some q →
  x ∈ <[j := p]> l ↔ x = p ∨ (x ∈ l ∧ x ≠ q).
Proof.
  intros Hnd Hj.
  rewrite insert_take_drop by (by eapply lookup_lt_Some).
  rewrite <- (take_drop_middle l j q Hj) in Hnd at 1.
  rewrite <- (take_drop_middle l j q Hj) at 3.
  apply NoDup_app in Hnd as (_ & Hq1 & [Hq2 _]%NoDup_cons).
  rewrite !elem_of_app, !elem_of_cons.
  split.
  - intros [Hx|[->|Hx]]; [right | by left | right].
    + split; [by left|]. intros ->. by apply (Hq1 q); [|left].
    + split; [by right; right|]. by intros ->.
  - intros [->|[[Hx|[->|Hx]] Hne]]; [by right; left | by left | done | by right; right].
Qed.

Lemma NoDup_insert_fresh (l : list string) (j : nat) p :
  NoDup l → p ∉ l → NoDup (<[j := p]> l).
Proof.
  intros Hnd Hp. destruct (l !! j) as [q|] eqn:Hj.
  - rewrite insert_take_drop by (by eapply lookup_lt_Some).
    rewrite <- (take_drop_middle l j q Hj) in Hnd, Hp.
    apply NoDup_app in Hnd as (Hnd1 & Hq1 & [Hq2 Hnd2]%NoDup_cons).
    apply NoDup_app. split; [done|]. split.
    + intros x Hx [->|Hx2]%elem_of_cons.
      * apply Hp, elem_of_app. by left.
      * apply (Hq1 x Hx). by right.
    + apply NoDup_cons. split; [|done].
      intros Hp2. apply Hp, elem_of_app. right. by right.
  - rewrite list_insert_ge; [done|]. by apply lookup_ge_None.
Qed.

Lemma counters_ok_weaken i pf lc : counters_ok i pf lc → counters_ok (i + 1) pf lc.
Proof. intros [? ?]. split; [lia | done]. Qed.

Lemma counters_ok_fault i pf lc (p : string) :
  i + 1 ≤ MaxInt → counters_ok i pf lc →
  int_add pf 1 = pf + 1 ∧ map_incr p lc = bump p lc ∧
  counters_ok (i + 1) (pf + 1) (bump p lc).
Proof.
  intros Hmax [Hpf Hlc].
  assert (0 ≤ default 0 (lc !! p) ≤ pf) as Hv.
  { destruct (lc !! p) as [v|] eqn:Hp; simpl; [by apply (Hlc p v) | lia]. }
  split; [apply int_add_small; unfold MaxInt in *; lia|].
  split.
  - unfold map_incr, bump. f_equal. apply int_add_small. unfold MaxInt in *. lia.
  - split; [lia|]. unfold bump. apply map_Forall_insert_2; [lia|].
    intros k v Hk. specialize (Hlc k v Hk). simpl in Hlc. lia.
Qed.

Lemma Opt_access_step F pre a rest st :
  1 ≤ F → len (pre ++ a :: rest) ≤ MaxInt → Opt_inv F (len pre) st →
  ∃ st',
    Opt.access F (recordPositions 0 (pre ++ a :: rest) ∅) (len pre)
      (PageAccess.PageID a) st = Done st'
    ∧ Opt_inv F (len pre + 1) st'
    ∧ step (Z.to_nat F) farthest (PageAccess.PageID a) (pages rest)
        (Opt_view st) (Opt_view st').
Proof.
  intros HF Hlen (Hnd & Hmem & Hcap & Hcnt).
  assert (len pre + 1 ≤ MaxInt) as Hi.
  { unfold len in *. rewrite length_app in Hlen. simpl in Hlen. lia. }
  set (p := PageAccess.PageID a). unfold Opt.access.
  destruct (Opt.inMemory st !! p) as [b|] eqn:Hp.
  { exists st. split; [done|]. split.
    - split; [done|]. split; [done|]. split; [done|]. by apply counters_ok_weaken.
    - apply step_hit'; [|done]. simpl. apply elem_of_list_to_set, Hmem. by rewrite Hp. }
  assert (p ∉ Opt.frames st) as Hfresh.
  { intros Hin. apply Hmem in Hin. rewrite Hp in Hin. by destruct Hin. }
  destruct (counters_ok_fault _ _ _ p Hi Hcnt) as (-> & -> & Hcnt').
  assert (size (list_to_set (C := gset string) (Opt.frames st)) = length (Opt.frames st))
    as Hsize by (by apply size_list_to_set).
  destruct (Z.ltb_spec (len (Opt.frames st)) F) as [Hroom|Hfull].
  { eexists. split; [done|]. split.
    - split; [|split; [|split]]; simpl.
      + apply NoDup_app. split; [done|]. split; [|apply NoDup_singleton].
        intros x Hx ->%list_elem_of_singleton. done.
      + intros q. rewrite elem_of_app, list_elem_of_singleton, <- Hmem.
        destruct (decide (p = q)) as [->|Hne].
        * rewrite lookup_insert_eq. split; [by right | by eexists].
        * rewrite lookup_insert_ne by done. split; [by left | intros [?| ->]; done].
      + unfold len in *. rewrite length_app. simpl. lia.
      + done.
    - apply step_load'; simpl; try done.
      + by rewrite elem_of_list_to_set.
      + rewrite Hsize. unfold len in *. lia.
      + rewrite list_to_set_app_L. simpl. by rewrite union_empty_r_L. }
  (* the memory is full: look for a victim *)
  assert (Z.of_nat (length (Opt.frames st)) = F) as Hlenf by (unfold len in *; lia).
  destruct (selectVictim_scan (recordPositions 0 (pre ++ a :: rest) ∅) (len pre)
              (nextUseAfter (pre ++ a :: rest) (len pre))
              (λ q, lookahead pre a rest q Hi) (Opt.frames st) 0 (-1) (-1))
    as (v & -> & Hres). simpl.
  assert (∃ (j : nat) q, v = Z.of_nat j ∧ Opt.frames st !! j = Some q ∧
            farthest (list_to_set (Opt.frames st)) (pages rest) q)
    as (j & q & -> & Hj & Hfar).
  { destruct Hres as [(j & q & Hj & Hnone & -> & _)|[Hall Hres]].
    - exists j, q. split; [lia|]. split; [done|]. intros q' _.
      rewrite nextUseAfter_split, fmap_None in Hnone.
      unfold noLater. by rewrite Hnone.
    - destruct Hres as [[_ Hmax]|(j & q & u & Hj & Hu & -> & _ & Hmax & _)].
      + exfalso. destruct (Opt.frames st) as [|q0 fs] eqn:Hfs; [simpl in Hlenf; lia|].
        specialize (Hall q0 (list_elem_of_here _ _)).
        destruct (nextUseAfter (pre ++ a :: rest) (len pre) q0) as [u|] eqn:Hu; [|done].
        specialize (Hmax q0 u (list_elem_of_here _ _) Hu).
        rewrite nextUseAfter_split in Hu.
        destruct (firstOcc q0 (pages rest)); simplify_eq/=. unfold len in *. lia.
      + exists j, q. split; [lia|]. split; [done|]. intros q' Hq'%elem_of_list_to_set.
        specialize (Hall q' Hq').
        destruct (nextUseAfter (pre ++ a :: rest) (len pre) q') as [u'|] eqn:Hu'; [|done].
        specialize (Hmax q' u' Hq' Hu').
        rewrite nextUseAfter_split in Hu, Hu'. unfold noLater.
        destruct (firstOcc q (pages rest)), (firstOcc q' (pages rest)); simplify_eq/=. lia. }
  rewrite (index_Done _ _ _ Hj). simpl. rewrite Nat2Z.id.
  eexists. split; [done|]. split.
  - split; [|split; [|split]]; simpl.
    + by apply NoDup_insert_fresh.
    + intros x. rewrite (elem_of_insert_NoDup _ _ q) by done. rewrite <- Hmem.
      destruct (decide (p = x)) as [->|Hne].
      * rewrite lookup_insert_eq. split; [by left | by eexists].
      * rewrite lookup_insert_ne by done. destruct (decide (q = x)) as [->|Hne'].
        -- rewrite lookup_delete_eq. split; [by intros [? ?] | intros [?|[_ ?]]; done].
        -- rewrite lookup_delete_ne by done. split; [by right | intros [?|[? _]]; done].
    + unfold len. rewrite length_insert. done.
    + done.
  - apply step_evict' with q; simpl; try done.
    + by rewrite elem_of_list_to_set.
    + rewrite Hsize. lia.
    + rewrite elem_of_list_to_set. by eapply list_elem_of_lookup_2.
    + apply set_eq. intros x.
      rewrite elem_of_list_to_set, (elem_of_insert_NoDup _ _ q) by done.
      rewrite elem_of_union, elem_of_difference, elem_of_list_to_set, !elem_of_singleton.
      tauto.
Qed.

Lemma Opt_loop_steps F : ∀ rest pre st,
  1 ≤ F → len (pre ++ rest) ≤ MaxInt → Opt_inv F (len pre) st →
  ∃ st',
    Opt.loop F (recordPositions 0 (pre ++ rest) ∅) (len pre) rest st = Done st'
    ∧ Opt_inv F (len (pre ++ rest)) st'
    ∧ steps (Z.to_nat F) farthest (pages rest) (Opt_view st) (Opt_view st').
Proof.
  induction rest as [|a rest IH]; intros pre st HF Hlen Hinv; simpl.
  - exists st. rewrite app_nil_r. split; [done|]. split; [done | constructor].
  - destruct (Opt_access_step F pre a rest st HF Hlen Hinv) as (st1 & -> & Hinv1 & Hstep).
    simpl. assert (len (pre ++ [a]) = len pre + 1) as Hlen1
      by (unfold len; rewrite length_app; simpl; lia).
    assert ((pre ++ [a]) ++ rest = pre ++ a :: rest) as Happ by (by rewrite <- app_assoc).
    destruct (IH (pre ++ [a]) st1 HF) as (st2 & Hloop & Hinv2 & Hsteps).
    + by rewrite Happ.
    + by rewrite Hlen1.
    + rewrite Happ, Hlen1 in Hloop. rewrite Happ in Hinv2.
      exists st2. split; [done|]. split; [done|]. by econstructor.
Qed.

Lemma Opt_run_steps {rt : Runtime} s :
  1 ≤ totalFrames s → sizeofString * totalFrames s ≤ maxAlloc → go_values s →
  ∃ st, Opt.run s = Done st
        ∧ Opt_inv (totalFrames s) (len (accesses s)) st
        ∧ steps (Z.to_nat (totalFrames s)) farthest (pages (accesses s))
            view0 (Opt_view st).
Proof.
  intros HF Hfit [_ Hlen]. unfold Opt.run.
  rewrite makeslice_Done by (done || lia). cbn [mbind outcome_bind].
  apply (Opt_loop_steps (totalFrames s) (accesses s) [] Opt.init); [done..|].
  split; [constructor|]. split.
  - intros q. simpl. rewrite lookup_empty, elem_of_nil. split; [by intros [? ?] | done].
  - split; [simpl; unfold len; simpl; lia|]. split; simpl; [unfold len; simpl; lia|].
    apply map_Forall_empty.
Qed.

(** ** The clock scan *)

Lemma mod_wrap_lo F x : - F ≤ x < 0 → x mod F = x + F.
Proof. intros Hx. symmetry. apply (Z.mod_unique x F (-1)); lia. Qed.

Lemma mod_wrap_hi F x : F ≤ x < 2 * F → x mod F = x - F.
Proof. intros Hx. symmetry. apply (Z.mod_unique x F 1); lia. Qed.

Lemma mod_wrap_2 F x : 2 * F ≤ x < 3 * F → x mod F = x - 2 * F.
Proof. intros Hx. symmetry. apply (Z.mod_unique x F 2); lia. Qed.

Ltac mod_cases F x :=
  destruct (Z_lt_dec x 0);
    [ try (rewrite (mod_wrap_lo F x) in * by lia)
    | destruct (Z_lt_dec x F);
      [ try (rewrite (Z.mod_small x F) in * by lia)
      | destruct (Z_lt_dec x (2 * F));
        [ try (rewrite (mod_wrap_hi F x) in * by lia)
        | try (rewrite (mod_wrap_2 F x) in * by lia) ] ] ].

Lemma next_pointer F cp :
  1 ≤ F ≤ MaxInt → 0 ≤ cp < F →
  Clock.int_rem (int_add cp 1) F = Done ((cp + 1) mod F).
Proof.
  intros HF Hcp. unfold Clock.int_rem.
  destruct (Z.eqb_spec F 0) as [|_]; [lia|].
  rewrite int_add_small by (unfold MaxInt in *; lia).
  by rewrite Z.rem_mod_nonneg by lia.
Qed.

Lemma deref_Done (frames : list (option PageFrame.t)) (j : Z) fr :
  0 ≤ j → frames !! Z.to_nat j = Some (Some fr) → Clock.deref frames j = Done fr.
Proof.
  intros Hj Hfr. unfold Clock.deref. by rewrite (index_Done_Z _ _ _ Hj Hfr).
Qed.

Lemma frame_lookup (frames : list (option PageFrame.t)) F j :
  length frames = Z.to_nat F → Forall is_Some frames → 0 ≤ j < F →
  ∃ fr, frames !! Z.to_nat j = Some (Some fr).
Proof.
  intros Hlen Hall Hj.
  destruct (lookup_lt_is_Some_2 frames (Z.to_nat j)) as [o Ho]; [lia|].
  destruct (proj1 (Forall_lookup _ _) Hall _ _ Ho) as [fr ->]. by exists fr.
Qed.

Lemma referencedAt_insert_ne frames (j x : Z) o :
  0 ≤ j → 0 ≤ x → x ≠ j → referencedAt (<[Z.to_nat j := o]> frames) x = referencedAt frames x.
Proof.
  intros Hj Hx Hne. unfold referencedAt. by rewrite list_lookup_insert_ne by lia.
Qed.

Lemma scan_spec F p ptf : ∀ (k : nat) frames cp visited,
  1 ≤ F ≤ MaxInt → length frames = Z.to_nat F → Forall is_Some frames → 0 ≤ cp < F →
  Z.of_nat k ≤ F →
  (∀ m, 0 ≤ m < Z.of_nat k → referencedAt frames ((cp + m) mod F) = true) →
  (Z.of_nat k < F → referencedAt frames ((cp + Z.of_nat k) mod F) = false) →
  let v := (cp + Z.of_nat k) mod F in
  ∃ fr frames',
    frames !! Z.to_nat v = Some (Some fr) ∧
    (∀ fuel, (k < fuel)%nat →
       Clock.scan fuel F p frames ptf cp visited
       = Done (frames', <[p := v]> (delete (PageFrame.PageID fr) ptf), (v + 1) mod F,
               PageFrame.PageID fr, visited + Z.of_nat k + 1)) ∧
    length frames' = length frames ∧
    ∀ j, 0 ≤ j < F → frames' !! Z.to_nat j = afterScan F cp (Z.of_nat k) v p frames j.
Proof.
  induction k as [|k IH]; intros frames cp visited HF Hlen Hall Hcp Hk Href Hstop v;
    destruct (frame_lookup frames F cp Hlen Hall Hcp) as [fr0 Hfr0].
  - (* the frame under the hand is not referenced *)
    assert (v = cp) as -> by (unfold v; rewrite Z.add_0_r; apply Z.mod_small; lia).
    assert (PageFrame.Referenced fr0 = false) as Hr0.
    { specialize (Hstop ltac:(lia)). rewrite Z.add_0_r, Z.mod_small in Hstop by lia.
      unfold referencedAt in Hstop. by rewrite Hfr0 in Hstop. }
    exists fr0, (<[Z.to_nat cp := Some (Clock.fresh p)]> frames).
    split; [done|]. split.
    { intros [|fuel] Hfuel; [lia|]. simpl Clock.scan.
      rewrite (deref_Done _ _ _ (proj1 Hcp) Hfr0). simpl. rewrite Hr0. simpl.
      rewrite next_pointer by done. simpl. by rewrite Z.add_0_r. }
    split; [by rewrite length_insert|].
    intros j Hj. unfold afterScan. destruct (decide (j = cp)) as [->|Hne].
    + rewrite list_lookup_insert_eq by lia. done.
    + rewrite list_lookup_insert_ne by lia.
      destruct (decide _) as [Hlt|_]; [|done].
      pose proof (Z.mod_pos_bound (j - cp) F). lia.
  - (* second chance for the frame under the hand *)
    assert (PageFrame.Referenced fr0 = true) as Hr0.
    { specialize (Href 0 ltac:(lia)). rewrite Z.add_0_r, Z.mod_small in Href by lia.
      unfold referencedAt in Href. by rewrite Hfr0 in Href. }
    set (frames1 := <[Z.to_nat cp := Some (Clock.setReferenced false fr0)]> frames).
    set (cp1 := (cp + 1) mod F).
    assert (0 ≤ cp1 < F) as Hcp1 by (apply Z.mod_pos_bound; lia).
    assert (∀ m, (cp1 + m) mod F = (cp + (m + 1)) mod F) as Hshift.
    { intros m. unfold cp1. rewrite Zplus_mod_idemp_l. f_equal. lia. }
    assert (v = (cp1 + Z.of_nat k) mod F) as Hv.
    { unfold v. rewrite Hshift. f_equal. lia. }
    destruct (IH frames1 cp1 (visited + 1)) as (fr & frames' & Hfr & Hscan & Hlen' & Hpt);
      [done | by unfold frames1; rewrite length_insert
      | by apply Forall_insert | done | lia | | |].
    { intros m Hm. rewrite Hshift. unfold frames1.
      rewrite referencedAt_insert_ne; [apply Href; lia | lia | |].
      - pose proof (Z.mod_pos_bound (cp + (m + 1)) F). lia.
      - mod_cases F (cp + (m + 1)); lia. }
    { intros Hk'. rewrite <- Hv. unfold frames1.
      destruct (decide (Z.of_nat (S k) < F)) as [Hlt|Hge].
      - rewrite referencedAt_insert_ne; [by apply Hstop | lia | |].
        + pose proof (Z.mod_pos_bound (cp + Z.of_nat (S k)) F). unfold v. lia.
        + unfold v. mod_cases F (cp + Z.of_nat (S k)); lia.
      - assert (v = cp) as -> by (unfold v; mod_cases F (cp + Z.of_nat (S k)); lia).
        unfold referencedAt. rewrite list_lookup_insert_eq by lia. done. }
    rewrite <- Hv in Hfr, Hscan, Hpt.
    assert (∃ fr', frames !! Z.to_nat v = Some (Some fr') ∧
                   PageFrame.PageID fr' = PageFrame.PageID fr) as (fr' & Hfr' & Hid).
    { unfold frames1 in Hfr. destruct (decide (v = cp)) as [Heq|Hne].
      - rewrite Heq in Hfr |- *. rewrite list_lookup_insert_eq in Hfr by lia.
        exists fr0. split; [done|]. by simplify_eq.
      - rewrite list_lookup_insert_ne in Hfr; [by exists fr|].
        pose proof (Z.mod_pos_bound (cp + Z.of_nat (S k)) F). unfold v in *. lia. }
    exists fr', frames'. split; [done|]. split.
    { intros [|fuel] Hfuel; [lia|]. simpl Clock.scan.
      rewrite (deref_Done _ _ _ (proj1 Hcp) Hfr0). simpl. rewrite Hr0. simpl.
      rewrite next_pointer by done. simpl.
      fold frames1. fold cp1. rewrite Hscan by lia. rewrite Hid. do 3 f_equal. lia. }
    split; [by rewrite Hlen'; unfold frames1; rewrite length_insert|].
    intros j Hj. rewrite (Hpt j Hj). unfold afterScan.
    destruct (decide (j = v)) as [|Hjv]; [done|].
    destruct (decide (j = cp)) as [->|Hjcp].
    + unfold frames1. rewrite list_lookup_insert_eq by lia. rewrite Hfr0.
      rewrite Z.sub_diag, Z.mod_0_l by lia.
      destruct (decide (0 < Z.of_nat (S k))) as [_|]; [|lia].
      destruct (decide _) as [Hlt|_]; [|done].
      exfalso. unfold cp1 in Hlt. rewrite Zminus_mod_idemp_r in Hlt.
      mod_cases F (cp - (cp + 1)); lia.
    + unfold frames1. rewrite list_lookup_insert_ne by lia.
      assert ((j - cp1) mod F = (j - cp) mod F - 1) as ->.
      { unfold cp1. rewrite Zminus_mod_idemp_r.
        mod_cases F (j - cp); mod_cases F (j - (cp + 1)); lia. }
      destruct (decide _), (decide _); try done; lia.
Qed.

Lemma first_unreferenced frames F cp : ∀ n : nat,
  (∀ m, 0 ≤ m < Z.of_nat n → referencedAt frames ((cp + m) mod F) = true)
  ∨ ∃ k : nat, (k < n)%nat ∧ referencedAt frames ((cp + Z.of_nat k) mod F) = false ∧
               ∀ m, 0 ≤ m < Z.of_nat k → referencedAt frames ((cp + m) mod F) = true.
Proof.
  induction n as [|n [IH|(k & Hk & Hstop & Href)]].
  - left. intros m Hm. lia.
  - destruct (referencedAt frames ((cp + Z.of_nat n) mod F)) eqn:Hn.
    + left. intros m Hm. destruct (decide (m = Z.of_nat n)) as [->|]; [done|].
      apply IH. lia.
    + right. exists n. split; [lia|]. done.
  - right. exists k. split; [lia|]. done.
Qed.

(** From any state without empty frame the scan stops after going past
    [k ≤ totalFrames] referenced frames, whatever fuel above [k] it is given. *)
Lemma scan_total F p ptf frames cp visited :
  1 ≤ F ≤ MaxInt → length frames = Z.to_nat F → Forall is_Some frames → 0 ≤ cp < F →
  ∃ (k : nat) fr frames',
    Z.of_nat k ≤ F ∧
    (∀ m, 0 ≤ m < Z.of_nat k → referencedAt frames ((cp + m) mod F) = true) ∧
    (Z.of_nat k < F → referencedAt frames ((cp + Z.of_nat k) mod F) = false) ∧
    let v := (cp + Z.of_nat k) mod F in
    frames !! Z.to_nat v = Some (Some fr) ∧
    (∀ fuel, (k < fuel)%nat →
       Clock.scan fuel F p frames ptf cp visited
       = Done (frames', <[p := v]> (delete (PageFrame.PageID fr) ptf), (v + 1) mod F,
               PageFrame.PageID fr, visited + Z.of_nat k + 1)) ∧
    length frames' = length frames ∧
    ∀ j, 0 ≤ j < F → frames' !! Z.to_nat j = afterScan F cp (Z.of_nat k) v p frames j.
Proof.
  intros HF Hlen Hall Hcp.
  assert (∃ k : nat, Z.of_nat k ≤ F ∧
            (∀ m, 0 ≤ m < Z.of_nat k → referencedAt frames ((cp + m) mod F) = true) ∧
            (Z.of_nat k < F → referencedAt frames ((cp + Z.of_nat k) mod F) = false))
    as (k & Hk & Href & Hstop).
  { destruct (first_unreferenced frames F cp (Z.to_nat F)) as [Href|(k & Hk & Hstop & Href)].
    - exists (Z.to_nat F). split; [lia|]. split; [done | lia].
    - exists k. split; [lia|]. done. }
  destruct (scan_spec F p ptf k frames cp visited) as (fr & frames' & Hres); [done..|].
  exists k, fr, frames'. done.
Qed.

(** ** The search for an empty frame *)

Lemma findEmpty_spec frames : ∀ (n : nat) (j : Z),
  0 ≤ j → (Z.to_nat j + n = length frames)%nat → len frames ≤ MaxInt →
  ∃ e, Clock.findEmpty n frames j = Done e ∧
    ((e = -1 ∧ ∀ k : nat, (Z.to_nat j ≤ k < length frames)%nat → is_Some (pageAt frames k))
     ∨ (j ≤ e < len frames ∧ frames !! Z.to_nat e = Some None ∧
        ∀ k : nat, (Z.to_nat j ≤ k < Z.to_nat e)%nat → is_Some (pageAt frames k))).
Proof.
  unfold len. induction n as [|n IH]; intros j Hj Hn Hmax; simpl.
  - exists (-1). split; [done|]. left. split; [done|]. intros k Hk. lia.
  - destruct (lookup_lt_is_Some_2 frames (Z.to_nat j)) as [o Ho]; [lia|].
    rewrite (index_Done_Z _ _ _ Hj Ho). simpl.
    destruct o as [fr|].
    + rewrite int_add_small by (unfold MaxInt in *; lia).
      destruct (IH (j + 1)) as (e & -> & He); [lia | lia | done |].
      exists e. split; [done|].
      assert (∀ k : nat, k = Z.to_nat j → is_Some (pageAt frames k)) as Hhere.
      { intros k ->. unfold pageAt. rewrite Ho. by eexists. }
      destruct He as [[-> He]|(Hrange & Hnil & He)].
      * left. split; [done|]. intros k Hk.
        destruct (decide (k = Z.to_nat j)); [by apply Hhere | apply He; lia].
      * right. split; [lia|]. split; [done|]. intros k Hk.
        destruct (decide (k = Z.to_nat j)); [by apply Hhere | apply He; lia].
    + exists j. split; [done|]. right. split; [lia|]. split; [done|]. intros k Hk. lia.
Qed.

(** ** The clock policy refines the abstract steps *)

Lemma pageAt_insert_same frames (j : nat) fr fr' (k : nat) :
  frames !! j = Some (Some fr) → PageFrame.PageID fr' = PageFrame.PageID fr →
  pageAt (<[j := Some fr']> frames) k = pageAt frames k.
Proof.
  intros Hj Hid. unfold pageAt. destruct (decide (k = j)) as [->|Hne].
  - rewrite list_lookup_insert_eq by (by eapply lookup_lt_Some). by rewrite Hj, Hid.
  - by rewrite list_lookup_insert_ne.
Qed.

Lemma pageAt_insert frames (j : nat) fr (k : nat) :
  (j < length frames)%nat →
  pageAt (<[j := Some fr]> frames) k
  = if decide (k = j) then Some (PageFrame.PageID fr) else pageAt frames k.
Proof.
  intros Hj. unfold pageAt. destruct (decide (k = j)) as [->|Hne].
  - by rewrite list_lookup_insert_eq.
  - by rewrite list_lookup_insert_ne.
Qed.

(** Installing [p] in frame [v]: the table stays in agreement. *)
Lemma table_agrees_install ptf ptf0 frames frames' (p : string) (v : Z) :
  table_agrees ptf frames → ptf !! p = None → 0 ≤ v →
  (∀ k : nat, pageAt frames' k
              = if decide (k = Z.to_nat v) then Some p else pageAt frames k) →
  (∀ q, q ≠ p → ptf0 !! q = if decide (pageAt frames (Z.to_nat v) = Some q)
                            then None else ptf !! q) →
  table_agrees (<[p := v]> ptf0) frames'.
Proof.
  intros Hagree Hp Hv Hframes Hptf0 q j.
  rewrite Hframes. destruct (decide (q = p)) as [->|Hqp].
  - rewrite lookup_insert_eq. split.
    + intros [= <-]. split; [done|]. by rewrite decide_True.
    + intros [Hj Hpage]. destruct (decide (Z.to_nat j = Z.to_nat v)) as [Heq|_].
      * f_equal. lia.
      * assert (ptf !! p = Some j) by (by apply Hagree). congruence.
  - rewrite lookup_insert_ne by done. rewrite (Hptf0 q Hqp).
    destruct (decide (pageAt frames (Z.to_nat v) = Some q)) as [Hold|Hold].
    + split; [done|]. intros [Hj Hpage].
      destruct (decide (Z.to_nat j = Z.to_nat v)) as [Heq|Hne]; [congruence|].
      assert (ptf !! q = Some j) as H1 by (by apply Hagree).
      assert (ptf !! q = Some v) as H2 by (by apply Hagree).
      rewrite H1 in H2. simplify_eq.
    + rewrite (Hagree q j). split.
      * intros [Hj Hpage]. split; [done|].
        destruct (decide (Z.to_nat j = Z.to_nat v)) as [Heq|Hne]; [|done].
        rewrite Heq in Hpage. done.
      * intros [Hj Hpage]. split; [done|].
        destruct (decide (Z.to_nat j = Z.to_nat v)) as [Heq|Hne]; [congruence | done].
Qed.

Lemma Clock_access_step F i (p : string) rest st :
  1 ≤ F ≤ MaxInt → i + 1 ≤ MaxInt → Clock_inv F i st →
  ∃ st',
    Clock.access F p st = Done st'
    ∧ Clock_inv F (i + 1) st'
    ∧ step (Z.to_nat F) anyVictim p rest (Clock_view st) (Clock_view st').
Proof.
  intros HF Hi (Hlen & Hcp & Hagree & Hsz & Hfill & Hcnt).
  unfold Clock.access.
  destruct (Clock.pageToFrame st !! p) as [j|] eqn:Hp.
  { (* hit *)
    destruct (proj1 (Hagree p j) Hp) as [Hj Hpage].
    unfold pageAt in Hpage.
    destruct (Clock.frames st !! Z.to_nat j) as [[fr|]|] eqn:Hfr; simplify_eq.
    rewrite (deref_Done _ _ _ Hj Hfr). simpl. eexists. split; [done|].
    assert (∀ k, pageAt (<[Z.to_nat j := Some (Clock.setReferenced true fr)]>
                           (Clock.frames st)) k = pageAt (Clock.frames st) k) as Hsame
      by (intros k; by eapply pageAt_insert_same).
    split.
    - split; [by simpl; rewrite length_insert|]. split; [done|]. split.
      { intros q j'. simpl. rewrite Hsame. apply Hagree. }
      split; [by simpl; rewrite length_insert|]. split.
      { simpl. intros k. rewrite length_insert, Hsame. apply Hfill. }
      by apply counters_ok_weaken.
    - apply step_hit'; [|done]. simpl. apply elem_of_dom. by rewrite Hp. }
  (* fault *)
  assert (p ∉ dom (Clock.pageToFrame st)) as Hfresh by (by apply not_elem_of_dom).
  destruct (counters_ok_fault _ _ _ p Hi Hcnt) as (-> & -> & Hcnt').
  assert (size (dom (Clock.pageToFrame st)) = size (Clock.pageToFrame st)) as Hdom
    by apply size_dom.
  destruct (findEmpty_spec (Clock.frames st) (Z.to_nat F) 0) as (e & -> & He);
    [lia | lia | unfold len; lia |].
  cbn [mbind outcome_bind].
  destruct He as [[-> Hocc]|(Hrange & Hnil & Hocc)].
  - (* no empty frame: the clock scan *)
    change (negb (-1 =? -1)) with false. cbv iota.
    assert (Forall is_Some (Clock.frames st)) as Hall.
    { apply Forall_lookup. intros k o Ho.
      destruct (Hocc k) as [q Hq]; [apply lookup_lt_Some in Ho; lia|].
      unfold pageAt in Hq. rewrite Ho in Hq. destruct o; [by eexists | done]. }
    assert (size (Clock.pageToFrame st) = length (Clock.frames st)) as Hfull.
    { apply Nat.le_antisymm; [done|].
      destruct (decide (length (Clock.frames st) ≤ size (Clock.pageToFrame st))%nat)
        as [|Hlt]; [done|].
      assert (size (Clock.pageToFrame st) < length (Clock.frames st))%nat as Hk by lia.
      assert (Z.to_nat 0 ≤ size (Clock.pageToFrame st) < length (Clock.frames st))%nat
        as Hk' by lia.
      pose proof (proj1 (Hfill _ Hk) (Hocc _ Hk')). lia. }
    destruct (scan_total F p (Clock.pageToFrame st)
                (Clock.frames st) (Clock.clockPointer st) 0)
      as (k & fr & frames' & Hk & _ & _ & Hfr & Hscan & Hlen' & Hpt); [done..|].
    rewrite Hscan by (unfold Clock.scanFuel; lia). simpl.
    set (v := (Clock.clockPointer st + Z.of_nat k) mod F) in *.
    assert (0 ≤ v < F) as Hv by (apply Z.mod_pos_bound; lia).
    clearbody v.
    set (old := PageFrame.PageID fr).
    assert (pageAt (Clock.frames st) (Z.to_nat v) = Some old) as Hold
      by (unfold pageAt; by rewrite Hfr).
    assert (Clock.pageToFrame st !! old = Some v) as Holdptf
      by (apply Hagree; split; [lia | done]).
    assert (∀ n : nat, pageAt frames' n
              = if decide (n = Z.to_nat v) then Some p else pageAt (Clock.frames st) n)
      as Hpage.
    { intros n. destruct (decide (n < length (Clock.frames st))%nat) as [Hn|Hn].
      - unfold pageAt at 1. rewrite <- (Nat2Z.id n), (Hpt (Z.of_nat n)) by lia.
        unfold afterScan. destruct (decide (Z.of_nat n = v)) as [Heq|Hne].
        + rewrite decide_True by lia. done.
        + rewrite (decide_False (P := Z.to_nat (Z.of_nat n) = Z.to_nat v)) by lia.
          rewrite Nat2Z.id. unfold pageAt.
          destruct (decide _); [|done].
          by destruct (Clock.frames st !! n) as [[?|]|].
      - rewrite decide_False by lia. unfold pageAt.
        rewrite !(proj2 (lookup_ge_None _ _)) by lia. done. }
    assert (size (<[p := v]> (delete old (Clock.pageToFrame st)))
            = size (Clock.pageToFrame st)) as Hsize'.
    { rewrite map_size_insert_None by (rewrite lookup_delete_ne; [done | congruence]).
      rewrite map_size_delete_Some by (by eexists). lia. }
    eexists. split; [done|]. split.
    + split; [simpl; lia|]. split; [simpl; apply Z.mod_pos_bound; lia|]. split.
      { simpl. eapply table_agrees_install; [done.. | lia | done |].
        intros q Hq. rewrite Hold. destruct (decide (Some old = Some q)) as [[= ->]|Hne].
        - by rewrite lookup_delete_eq.
        - rewrite lookup_delete_ne; [done | congruence]. }
      split; [simpl; lia|]. split; [|done].
      simpl. intros n Hn. rewrite Hsize', Hpage, Hfull. split; [lia|]. intros _.
      destruct (decide _); [by eexists | apply Hocc; lia].
    + apply step_evict' with old; simpl; try done.
      * lia.
      * apply elem_of_dom. by eexists.
      * rewrite dom_insert_L, dom_delete_L. set_solver.
  - (* an empty frame *)
    destruct (Z.eqb_spec e (-1)) as [|_]; [lia|]. cbn [negb].
    rewrite (index_Done_Z _ _ _ (proj1 Hrange) Hnil). simpl.
    unfold len in Hrange.
    assert (pageAt (Clock.frames st) (Z.to_nat e) = None) as Hnone
      by (unfold pageAt; by rewrite Hnil).
    assert (Z.to_nat e = size (Clock.pageToFrame st)) as Hsize.
    { apply Nat.le_antisymm.
      - destruct (decide (Z.to_nat e ≤ size (Clock.pageToFrame st))%nat) as [|Hgt]; [done|].
        assert (size (Clock.pageToFrame st) < length (Clock.frames st))%nat as Hk by lia.
        assert (Z.to_nat 0 ≤ size (Clock.pageToFrame st) < Z.to_nat e)%nat as Hk' by lia.
        pose proof (proj1 (Hfill _ Hk) (Hocc _ Hk')). lia.
      - destruct (decide (size (Clock.pageToFrame st) ≤ Z.to_nat e)%nat) as [|Hlt]; [done|].
        assert (Z.to_nat e < length (Clock.frames st))%nat as Hk by lia.
        assert (Z.to_nat e < size (Clock.pageToFrame st))%nat as Hk' by lia.
        destruct (proj2 (Hfill _ Hk) Hk') as [? ?]. congruence. }
    assert (∀ n : nat, pageAt (<[Z.to_nat e := Some (Clock.fresh p)]> (Clock.frames st)) n
              = if decide (n = Z.to_nat e) then Some p else pageAt (Clock.frames st) n)
      as Hpage by (intros n; rewrite pageAt_insert by lia; done).
    eexists. split; [done|]. split.
    + split; [by simpl; rewrite length_insert|]. split; [done|]. split.
      { simpl. eapply table_agrees_install; [done.. | lia | done |].
        intros q Hq. rewrite Hnone. by rewrite decide_False. }
      simpl. rewrite length_insert, map_size_insert_None by done.
      split; [lia|]. split; [|done].
      intros n Hn. rewrite Hpage. destruct (decide (n = Z.to_nat e)) as [->|Hne].
      * split; [lia | by eexists].
      * rewrite (Hfill n Hn). lia.
    + apply step_load'; simpl; try done.
      * lia.
      * rewrite dom_insert_L. set_solver.
Qed.

Lemma Clock_loop_steps F : ∀ rest i st,
  1 ≤ F ≤ MaxInt → i + len rest ≤ MaxInt → Clock_inv F i st →
  ∃ st',
    Clock.loop F rest st = Done st'
    ∧ Clock_inv F (i + len rest) st'
    ∧ steps (Z.to_nat F) anyVictim (pages rest) (Clock_view st) (Clock_view st').
Proof.
  unfold len. induction rest as [|a rest IH]; intros i st HF Hlen Hinv; simpl.
  - exists st. rewrite Z.add_0_r. split; [done|]. split; [done | constructor].
  - simpl in Hlen.
    destruct (Clock_access_step F i (PageAccess.PageID a) (pages rest) st)
      as (st1 & -> & Hinv1 & Hstep); [done | lia | done |].
    simpl. destruct (IH (i + 1) st1) as (st2 & -> & Hinv2 & Hsteps); [done | lia | done |].
    exists st2. split; [done|]. split; [|by econstructor].
    by replace (i + Z.of_nat (S (length rest)))
      with (i + 1 + Z.of_nat (length rest)) by lia.
Qed.

Lemma Clock_init_inv F : 1 ≤ F → Clock_inv F 0 (Clock.init F).
Proof.
  intros HF. unfold Clock.init.
  assert (∀ j, pageAt (replicate (Z.to_nat F) None) j = None) as Hnone.
  { intros j. unfold pageAt.
    destruct (replicate (Z.to_nat F) None !! j) as [o|] eqn:Ho; [|done].
    by apply lookup_replicate in Ho as [-> _]. }
  split; [simpl; apply length_replicate|]. split; [simpl; lia|]. split.
  { intros q j. simpl. rewrite lookup_empty, Hnone. split; [done | by intros [_ ?]]. }
  simpl. rewrite map_size_empty. split; [lia|]. split.
  { intros j _. rewrite Hnone. split; [by intros [? ?] | lia]. }
  split; [lia | apply map_Forall_empty].
Qed.

Lemma Clock_run_steps {rt : Runtime} s :
  1 ≤ totalFrames s → sizeofPointer * totalFrames s ≤ maxAlloc → go_values s →
  ∃ st, Clock.run s = Done st
        ∧ Clock_inv (totalFrames s) (len (accesses s)) st
        ∧ steps (Z.to_nat (totalFrames s)) anyVictim (pages (accesses s))
            view0 (Clock_view st).
Proof.
  intros HF Hfit [[_ Hmax] Hlen]. unfold Clock.run.
  rewrite makeslice_Done by (done || lia). cbn [mbind outcome_bind].
  destruct (Clock_loop_steps (totalFrames s) (accesses s) 0 (Clock.init (totalFrames s)))
    as (st & Hloop & Hinv & Hsteps); [lia | lia | by apply Clock_init_inv |].
  exists st. split; [done|]. split; [done|].
  replace view0 with (Clock_view (Clock.init (totalFrames s))); [done|].
  unfold Clock_view, view0. simpl. by rewrite dom_empty_L.
Qed.

(** ** Consequences for any policy run *)

Section run_facts.
Context {P : Type} `{Countable P}.
Implicit Types (x y : view (P := P)) (t : list P).

Lemma total_insert (m : gmap P Z) p v :
  m !! p = None → total (<[p := v]> m) = v + total m.
Proof.
  intros Hp. unfold total. rewrite map_fold_insert_L; [done | | done].
  intros. lia.
Qed.

Lemma total_bump (m : gmap P Z) p : total (bump p m) = total m + 1.
Proof.
  unfold bump. destruct (m !! p) as [v|] eqn:Hp; simpl.
  - rewrite <- (insert_delete_id m p v Hp) at 2.
    rewrite <- insert_delete_eq.
    rewrite !total_insert by apply lookup_delete_eq. lia.
  - rewrite total_insert by done. lia.
Qed.

(** The fault counter moves exactly as the sum of the load counters. *)
Lemma steps_total F V t x y :
  steps F V t x y → faults y - faults x = total (loadmap y) - total (loadmap x).
Proof.
  induction 1 as [x|p rest x y z Hstep _ IH]; [lia|].
  destruct Hstep; simpl in *; rewrite ?total_bump in IH; lia.
Qed.

(** With room for every page of the trace, nothing is ever evicted and
    every page is loaded once. *)
Lemma steps_roomy F V t x y :
  steps F V t x y →
  (size (resident x ∪ list_to_set t) ≤ F)%nat →
  (∀ q, q ∉ resident x → loadmap x !! q = None) →
  victims y = victims x
  ∧ resident y = resident x ∪ list_to_set t
  ∧ faults y = faults x + Z.of_nat (size (list_to_set (C := gset P) t ∖ resident x))
  ∧ ∀ q, loadmap y !! q
         = if decide (q ∈ list_to_set (C := gset P) t ∖ resident x)
           then Some 1 else loadmap x !! q.
Proof.
  induction 1 as [x|p rest x y z Hstep _ IH]; intros Hsz Hlm.
  - simpl. split; [done|]. split; [set_solver|].
    replace (∅ ∖ resident x) with (∅ : gset P) by set_solver.
    rewrite size_empty. split; [lia|]. intros q. rewrite decide_False; set_solver.
  - simpl in Hsz. destruct Hstep as [x Hp|x Hp Hlt|x v Hp Hge Hv HV]; simpl in *.
    + destruct IH as (Hvs & Hres & Hf & Hl).
      { etrans; [|exact Hsz]. apply subseteq_size. set_solver. }
      { done. }
      assert (({[p]} ∪ list_to_set rest) ∖ resident x
              = list_to_set (C := gset P) rest ∖ resident x) as -> by set_solver.
      split; [done|]. split; [set_solver|]. done.
    + destruct IH as (Hvs & Hres & Hf & Hl).
      { etrans; [|exact Hsz]. apply subseteq_size. set_solver. }
      { intros q Hq. unfold bump. rewrite lookup_insert_ne by set_solver.
        apply Hlm. set_solver. }
      split; [done|]. split; [set_solver|].
      assert (({[p]} ∪ list_to_set rest) ∖ resident x
              = {[p]} ∪ list_to_set (C := gset P) rest ∖ (resident x ∪ {[p]})) as Hsplit.
      { apply set_eq. intros q. destruct (decide (q = p)); set_solver. }
      rewrite Hsplit. split.
      * rewrite size_union by set_solver. rewrite size_singleton. lia.
      * intros q. rewrite Hl. unfold bump.
        destruct (decide (q = p)) as [->|Hne].
        -- rewrite decide_False by set_solver. rewrite decide_True by set_solver.
           rewrite lookup_insert_eq, (Hlm p Hp). done.
        -- rewrite lookup_insert_ne by done.
           destruct (decide (q ∈ list_to_set rest ∖ (resident x ∪ {[p]}))).
           ++ by rewrite decide_True by set_solver.
           ++ by rewrite decide_False by set_solver.
    + exfalso.
      assert (size (resident x ∪ {[p]}) ≤ F)%nat.
      { etrans; [|exact Hsz]. apply subseteq_size. set_solver. }
      rewrite size_add in * by done. lia.
Qed.

End run_facts.

(** ** The two policies, run from the start *)

Lemma Opt_run_faults {rt : Runtime} s :
  1 ≤ totalFrames s → sizeofString * totalFrames s ≤ maxAlloc → go_values s →
  ∃ st, Opt.run s = Done st ∧ 0 ≤ Opt.pageFaults st ∧
    steps (Z.to_nat (totalFrames s)) farthest (pages (accesses s)) view0 (Opt_view st).
Proof.
  intros HF Hfit Hgo.
  destruct (Opt_run_steps s HF Hfit Hgo) as (st & Hrun & Hinv & Hsteps).
  exists st. split; [done|]. split; [|done].
  apply steps_faults in Hsteps. simpl in Hsteps. lia.
Qed.

Lemma Clock_run_faults {rt : Runtime} s :
  1 ≤ totalFrames s → sizeofPointer * totalFrames s ≤ maxAlloc → go_values s →
  ∃ st, Clock.run s = Done st ∧ 0 ≤ Clock.pageFaults st ∧
    steps (Z.to_nat (totalFrames s)) anyVictim (pages (accesses s)) view0 (Clock_view st).
Proof.
  intros HF Hfit Hgo.
  destruct (Clock_run_steps s HF Hfit Hgo) as (st & Hrun & Hinv & Hsteps).
  exists st. split; [done|]. split; [|done].
  apply steps_faults in Hsteps. simpl in Hsteps. lia.
Qed.

Lemma view0_size F : (size (resident view0) ≤ F)%nat.
Proof. change (size (∅ : gset string) ≤ F)%nat. rewrite size_empty. lia. Qed.

(** No run of the optimal policy with [F] frames faults more than a
    schedule with at most [F] frames does. *)
Lemma Opt_run_optimal {rt : Runtime} s (F : nat) m :
  1 ≤ totalFrames s → sizeofString * totalFrames s ≤ maxAlloc → go_values s →
  (F ≤ Z.to_nat (totalFrames s))%nat →
  Serves F ∅ (pages (accesses s)) m →
  ∃ st, Opt.run s = Done st ∧ 0 ≤ Opt.pageFaults st ≤ Z.of_nat m.
Proof.
  intros HF Hfit Hgo HFle Hserves.
  destruct (Opt_run_faults s HF Hfit Hgo) as (st & Hrun & Hpos & Hsteps).
  exists st. split; [done|]. split; [done|].
  pose proof (steps_farthest_optimal _ _ _ _ Hsteps m (view0_size _)
                (Serves_weaken _ _ _ _ _ HFle Hserves)) as Hopt.
  simpl in Hopt. lia.
Qed.

Lemma Opt_run_no_frames {rt : Runtime} s :
  totalFrames s = 0 → accesses s ≠ [] → Opt.run s = Panic.
Proof.
  intros HF Hne. unfold Opt.run. rewrite HF.
  unfold makeslice. destruct (_ || _); [done|]. cbn [mbind outcome_bind].
  destruct (accesses s) as [|a rest]; [done|]. simpl.
  unfold Opt.access. simpl. by rewrite lookup_empty.
Qed.

(** ** The examples of the specification

    Page identifiers are written as the loader accepts them. *)

Example repeated_page :
  measurement (OptimalAlgorithm (simulatorOf 4096 ["IA"; "IA"; "IA"; "IA"]))
  = Done (1, {["IA" := 1]})
  ∧ measurement (ClockAlgorithm (simulatorOf 4096 ["IA"; "IA"; "IA"; "IA"]))
    = Done (1, {["IA" := 1]}).
Proof. split; by vm_compute. Qed.

Example as_many_frames_as_pages :
  measurement (OptimalAlgorithm (simulatorOf 16384 ["IA"; "IB"; "IC"; "ID"]))
  = Done (4, {["IA" := 1; "IB" := 1; "IC" := 1; "ID" := 1]})
  ∧ measurement (ClockAlgorithm (simulatorOf 16384 ["IA"; "IB"; "IC"; "ID"]))
    = Done (4, {["IA" := 1; "IB" := 1; "IC" := 1; "ID" := 1]}).
Proof. split; by vm_compute. Qed.

Example one_frame_alternating :
  measurement (OptimalAlgorithm (simulatorOf 4096 ["IA"; "IB"; "IA"; "IB"; "IA"; "IB"]))
  = Done (6, {["IA" := 3; "IB" := 3]})
  ∧ measurement (ClockAlgorithm (simulatorOf 4096 ["IA"; "IB"; "IA"; "IB"; "IA"; "IB"]))
    = Done (6, {["IA" := 3; "IB" := 3]}).
Proof. split; by vm_compute. Qed.

Example sample_three_frames :
  measurement (OptimalAlgorithm (simulatorOf 12288 sampleTrace))
  = Done (5, {["IA" := 1; "IB" := 1; "IC" := 2; "ID" := 1]})
  ∧ measurement (ClockAlgorithm (simulatorOf 12288 sampleTrace))
    = Done (8, {["IA" := 2; "IB" := 2; "IC" := 2; "ID" := 2]}).
Proof. split; by vm_compute. Qed.

Example sample_states_reached :
  Opt.loop 3 (recordPositions 0 (accessOf <$> sampleTrace) ∅) 0
    (accessOf <$> take 5 sampleTrace) Opt.init = Done sampleOptState
  ∧ Clock.loop 3 (accessOf <$> take 5 sampleTrace) (Clock.init 3) = Done sampleClockState.
Proof. split; by vm_compute. Qed.

(** * The properties of the specification *)

Lemma pointers_fit {rt : Runtime} F :
  1 ≤ F → sizeofString * F ≤ maxAlloc → sizeofPointer * F ≤ maxAlloc.
Proof. unfold sizeofString, sizeofPointer. lia. Qed.

Lemma go_values_simulatorOf memorySize pageIDs :
  0 ≤ memorySize ≤ MaxInt → Z.of_nat (length pageIDs) ≤ MaxInt →
  go_values (simulatorOf memorySize pageIDs).
Proof.
  intros Hm Hl. unfold go_values, simulatorOf, len; simpl.
  rewrite length_fmap. split; [|done]. unfold PAGE_SIZE, MaxInt in *.
  pose proof (Z.quot_pos memorySize 4096).
  pose proof (Z.quot_le_upper_bound memorySize 4096 memorySize). lia.
Qed.

(** C1: for every non-empty trace and every capacity of at least one
    frame that [make] accepts, both policies return a fault count and the
    count of [OptimalAlgorithm] is at most that of [ClockAlgorithm]. *)
Theorem optimal_le_clock {rt : Runtime} (s : Simulator) :
  accesses s ≠ [] → 1 ≤ totalFrames s → sizeofString * totalFrames s ≤ maxAlloc →
  go_values s →
  ∃ nOpt sOpt nClock sClock,
    OptimalAlgorithm s = Done (nOpt, sOpt) ∧
    ClockAlgorithm s = Done (nClock, sClock) ∧
    nOpt ≤ nClock.
Proof.
  intros _ HF Hfit Hgo.
  destruct (Clock_run_faults s HF (pointers_fit _ HF Hfit) Hgo)
    as (stC & HrunC & HposC & HstepsC).
  pose proof (steps_Serves _ _ _ _ _ HstepsC (view0_size _)) as Hserves.
  destruct (Opt_run_optimal s _ _ HF Hfit Hgo (Nat.le_refl _) Hserves)
    as (stO & HrunO & HfO).
  unfold OptimalAlgorithm, ClockAlgorithm. rewrite HrunO, HrunC. simpl.
  do 4 eexists. split; [done|]. split; [done|].
  simpl in HfO. lia.
Qed.

Lemma optimal_le_clock_witness :
  ∃ nOpt sOpt nClock sClock,
    OptimalAlgorithm (simulatorOf 12288 sampleTrace) = Done (nOpt, sOpt) ∧
    ClockAlgorithm (simulatorOf 12288 sampleTrace) = Done (nClock, sClock) ∧
    nOpt ≤ nClock.
Proof.
  apply (optimal_le_clock (simulatorOf 12288 sampleTrace)).
  - discriminate.
  - vm_compute. discriminate.
  - vm_compute. discriminate.
  - apply go_values_simulatorOf; [vm_compute; split; discriminate | vm_compute; discriminate].
Defined.

(** C4, as stated, fails for the clock policy: on this trace three frames
    give 9 faults and four frames give 10. *)
Lemma clock_not_monotone :
  measurement (ClockAlgorithm (simulatorOf (3 * 4096) anomalyTrace))
  = Done (9, {["D1" := 2; "D2" := 2; "D3" := 2; "D4" := 2; "D5" := 1]})
  ∧ measurement (ClockAlgorithm (simulatorOf (4 * 4096) anomalyTrace))
    = Done (10, {["D1" := 2; "D2" := 2; "D3" := 2; "D4" := 2; "D5" := 2]})
  ∧ ¬ (∀ s s' n n' r r',
         accesses s = accesses s' → totalFrames s ≤ totalFrames s' →
         ClockAlgorithm s = Done (n, r) → ClockAlgorithm s' = Done (n', r') →
         n' ≤ n).
Proof.
  split; [by vm_compute|]. split; [by vm_compute|].
  intros Hmono.
  specialize (Hmono (simulatorOf (3 * 4096) anomalyTrace)
                    (simulatorOf (4 * 4096) anomalyTrace) 9 10).
  destruct (ClockAlgorithm (simulatorOf (3 * 4096) anomalyTrace)) as [[n3 r3]| |] eqn:H3;
    [|by vm_compute in H3..].
  destruct (ClockAlgorithm (simulatorOf (4 * 4096) anomalyTrace)) as [[n4 r4]| |] eqn:H4;
    [|by vm_compute in H4..].
  assert (n3 = 9) as -> by (vm_compute in H3; congruence).
  assert (n4 = 10) as -> by (vm_compute in H4; congruence).
  specialize (Hmono r3 r4 eq_refl ltac:(by vm_compute) eq_refl eq_refl). lia.
Qed.

(** C4, amended: with the same trace, more frames never give more faults
    to [OptimalAlgorithm], for frame counts that [make] accepts. *)
Theorem optimal_monotone {rt : Runtime} (s s' : Simulator) :
  accesses s = accesses s' → 1 ≤ totalFrames s ≤ totalFrames s' →
  sizeofString * totalFrames s' ≤ maxAlloc →
  go_values s → go_values s' →
  ∃ n r n' r',
    OptimalAlgorithm s = Done (n, r) ∧
    OptimalAlgorithm s' = Done (n', r') ∧
    n' ≤ n.
Proof.
  intros Hacc [HF HFle] Hfit' Hgo Hgo'.
  assert (sizeofString * totalFrames s ≤ maxAlloc) as Hfit
    by (unfold sizeofString in *; lia).
  destruct (Opt_run_faults s HF Hfit Hgo) as (st & Hrun & Hpos & Hsteps).
  pose proof (steps_Serves _ _ _ _ _ Hsteps (view0_size _)) as Hserves.
  rewrite Hacc in Hserves.
  destruct (Opt_run_optimal s' (Z.to_nat (totalFrames s)) _ ltac:(lia) Hfit' Hgo'
              ltac:(lia) Hserves) as (st' & Hrun' & Hf').
  unfold OptimalAlgorithm. rewrite Hrun, Hrun'. simpl.
  do 4 eexists. split; [done|]. split; [done|].
  simpl in Hf'. lia.
Qed.

Lemma optimal_monotone_witness :
  ∃ n r n' r',
    OptimalAlgorithm (simulatorOf (3 * 4096) anomalyTrace) = Done (n, r) ∧
    OptimalAlgorithm (simulatorOf (4 * 4096) anomalyTrace) = Done (n', r') ∧
    n' ≤ n.
Proof.
  apply (optimal_monotone (simulatorOf (3 * 4096) anomalyTrace)
                          (simulatorOf (4 * 4096) anomalyTrace)).
  - reflexivity.
  - vm_compute. split; discriminate.
  - vm_compute. discriminate.
  - apply go_values_simulatorOf; [vm_compute; split; discriminate | vm_compute; discriminate].
  - apply go_values_simulatorOf; [vm_compute; split; discriminate | vm_compute; discriminate].
Defined.

(** C10: the fault count each policy returns is the sum of the load
    counters it leaves in the simulator, for every frame count of at
    least 1 that [make] accepts. *)
Theorem faults_sum_of_loads {rt : Runtime} (s : Simulator) :
  1 ≤ totalFrames s → sizeofString * totalFrames s ≤ maxAlloc → go_values s →
  ∃ nOpt sOpt nClock sClock,
    OptimalAlgorithm s = Done (nOpt, sOpt) ∧ nOpt = total (pageLoadCount sOpt) ∧
    ClockAlgorithm s = Done (nClock, sClock) ∧ nClock = total (pageLoadCount sClock).
Proof.
  intros HF Hfit Hgo.
  destruct (Opt_run_faults s HF Hfit Hgo) as (stO & HrunO & _ & HstepsO).
  destruct (Clock_run_faults s HF (pointers_fit _ HF Hfit) Hgo)
    as (stC & HrunC & _ & HstepsC).
  apply steps_total in HstepsO, HstepsC. simpl in HstepsO, HstepsC.
  unfold total in HstepsO at 2. unfold total in HstepsC at 2.
  rewrite map_fold_empty in HstepsO, HstepsC.
  unfold OptimalAlgorithm, ClockAlgorithm. rewrite HrunO, HrunC. simpl.
  do 4 eexists. split; [done|]. split; [simpl; lia|]. split; [done|]. simpl; lia.
Qed.

Lemma faults_sum_of_loads_witness :
  ∃ nOpt sOpt nClock sClock,
    OptimalAlgorithm (simulatorOf 12288 sampleTrace) = Done (nOpt, sOpt) ∧
    nOpt = total (pageLoadCount sOpt) ∧
    ClockAlgorithm (simulatorOf 12288 sampleTrace) = Done (nClock, sClock) ∧
    nClock = total (pageLoadCount sClock).
Proof.
  apply (faults_sum_of_loads (simulatorOf 12288 sampleTrace)).
  - vm_compute. discriminate.
  - vm_compute. discriminate.
  - apply go_values_simulatorOf; [vm_compute; split; discriminate | vm_compute; discriminate].
Defined.

Lemma roomy_run F V (t : list string) (y : view) :
  steps F V t view0 y → (size (list_to_set (C := gset string) t) ≤ F)%nat →
  victims y = []
  ∧ faults y = Z.of_nat (size (list_to_set (C := gset string) t))
  ∧ ∀ q, loadmap y !! q
         = if decide (q ∈ list_to_set (C := gset string) t) then Some 1 else None.
Proof.
  intros Hsteps Hsz.
  destruct (steps_roomy F V t view0 y Hsteps) as (Hv & _ & Hf & Hl).
  - simpl. by rewrite union_empty_l_L.
  - done.
  - simpl in *. rewrite difference_empty_L in *. split; [done|]. split; [lia|].
    intros q. rewrite Hl. by destruct (decide _).
Qed.

(** C5: when there are at least as many frames as distinct pages (and
    no more than [make] accepts), both policies return the number of
    distinct pages, every page of the trace has load count 1, and no page
    is ever evicted. *)
Theorem enough_frames_no_eviction {rt : Runtime} (s : Simulator) :
  accesses s ≠ [] → go_values s →
  Z.of_nat (size (distinct (accesses s))) ≤ totalFrames s →
  sizeofString * totalFrames s ≤ maxAlloc →
  let n := Z.of_nat (size (distinct (accesses s))) in
  ∃ stOpt stClock,
    Opt.run s = Done stOpt ∧ Clock.run s = Done stClock ∧
    OptimalAlgorithm s = Done (n, set_pageLoadCount (Opt.loads stOpt) s) ∧
    ClockAlgorithm s = Done (n, set_pageLoadCount (Clock.loads stClock) s) ∧
    (∀ q, Opt.loads stOpt !! q
          = if decide (q ∈ distinct (accesses s)) then Some 1 else None) ∧
    (∀ q, Clock.loads stClock !! q
          = if decide (q ∈ distinct (accesses s)) then Some 1 else None) ∧
    Opt.evicted stOpt = [] ∧ Clock.evicted stClock = [].
Proof.
  intros Hne Hgo Hroom Hfit n.
  assert (1 ≤ totalFrames s) as HF.
  { destruct (accesses s) as [|a rest] eqn:Hacc; [done|].
    assert (0 < size (distinct (a :: rest)))%nat; [|lia].
    rewrite (size_remove _ (PageAccess.PageID a)); [lia|].
    unfold distinct. simpl. set_solver. }
  destruct (Opt_run_faults s HF Hfit Hgo) as (stO & HrunO & _ & HstepsO).
  destruct (Clock_run_faults s HF (pointers_fit _ HF Hfit) Hgo)
    as (stC & HrunC & _ & HstepsC).
  apply roomy_run in HstepsO as (HvO & HfO & HlO); [|unfold distinct in *; lia].
  apply roomy_run in HstepsC as (HvC & HfC & HlC); [|unfold distinct in *; lia].
  simpl in *. exists stO, stC.
  unfold OptimalAlgorithm, ClockAlgorithm. rewrite HrunO, HrunC. simpl.
  rewrite HfO, HfC. done.
Qed.

Lemma enough_frames_no_eviction_witness :
  ∃ stOpt stClock,
    Opt.run (simulatorOf 16384 sampleTrace) = Done stOpt ∧
    Clock.run (simulatorOf 16384 sampleTrace) = Done stClock ∧
    OptimalAlgorithm (simulatorOf 16384 sampleTrace)
    = Done (Z.of_nat (size (distinct (accesses (simulatorOf 16384 sampleTrace)))),
            set_pageLoadCount (Opt.loads stOpt) (simulatorOf 16384 sampleTrace)) ∧
    ClockAlgorithm (simulatorOf 16384 sampleTrace)
    = Done (Z.of_nat (size (distinct (accesses (simulatorOf 16384 sampleTrace)))),
            set_pageLoadCount (Clock.loads stClock) (simulatorOf 16384 sampleTrace)) ∧
    (∀ q, Opt.loads stOpt !! q
          = if decide (q ∈ distinct (accesses (simulatorOf 16384 sampleTrace)))
            then Some 1 else None) ∧
    (∀ q, Clock.loads stClock !! q
          = if decide (q ∈ distinct (accesses (simulatorOf 16384 sampleTrace)))
            then Some 1 else None) ∧
    Opt.evicted stOpt = [] ∧ Clock.evicted stClock = [].
Proof.
  apply (enough_frames_no_eviction (simulatorOf 16384 sampleTrace)).
  - discriminate.
  - apply go_values_simulatorOf; [vm_compute; split; discriminate | vm_compute; discriminate].
  - vm_compute. discriminate.
  - vm_compute. discriminate.
Defined.

(** C9: what a policy run measures depends on the trace and the number of
    frames only; in particular a second run on the simulator the first run
    left behind measures the same fault count and the same load counts. *)
Theorem measurement_repeatable {rt : Runtime} (s s' : Simulator) :
  accesses s = accesses s' → totalFrames s = totalFrames s' →
  measurement (OptimalAlgorithm s) = measurement (OptimalAlgorithm s')
  ∧ measurement (ClockAlgorithm s) = measurement (ClockAlgorithm s')
  ∧ (∀ n s1, OptimalAlgorithm s = Done (n, s1) →
       measurement (OptimalAlgorithm s1) = Done (n, pageLoadCount s1))
  ∧ (∀ n s1, ClockAlgorithm s = Done (n, s1) →
       measurement (ClockAlgorithm s1) = Done (n, pageLoadCount s1)).
Proof.
  intros Hacc HF.
  assert (Opt.run s = Opt.run s') as HO by (unfold Opt.run; by rewrite Hacc, HF).
  assert (Clock.run s = Clock.run s') as HC by (unfold Clock.run; by rewrite Hacc, HF).
  unfold OptimalAlgorithm, ClockAlgorithm, measurement.
  split; [rewrite HO; by destruct (Opt.run s')|].
  split; [rewrite HC; by destruct (Clock.run s')|].
  split.
  - intros n s1. destruct (Opt.run s) as [st| |] eqn:Hrun; simpl; [|done..].
    intros [= <- <-]. unfold Opt.run in *. simpl. by rewrite Hrun.
  - intros n s1. destruct (Clock.run s) as [st| |] eqn:Hrun; simpl; [|done..].
    intros [= <- <-]. unfold Clock.run in *. simpl. by rewrite Hrun.
Qed.

Lemma measurement_repeatable_witness :
  measurement (OptimalAlgorithm (simulatorOf 12288 sampleTrace))
  = measurement (OptimalAlgorithm
      (set_pageLoadCount {["IA" := 7]} (simulatorOf 12288 sampleTrace)))
  ∧ measurement (ClockAlgorithm (simulatorOf 12288 sampleTrace))
    = measurement (ClockAlgorithm
        (set_pageLoadCount {["IA" := 7]} (simulatorOf 12288 sampleTrace)))
  ∧ (∀ n s1, OptimalAlgorithm (simulatorOf 12288 sampleTrace) = Done (n, s1) →
       measurement (OptimalAlgorithm s1) = Done (n, pageLoadCount s1))
  ∧ (∀ n s1, ClockAlgorithm (simulatorOf 12288 sampleTrace) = Done (n, s1) →
       measurement (ClockAlgorithm s1) = Done (n, pageLoadCount s1)).
Proof.
  apply (measurement_repeatable (simulatorOf 12288 sampleTrace)
           (set_pageLoadCount {["IA" := 7]} (simulatorOf 12288 sampleTrace)));
    reflexivity.
Defined.

(** The victim scan of the older revision picks the same frame. *)
Lemma selectVictim_old_eq n table i :
  (∀ q v, v ∈ default [] (table !! q) → v < n) →
  ∀ fs k0 f0 v0, f0 < n →
  Opt.selectVictim_old n table i fs k0 f0 v0 = Opt.selectVictim table i fs k0 f0 v0.
Proof.
  intros Hbound. induction fs as [|q fs IH]; intros k0 f0 v0 Hf0; simpl; [done|].
  destruct (Z.eqb_spec (SearchInts (default [] (table !! q)) (int_add i 1))
              (len (default [] (table !! q)))) as [_|_]; simpl.
  - destruct (Z.gtb_spec n f0) as [_|]; [|lia]. by rewrite Z.eqb_refl.
  - destruct (index (default [] (table !! q))
                (SearchInts (default [] (table !! q)) (int_add i 1))) as [u| |] eqn:Hu;
      simpl; [|done..].
    apply index_Done_inv in Hu as [_ Hu%list_elem_of_lookup_2].
    specialize (Hbound q u Hu).
    destruct (Z.eqb_spec u n) as [|_]; [lia|].
    destruct (Z.gtb_spec u f0); by apply IH.
Qed.

Lemma recordPositions_bound accs q v :
  v ∈ default [] (recordPositions 0 accs ∅ !! q) → v < len accs.
Proof.
  rewrite recordPositions_lookup, lookup_empty. simpl. intros Hv.
  pose proof (proj1 (Forall_forall _ _) (positionsOf_bounds q accs 0) v Hv). simpl in *. lia.
Qed.

(** C2: on a fault with no free frame, [OptimalAlgorithm] replaces the
    page of the lowest-indexed frame whose page is not accessed again, if
    there is one; otherwise the page whose next access is the latest, the
    first frame winning a tie. *)
Theorem optimal_victim_choice (s : Simulator) (pre : list PageAccess.t)
    (a : PageAccess.t) (rest : list PageAccess.t) (st : Opt.state) :
  accesses s = pre ++ a :: rest → go_values s → 1 ≤ totalFrames s →
  Opt.inMemory st !! PageAccess.PageID a = None →
  totalFrames s ≤ len (Opt.frames st) →
  let i := len pre in
  let table := recordPositions 0 (accesses s) ∅ in
  let nextUse := nextUseAfter (accesses s) i in
  ∃ (v : nat) victim,
    Opt.frames st !! v = Some victim ∧
    Opt.selectVictim table i (Opt.frames st) 0 (-1) (-1) = Done (Z.of_nat v) ∧
    Opt.selectVictim_old (len (accesses s)) table i (Opt.frames st) 0 (-1) (-1)
    = Done (Z.of_nat v) ∧
    Opt.access (totalFrames s) table i (PageAccess.PageID a) st
    = Done {| Opt.frames := <[v := PageAccess.PageID a]> (Opt.frames st);
              Opt.inMemory := <[PageAccess.PageID a := true]> (delete victim (Opt.inMemory st));
              Opt.pageFaults := int_add (Opt.pageFaults st) 1;
              Opt.loads := map_incr (PageAccess.PageID a) (Opt.loads st);
              Opt.evicted := Opt.evicted st ++ [victim] |} ∧
    ((nextUse victim = None ∧
      ∀ (j : nat) q, (j < v)%nat → Opt.frames st !! j = Some q → nextUse q ≠ None)
     ∨ (∃ u, nextUse victim = Some u ∧
          (∀ q, q ∈ Opt.frames st → ∃ u', nextUse q = Some u' ∧ u' ≤ u) ∧
          (∀ (j : nat) q u', (j < v)%nat → Opt.frames st !! j = Some q →
             nextUse q = Some u' → u' < u))).
Proof.
  intros Hacc [_ Hlen] HF Hp Hfull i table nextUse.
  unfold table, nextUse, i. rewrite Hacc in *. clear table nextUse i.
  assert (len pre + 1 ≤ MaxInt) as Hi.
  { unfold len in *. rewrite length_app in Hlen. simpl in Hlen. lia. }
  destruct (selectVictim_scan (recordPositions 0 (pre ++ a :: rest) ∅) (len pre)
              (nextUseAfter (pre ++ a :: rest) (len pre))
              (λ q, lookahead pre a rest q Hi) (Opt.frames st) 0 (-1) (-1))
    as (v & Hsel & Hres).
  assert (∃ (j : nat) victim, v = Z.of_nat j ∧ Opt.frames st !! j = Some victim ∧
    ((nextUseAfter (pre ++ a :: rest) (len pre) victim = None ∧
      ∀ (j' : nat) q, (j' < j)%nat → Opt.frames st !! j' = Some q →
        nextUseAfter (pre ++ a :: rest) (len pre) q ≠ None)
     ∨ (∃ u, nextUseAfter (pre ++ a :: rest) (len pre) victim = Some u ∧
          (∀ q, q ∈ Opt.frames st →
             ∃ u', nextUseAfter (pre ++ a :: rest) (len pre) q = Some u' ∧ u' ≤ u) ∧
          (∀ (j' : nat) q u', (j' < j)%nat → Opt.frames st !! j' = Some q →
             nextUseAfter (pre ++ a :: rest) (len pre) q = Some u' → u' < u))))
    as (j & victim & -> & Hj & Hchoice).
  { destruct Hres as [(j & q & Hj & Hnone & -> & Hbefore)|[Hall Hres]].
    - exists j, q. split; [lia|]. split; [done|]. left. done.
    - destruct Hres as [[_ Hmax]|(j & q & u & Hj & Hu & -> & _ & Hmax & Hbefore)].
      + exfalso. destruct (Opt.frames st) as [|q0 fs] eqn:Hfs; [unfold len in *; simpl in *; lia|].
        specialize (Hall q0 (list_elem_of_here _ _)).
        destruct (nextUseAfter (pre ++ a :: rest) (len pre) q0) as [u|] eqn:Hu; [|done].
        specialize (Hmax q0 u (list_elem_of_here _ _) Hu).
        rewrite nextUseAfter_split in Hu.
        destruct (firstOcc q0 (pages rest)); simplify_eq/=. unfold len in *. lia.
      + exists j, q. split; [lia|]. split; [done|]. right. exists u. split; [done|]. split.
        * intros q' Hq'. specialize (Hall q' Hq').
          destruct (nextUseAfter (pre ++ a :: rest) (len pre) q') as [u'|] eqn:Hu'; [|done].
          exists u'. split; [done|]. by eapply Hmax.
        * done. }
  exists j, victim. split; [done|]. split; [done|]. split.
  { rewrite selectVictim_old_eq; [done | | unfold len; lia].
    intros q u. apply recordPositions_bound. }
  split; [|done].
  unfold Opt.access. rewrite Hp.
  destruct (Z.ltb_spec (len (Opt.frames st)) (totalFrames s)) as [|_]; [lia|].
  rewrite Hsel. simpl. rewrite (index_Done _ _ _ Hj). simpl. by rewrite Nat2Z.id.
Qed.

Lemma optimal_victim_choice_witness :
  let s := simulatorOf 12288 sampleTrace in
  let table := recordPositions 0 (accesses s) ∅ in
  let nextUse := nextUseAfter (accesses s) 5 in
  ∃ (v : nat) victim,
    Opt.frames sampleOptState !! v = Some victim ∧
    Opt.selectVictim table 5 (Opt.frames sampleOptState) 0 (-1) (-1) = Done (Z.of_nat v) ∧
    Opt.selectVictim_old (len (accesses s)) table 5 (Opt.frames sampleOptState) 0 (-1) (-1)
    = Done (Z.of_nat v) ∧
    Opt.access (totalFrames s) table 5 "ID" sampleOptState
    = Done {| Opt.frames := <[v := "ID"]> (Opt.frames sampleOptState);
              Opt.inMemory := <["ID" := true]> (delete victim (Opt.inMemory sampleOptState));
              Opt.pageFaults := int_add (Opt.pageFaults sampleOptState) 1;
              Opt.loads := map_incr "ID" (Opt.loads sampleOptState);
              Opt.evicted := Opt.evicted sampleOptState ++ [victim] |} ∧
    ((nextUse victim = None ∧
      ∀ (j : nat) q, (j < v)%nat → Opt.frames sampleOptState !! j = Some q →
        nextUse q ≠ None)
     ∨ (∃ u, nextUse victim = Some u ∧
          (∀ q, q ∈ Opt.frames sampleOptState → ∃ u', nextUse q = Some u' ∧ u' ≤ u) ∧
          (∀ (j : nat) q u', (j < v)%nat → Opt.frames sampleOptState !! j = Some q →
             nextUse q = Some u' → u' < u))).
Proof.
  refine (optimal_victim_choice (simulatorOf 12288 sampleTrace)
            (accessOf <$> ["IA"; "IB"; "IC"; "IA"; "IB"]) (accessOf "ID")
            (accessOf <$> ["IA"; "IB"; "IC"; "ID"]) sampleOptState _ _ _ _ _).
  - reflexivity.
  - apply go_values_simulatorOf; [vm_compute; split; discriminate | vm_compute; discriminate].
  - vm_compute. discriminate.
  - reflexivity.
  - vm_compute. discriminate.
Defined.

(** ** The clock policy on a fault *)

(** C3: on a fault [ClockAlgorithm] fills the lowest-indexed empty frame
    and leaves the hand where it is; without an empty frame it scans from
    the hand, circularly, clears the referenced bit of the [k] referenced
    frames it goes past, replaces the page of the first frame found with
    the bit cleared and leaves the hand just after that frame.  The new
    frame has its referenced bit set and load count 1 in both cases. *)
Theorem clock_fault_handling (F : Z) (p : string) (st : Clock.state) :
  1 ≤ F ≤ MaxInt → length (Clock.frames st) = Z.to_nat F →
  0 ≤ Clock.clockPointer st < F →
  Clock.pageToFrame st !! p = None →
  (∀ e : nat,
     Clock.frames st !! e = Some None →
     (∀ j : nat, (j < e)%nat → Clock.frames st !! j ≠ Some None) →
     Clock.access F p st
     = Done {| Clock.frames :=
                 <[e := Some {| PageFrame.PageID := p; PageFrame.Referenced := true;
                                PageFrame.LoadCount := 1 |}]> (Clock.frames st);
               Clock.pageToFrame := <[p := Z.of_nat e]> (Clock.pageToFrame st);
               Clock.clockPointer := Clock.clockPointer st;
               Clock.pageFaults := int_add (Clock.pageFaults st) 1;
               Clock.loads := map_incr p (Clock.loads st);
               Clock.evicted := Clock.evicted st |})
  ∧ (Forall is_Some (Clock.frames st) →
     ∃ (k : nat) victim frames',
       Z.of_nat k ≤ F ∧
       (∀ m, 0 ≤ m < Z.of_nat k →
          referencedAt (Clock.frames st) ((Clock.clockPointer st + m) mod F) = true) ∧
       (Z.of_nat k < F →
          referencedAt (Clock.frames st) ((Clock.clockPointer st + Z.of_nat k) mod F) = false) ∧
       let v := (Clock.clockPointer st + Z.of_nat k) mod F in
       Clock.frames st !! Z.to_nat v = Some (Some victim) ∧
       length frames' = length (Clock.frames st) ∧
       (∀ j, 0 ≤ j < F →
          frames' !! Z.to_nat j
          = afterScan F (Clock.clockPointer st) (Z.of_nat k) v p (Clock.frames st) j) ∧
       Clock.access F p st
       = Done {| Clock.frames := frames';
                 Clock.pageToFrame :=
                   <[p := v]> (delete (PageFrame.PageID victim) (Clock.pageToFrame st));
                 Clock.clockPointer := (v + 1) mod F;
                 Clock.pageFaults := int_add (Clock.pageFaults st) 1;
                 Clock.loads := map_incr p (Clock.loads st);
                 Clock.evicted := Clock.evicted st ++ [PageFrame.PageID victim] |}).
Proof.
  intros HF Hlen Hcp Hp.
  destruct (findEmpty_spec (Clock.frames st) (Z.to_nat F) 0) as (e' & Hfind & He');
    [lia | lia | unfold len; lia |].
  split.
  - intros e He Hmin.
    assert (e' = Z.of_nat e) as ->.
    { destruct He' as [[-> Hocc]|(Hrange & Hnil & Hocc)].
      - destruct (Hocc e) as [q Hq].
        + apply lookup_lt_Some in He. lia.
        + unfold pageAt in Hq. by rewrite He in Hq.
      - destruct (Nat.lt_trichotomy (Z.to_nat e') e) as [Hlt|[Heq|Hgt]]; [|lia|].
        + by destruct (Hmin _ Hlt).
        + destruct (Hocc e) as [q Hq]; [lia|].
          unfold pageAt in Hq. by rewrite He in Hq. }
    unfold Clock.access. rewrite Hp, Hfind. cbn [mbind outcome_bind].
    destruct (Z.eqb_spec (Z.of_nat e) (-1)) as [|_]; [lia|]. cbn [negb].
    rewrite (index_Done _ _ _ He). simpl. by rewrite Nat2Z.id.
  - intros Hall.
    assert (e' = -1) as ->.
    { destruct He' as [[-> _]|(Hrange & Hnil & _)]; [done|].
      by destruct (proj1 (Forall_lookup _ _) Hall _ _ Hnil). }
    destruct (scan_total F p (Clock.pageToFrame st)
                (Clock.frames st) (Clock.clockPointer st) 0)
      as (k & fr & frames' & Hk & Href & Hstop & Hfr & Hscan & Hlen' & Hpt); [done..|].
    exists k, fr, frames'. split; [done|]. split; [done|]. split; [done|].
    split; [done|]. split; [done|]. split; [done|].
    unfold Clock.access. rewrite Hp, Hfind. cbn [mbind outcome_bind].
    change (negb (-1 =? -1)) with false. cbv iota.
    by rewrite Hscan by (unfold Clock.scanFuel; lia).
Qed.

(** C6: started without an empty frame, the victim scan of
    [ClockAlgorithm] terminates by finding a frame whose referenced bit is
    false.  It goes past the [k ≤ totalFrames] frames after the hand whose
    bit is set, clearing each, and stops at frame [v], the next one: the
    first frame whose bit was false or, when every bit was set
    ([k = totalFrames]), the frame it started from, whose bit it has
    cleared itself.  It visits [k + 1] frames, at most [totalFrames + 1]
    and so at most [2 * totalFrames]; the page of frame [v] is the victim,
    the new page takes its place and the hand ends one past it.  The same
    holds with the fuel the embedding gives the loop. *)
Theorem clock_scan_terminates (F : Z) (p : string)
    (frames : list (option PageFrame.t)) (pageToFrame : gmap string Z)
    (clockPointer : Z) :
  1 ≤ F ≤ MaxInt → length frames = Z.to_nat F → Forall is_Some frames →
  0 ≤ clockPointer < F →
  ∃ (k : nat) stop frames',
    Z.of_nat k ≤ F ∧
    (∀ m, 0 ≤ m < Z.of_nat k →
       referencedAt frames ((clockPointer + m) mod F) = true) ∧
    (Z.of_nat k < F →
       referencedAt frames ((clockPointer + Z.of_nat k) mod F) = false) ∧
    let v := (clockPointer + Z.of_nat k) mod F in
    let visited := Z.of_nat k + 1 in
    frames !! Z.to_nat v = Some (Some stop) ∧
    (Z.of_nat k = F → v = clockPointer) ∧
    1 ≤ visited ≤ F + 1 ∧ visited ≤ 2 * F ∧
    Clock.scan (Z.to_nat (2 * F)) F p frames pageToFrame clockPointer 0
    = Done (frames', <[p := v]> (delete (PageFrame.PageID stop) pageToFrame),
            (v + 1) mod F, PageFrame.PageID stop, visited) ∧
    Clock.scan (Clock.scanFuel frames) F p frames pageToFrame clockPointer 0
    = Done (frames', <[p := v]> (delete (PageFrame.PageID stop) pageToFrame),
            (v + 1) mod F, PageFrame.PageID stop, visited) ∧
    length frames' = length frames ∧
    ∀ j, 0 ≤ j < F →
         frames' !! Z.to_nat j = afterScan F clockPointer (Z.of_nat k) v p frames j.
Proof.
  intros HF Hlen Hall Hcp.
  destruct (scan_total F p pageToFrame frames clockPointer 0)
    as (k & fr & frames' & Hk & Href & Hstop & Hfr & Hscan & Hlen' & Hframes); [done..|].
  exists k, fr, frames'. split; [done|]. split; [done|]. split; [done|].
  cbn zeta. split; [done|]. split.
  { intros ->. rewrite <- (Z.mul_1_l F) at 1. rewrite Z.mod_add by lia.
    apply Z.mod_small. lia. }
  split; [lia|]. split; [lia|]. split; [apply Hscan; lia|]. split; [|done].
  apply Hscan. unfold Clock.scanFuel. lia.
Qed.

Lemma clock_fault_handling_witness :
  (Clock.access 3 "IB" (Clock.mk [Some (Clock.fresh "IA"); None; None] {["IA" := 0]} 0 1 {["IA" := 1]} [])
   = Done (Clock.mk [Some (Clock.fresh "IA"); Some (Clock.fresh "IB"); None]
             (<["IB" := 1]> {["IA" := 0]}) 0 (int_add 1 1) (map_incr "IB" {["IA" := 1]}) []))
  ∧ ∃ (k : nat) victim frames',
      Z.of_nat k ≤ 3 ∧
      (∀ m, 0 ≤ m < Z.of_nat k →
         referencedAt (Clock.frames sampleClockState) ((0 + m) mod 3) = true) ∧
      (Z.of_nat k < 3 →
         referencedAt (Clock.frames sampleClockState) ((0 + Z.of_nat k) mod 3) = false) ∧
      let v := (0 + Z.of_nat k) mod 3 in
      Clock.frames sampleClockState !! Z.to_nat v = Some (Some victim) ∧
      length frames' = length (Clock.frames sampleClockState) ∧
      (∀ j, 0 ≤ j < 3 →
         frames' !! Z.to_nat j
         = afterScan 3 0 (Z.of_nat k) v "ID" (Clock.frames sampleClockState) j) ∧
      Clock.access 3 "ID" sampleClockState
      = Done {| Clock.frames := frames';
                Clock.pageToFrame :=
                  <["ID" := v]> (delete (PageFrame.PageID victim)
                                   (Clock.pageToFrame sampleClockState));
                Clock.clockPointer := (v + 1) mod 3;
                Clock.pageFaults := int_add (Clock.pageFaults sampleClockState) 1;
                Clock.loads := map_incr "ID" (Clock.loads sampleClockState);
                Clock.evicted := Clock.evicted sampleClockState
                                 ++ [PageFrame.PageID victim] |}.
Proof.
  split.
  - refine (proj1 (clock_fault_handling 3 "IB"
              (Clock.mk [Some (Clock.fresh "IA"); None; None] {["IA" := 0]} 0 1 {["IA" := 1]} [])
              _ _ _ _) 1%nat _ _).
    + vm_compute. split; discriminate.
    + reflexivity.
    + vm_compute. split; [discriminate | reflexivity].
    + reflexivity.
    + reflexivity.
    + intros [|[|j]] Hj; [discriminate | lia | lia].
  - refine (proj2 (clock_fault_handling 3 "ID" sampleClockState _ _ _ _) _).
    + vm_compute. split; discriminate.
    + reflexivity.
    + vm_compute. split; [discriminate | reflexivity].
    + reflexivity.
    + repeat constructor; by eexists.
Defined.

Lemma clock_scan_terminates_witness :
  ∃ (k : nat) stop frames',
    Z.of_nat k ≤ 3 ∧
    (∀ m, 0 ≤ m < Z.of_nat k →
       referencedAt (Clock.frames sampleClockState) ((0 + m) mod 3) = true) ∧
    (Z.of_nat k < 3 →
       referencedAt (Clock.frames sampleClockState) ((0 + Z.of_nat k) mod 3) = false) ∧
    let v := (0 + Z.of_nat k) mod 3 in
    let visited := Z.of_nat k + 1 in
    Clock.frames sampleClockState !! Z.to_nat v = Some (Some stop) ∧
    (Z.of_nat k = 3 → v = 0) ∧
    1 ≤ visited ≤ 3 + 1 ∧ visited ≤ 2 * 3 ∧
    Clock.scan (Z.to_nat (2 * 3)) 3 "ID" (Clock.frames sampleClockState)
      (Clock.pageToFrame sampleClockState) 0 0
    = Done (frames',
            <["ID" := v]> (delete (PageFrame.PageID stop) (Clock.pageToFrame sampleClockState)),
            (v + 1) mod 3, PageFrame.PageID stop, visited) ∧
    Clock.scan (Clock.scanFuel (Clock.frames sampleClockState)) 3 "ID"
      (Clock.frames sampleClockState) (Clock.pageToFrame sampleClockState) 0 0
    = Done (frames',
            <["ID" := v]> (delete (PageFrame.PageID stop) (Clock.pageToFrame sampleClockState)),
            (v + 1) mod 3, PageFrame.PageID stop, visited) ∧
    length frames' = length (Clock.frames sampleClockState) ∧
    ∀ j, 0 ≤ j < 3 →
         frames' !! Z.to_nat j
         = afterScan 3 0 (Z.of_nat k) v "ID" (Clock.frames sampleClockState) j.
Proof.
  refine (clock_scan_terminates 3 "ID" (Clock.frames sampleClockState)
            (Clock.pageToFrame sampleClockState) 0 _ _ _ _).
  - vm_compute. split; discriminate.
  - reflexivity.
  - repeat constructor; by eexists.
  - vm_compute. split; [discriminate | reflexivity].
Defined.

(** ** The load counter across the two runs of [Run] *)

(** C7, as stated, fails: after [Run] the simulator holds, and reports,
    the load counts of the clock run; the counts of the optimal run were
    replaced before the report. *)
Lemma optimal_counts_replaced :
  measurement (OptimalAlgorithm sampleReportRun)
  = Done (5, {["IA" := 1; "IB" := 1; "IC" := 2; "ID" := 1]})
  ∧ Run sampleReportRun
    = Done ([Banner 12288 4096 3 10 4 "1-5 segundos"; OptimalFaults 5; ClockFaults 8;
             Efficiency 5 8; LoadCountTitle;
             LoadCountOf "IA" 2; LoadCountOf "IB" 2; LoadCountOf "IC" 2; LoadCountOf "ID" 2],
            set_pageLoadCount {["IA" := 2; "IB" := 2; "IC" := 2; "ID" := 2]} sampleReportRun)
  ∧ ¬ (∀ s lines s' n sOpt,
         skipOptimal s = false → Run s = Done (lines, s') →
         OptimalAlgorithm s = Done (n, sOpt) →
         pageLoadCount s' = pageLoadCount sOpt).
Proof.
  assert (Run sampleReportRun
    = Done ([Banner 12288 4096 3 10 4 "1-5 segundos"; OptimalFaults 5; ClockFaults 8;
             Efficiency 5 8; LoadCountTitle;
             LoadCountOf "IA" 2; LoadCountOf "IB" 2; LoadCountOf "IC" 2; LoadCountOf "ID" 2],
            set_pageLoadCount {["IA" := 2; "IB" := 2; "IC" := 2; "ID" := 2]} sampleReportRun))
    as Hrun by (by vm_compute).
  assert (OptimalAlgorithm sampleReportRun
    = Done (5, set_pageLoadCount {["IA" := 1; "IB" := 1; "IC" := 2; "ID" := 1]} sampleReportRun))
    as Hopt by (by vm_compute).
  split; [by rewrite Hopt|]. split; [done|].
  intros Hsame. specialize (Hsame sampleReportRun _ _ _ _ eq_refl Hrun Hopt).
  apply (f_equal (λ m : gmap string Z, m !! "IA")) in Hsame. by vm_compute in Hsame.
Qed.

Lemma Clock_run_no_frames {rt : Runtime} s :
  totalFrames s = 0 → accesses s ≠ [] → Clock.run s = Panic.
Proof.
  intros HF Hne. unfold Clock.run. rewrite HF.
  unfold makeslice. destruct (_ || _); [done|]. cbn [mbind outcome_bind].
  destruct (accesses s) as [|a rest]; [done|]. simpl.
  unfold Clock.access. simpl. by rewrite lookup_empty.
Qed.

Lemma set_pageLoadCount_twice m m' s :
  set_pageLoadCount m (set_pageLoadCount m' s) = set_pageLoadCount m s.
Proof. done. Qed.

(** C7, amended: every policy run starts from an empty load counter, so
    the counts it leaves do not depend on what the counter held before;
    the simulator has one counter, and after [Run] - with at least one
    frame and no more than [make] accepts - it holds, and the report
    shows, the counts of the clock run alone. *)
Theorem load_counter_per_run {rt : Runtime} (s : Simulator) (m : gmap string Z) :
  measurement (OptimalAlgorithm (set_pageLoadCount m s)) = measurement (OptimalAlgorithm s)
  ∧ measurement (ClockAlgorithm (set_pageLoadCount m s)) = measurement (ClockAlgorithm s)
  ∧ (1 ≤ totalFrames s → sizeofString * totalFrames s ≤ maxAlloc → go_values s →
     ∃ lines s' nClock sClock before,
       Run s = Done (lines, s') ∧
       ClockAlgorithm s = Done (nClock, sClock) ∧
       s' = sClock ∧
       lines = before ++ ShowLoadCount sClock ++ EstimatePageTableSize sClock ∧
       Forall (λ l, ∀ page n, l ≠ LoadCountOf page n) before).
Proof.
  split; [done|]. split; [done|]. intros HF Hfit Hgo.
  destruct (Opt_run_faults s HF Hfit Hgo) as (stO & HrunO & _ & _).
  destruct (Clock_run_faults s HF (pointers_fit _ HF Hfit) Hgo) as (stC & HrunC & _ & _).
  assert (∀ m', ClockAlgorithm (set_pageLoadCount m' s)
                = Done (Clock.pageFaults stC, set_pageLoadCount (Clock.loads stC) s)) as HC.
  { intros m'. unfold ClockAlgorithm.
    replace (Clock.run (set_pageLoadCount m' s)) with (Clock.run s) by done.
    by rewrite HrunC. }
  unfold Run. destruct (Z.eqb_spec (totalFrames s) 0) as [|_]; [lia|].
  destruct (skipOptimal s); simpl negb; cbv iota.
  - cbn [mbind outcome_bind].
    replace (ClockAlgorithm s) with (ClockAlgorithm (set_pageLoadCount (pageLoadCount s) s))
      by (by destruct s).
    rewrite HC. cbn [mbind outcome_bind].
    eexists _, _, _, _, [_; _; _; _]. split; [done|]. split; [done|]. split; [done|].
    split; [done|]. repeat constructor; done.
  - unfold OptimalAlgorithm at 1. rewrite HrunO. cbn [mbind outcome_bind].
    rewrite HC. cbn [mbind outcome_bind].
    replace (ClockAlgorithm s) with (ClockAlgorithm (set_pageLoadCount (pageLoadCount s) s))
      by (by destruct s).
    rewrite HC.
    eexists _, _, _, _, [_; _; _; _]. split; [done|]. split; [done|]. split; [done|].
    split; [done|]. repeat constructor; try done.
    destruct (_ && _); [done|]. by destruct (_ =? _).
Qed.

Lemma load_counter_per_run_witness :
  measurement (OptimalAlgorithm (set_pageLoadCount {["IA" := 7]} sampleReportRun))
  = measurement (OptimalAlgorithm sampleReportRun)
  ∧ measurement (ClockAlgorithm (set_pageLoadCount {["IA" := 7]} sampleReportRun))
    = measurement (ClockAlgorithm sampleReportRun)
  ∧ ∃ lines s' nClock sClock before,
      Run sampleReportRun = Done (lines, s') ∧
      ClockAlgorithm sampleReportRun = Done (nClock, sClock) ∧
      s' = sClock ∧
      lines = before ++ ShowLoadCount sClock ++ EstimatePageTableSize sClock ∧
      Forall (λ l, ∀ page n, l ≠ LoadCountOf page n) before.
Proof.
  destruct (load_counter_per_run sampleReportRun {["IA" := 7]}) as (HO & HC & HR).
  split; [exact HO|]. split; [exact HC|]. apply HR.
  - vm_compute. discriminate.
  - vm_compute. discriminate.
  - split; vm_compute; [split; discriminate | discriminate].
Defined.

(** ** Too little memory *)

(** C8: with [totalFrames = 0] [Run] prints the banner and the memory
    error and returns, leaving the simulator as it was: no policy is run
    (on a non-empty trace either of them would have panicked).  [main]
    refuses a memory size below one page before it builds the simulator,
    and a simulator has no frame exactly when its memory is smaller than
    one page. *)
Theorem zero_frames_refused {rt : Runtime} :
  (∀ s : Simulator, totalFrames s = 0 →
     Run s = Done ([Banner (memorySize s) PAGE_SIZE 0 (len (accesses s))
                      (Z.of_nat (size (distinctPages s))) (estimateExecutionTime s);
                    InsufficientMemory PAGE_SIZE], s)
     ∧ (accesses s ≠ [] → OptimalAlgorithm s = Panic ∧ ClockAlgorithm s = Panic))
  ∧ (∀ Atoi LoadAccessFile (args : list string) filename arg memorySize,
       args !! 1%nat = Some filename → args !! 2%nat = Some arg →
       Atoi arg = Some memorySize → memorySize < PAGE_SIZE →
       main Atoi LoadAccessFile args = Done [MemoryTooSmall memorySize])
  ∧ (∀ memorySize, totalFrames (NewSimulator memorySize) = 0
                   ↔ - PAGE_SIZE < memorySize < PAGE_SIZE).
Proof.
  split; [|split].
  - intros s HF. split.
    + unfold Run. rewrite HF. done.
    + intros Hne. unfold OptimalAlgorithm, ClockAlgorithm.
      by rewrite Opt_run_no_frames, Clock_run_no_frames.
  - intros Atoi Load args filename arg m H1 H2 Hatoi Hm. unfold main.
    assert (3 ≤ len args) as Hlen.
    { apply lookup_lt_Some in H2. unfold len. lia. }
    destruct (Z.ltb_spec (len args) 3) as [|_]; [lia|].
    change 1 with (Z.of_nat 1). change 2 with (Z.of_nat 2).
    rewrite (index_Done args 1 _ H1), (index_Done args 2 _ H2). simpl.
    rewrite Hatoi. destruct (Z.ltb_spec m PAGE_SIZE) as [_|]; [done | lia].
  - intros m. unfold NewSimulator, PAGE_SIZE. simpl. split.
    + intros Hq. pose proof (Z.quot_rem' m 4096) as Heq. rewrite Hq in Heq.
      pose proof (Z.rem_bound_abs m 4096). lia.
    + intros Hm. apply Z.quot_small_iff; lia.
Qed.

Lemma zero_frames_refused_witness :
  (Run (simulatorOf 100 sampleTrace)
   = Done ([Banner 100 4096 0 10 4 "1-5 segundos"; InsufficientMemory 4096],
           simulatorOf 100 sampleTrace)
   ∧ OptimalAlgorithm (simulatorOf 100 sampleTrace) = Panic
   ∧ ClockAlgorithm (simulatorOf 100 sampleTrace) = Panic)
  ∧ main (λ _, Some 100) (λ _ s, Some s) ["simulador"; "acessos.txt"; "100"]
    = Done [MemoryTooSmall 100]
  ∧ totalFrames (NewSimulator 100) = 0.
Proof.
  destruct zero_frames_refused as (Hrun & Hmain & Hnew).
  destruct (Hrun (simulatorOf 100 sampleTrace) eq_refl) as [HR HP].
  destruct (HP ltac:(discriminate)) as [HO HC].
  split; [split; [exact HR | split; [exact HO | exact HC]]|].
  split.
  - apply (Hmain (λ _, Some 100) (λ _ s, Some s) ["simulador"; "acessos.txt"; "100"]
             "acessos.txt" "100" 100); reflexivity.
  - apply Hnew. vm_compute. split; reflexivity.
Defined.

(** * Further properties of the code *)

(** ** More consequences for any policy run *)

Section more_run_facts.
Context {P : Type} `{Countable P}.
Implicit Types (x y : view (P := P)) (t : list P).

(** Faults are the pages that came in: those still resident and those
    evicted since. *)
Lemma steps_accounting F V t x y :
  steps F V t x y →
  faults y - faults x
  = Z.of_nat (size (resident y)) - Z.of_nat (size (resident x))
    + Z.of_nat (length (victims y)) - Z.of_nat (length (victims x)).
Proof.
  induction 1 as [x|p rest x y z Hstep _ IH]; [lia|].
  destruct Hstep as [x Hp|x Hp Hlt|x v Hp Hge Hv HV]; simpl in *.
  - done.
  - rewrite size_add in IH by done. lia.
  - rewrite size_add in IH by set_solver.
    pose proof (size_remove _ _ Hv). rewrite length_app in IH. simpl in IH. lia.
Qed.

(** The memory fills up before anything is evicted and stays full. *)
Lemma steps_occupancy F V t x y :
  steps F V t x y → (size (resident x) ≤ F)%nat →
  size (resident y) = (F `min` size (resident x ∪ list_to_set t))%nat.
Proof.
  induction 1 as [x|p rest x y z Hstep _ IH]; intros Hsz.
  - simpl. rewrite union_empty_r_L. lia.
  - specialize (IH (step_size _ _ _ _ _ _ Hstep Hsz)).
    destruct Hstep as [x Hp|x Hp Hlt|x v Hp Hge Hv HV]; simpl in *.
    + rewrite IH. do 2 f_equal. set_solver.
    + rewrite IH. do 2 f_equal. set_solver.
    + rewrite IH.
      assert (size (resident x ∖ {[v]} ∪ {[p]}) = size (resident x)) as Hsame.
      { rewrite size_add by set_solver. by rewrite <- size_remove. }
      assert (size (resident x ∖ {[v]} ∪ {[p]})
              ≤ size (resident x ∖ {[v]} ∪ {[p]} ∪ list_to_set rest))%nat
        by (apply subseteq_size; set_solver).
      assert (size (resident x) ≤ size (resident x ∪ ({[p]} ∪ list_to_set rest)))%nat
        by (apply subseteq_size; set_solver).
      lia.
Qed.

(** Every page of the trace that is not resident at the start faults at
    least once. *)
Lemma steps_cold_faults F V t x y :
  steps F V t x y →
  Z.of_nat (size (list_to_set (C := gset P) t ∖ resident x)) ≤ faults y - faults x.
Proof.
  induction 1 as [x|p rest x y z Hstep _ IH].
  - simpl. replace (∅ ∖ resident x) with (∅ : gset P) by set_solver.
    rewrite size_empty. lia.
  - destruct Hstep as [x Hp|x Hp Hlt|x v Hp Hge Hv HV]; simpl in *.
    + replace (({[p]} ∪ list_to_set rest) ∖ resident x)
        with (list_to_set (C := gset P) rest ∖ resident x) by set_solver. done.
    + assert (size (({[p]} ∪ list_to_set rest) ∖ resident x)
              ≤ size ({[p]} ∪ list_to_set (C := gset P) rest ∖ (resident x ∪ {[p]})))%nat.
      { apply subseteq_size. intros q. destruct (decide (q = p)); set_solver. }
      pose proof (size_union_alt ({[p]} : gset P)
                    (list_to_set rest ∖ (resident x ∪ {[p]}))) as Hu.
      assert (size ((list_to_set rest ∖ (resident x ∪ {[p]})) ∖ {[p]})
              ≤ size (list_to_set (C := gset P) rest ∖ (resident x ∪ {[p]})))%nat
        by (apply subseteq_size; set_solver).
      rewrite size_singleton in Hu. lia.
    + assert (size (({[p]} ∪ list_to_set rest) ∖ resident x)
              ≤ size ({[p]} ∪ list_to_set (C := gset P) rest
                               ∖ (resident x ∖ {[v]} ∪ {[p]})))%nat.
      { apply subseteq_size. intros q. destruct (decide (q = p)); set_solver. }
      pose proof (size_union_alt ({[p]} : gset P)
                    (list_to_set rest ∖ (resident x ∖ {[v]} ∪ {[p]}))) as Hu.
      assert (size ((list_to_set rest ∖ (resident x ∖ {[v]} ∪ {[p]})) ∖ {[p]})
              ≤ size (list_to_set (C := gset P) rest ∖ (resident x ∖ {[v]} ∪ {[p]})))%nat
        by (apply subseteq_size; set_solver).
      rewrite size_singleton in Hu. lia.
Qed.

(** The load counter has an entry, of at least one, for exactly the pages
    that were resident-and-counted before or occur in the trace. *)
Lemma steps_load_keys F V t x y :
  steps F V t x y →
  resident x ⊆ dom (loadmap x) → map_Forall (λ _ v, 1 ≤ v) (loadmap x) →
  dom (loadmap y) = dom (loadmap x) ∪ list_to_set t
  ∧ resident y ⊆ dom (loadmap y)
  ∧ map_Forall (λ _ v, 1 ≤ v) (loadmap y).
Proof.
  induction 1 as [x|p rest x y z Hstep _ IH]; intros Hres Hpos.
  - simpl. split; [set_solver|]. done.
  - assert (map_Forall (λ _ v, 1 ≤ v) (bump p (loadmap x))) as Hbump.
    { unfold bump. apply map_Forall_insert_2; [|done].
      destruct (loadmap x !! p) as [v|] eqn:Hv; simpl; [|lia].
      specialize (Hpos p v Hv). simpl in Hpos. lia. }
    destruct Hstep as [x Hp|x Hp Hlt|x v Hp Hge Hv HV]; simpl in *.
    + destruct (IH Hres Hpos) as (Hdom & Hres' & Hpos'). split; [set_solver|]. done.
    + destruct IH as (Hdom & Hres' & Hpos'); [unfold bump; rewrite dom_insert_L; set_solver | done |].
      unfold bump in Hdom. rewrite dom_insert_L in Hdom. split; [set_solver|]. done.
    + destruct IH as (Hdom & Hres' & Hpos'); [unfold bump; rewrite dom_insert_L; set_solver | done |].
      unfold bump in Hdom. rewrite dom_insert_L in Hdom. split; [set_solver|]. done.
Qed.

(** With one frame there is no choice of victim: the run is determined
    by the trace. *)
Lemma steps_one_frame V V' t x y y' :
  steps 1 V t x y → steps 1 V' t x y' → (size (resident x) ≤ 1)%nat → y = y'.
Proof.
  intros Hs. revert y'.
  induction Hs as [x|p rest x y z Hstep _ IH]; intros y' Hs' Hsz.
  - by inversion Hs'.
  - inversion Hs' as [|? ? ? y2 ? Hstep' Hrest']; subst.
    assert (y = y2) as <-; [|apply IH; [done|by eapply step_size]].
    destruct Hstep as [x Hp|x Hp Hlt|x v Hp Hge Hv HV];
      inversion Hstep' as [? Hp'|? Hp' Hlt'|? v' Hp' Hge' Hv' HV']; subst;
      try done; try lia.
    assert (v = v') as ->; [|done].
    assert (size (resident x) = 1)%nat as H1 by lia.
    apply size_1_elem_of in H1 as [w Hw].
    apply Hw, elem_of_singleton in Hv. apply Hw, elem_of_singleton in Hv'. congruence.
Qed.

End more_run_facts.


(** ** More about the two policies *)

Lemma size_list_to_set_le (l : list string) :
  (size (list_to_set (C := gset string) l) ≤ length l)%nat.
Proof.
  induction l as [|q l IH].
  - change (size (∅ : gset string) ≤ 0)%nat. by rewrite size_empty.
  - rewrite list_to_set_cons. simpl length.
    pose proof (size_union_alt ({[q]} : gset string) (list_to_set l)) as Hu.
    rewrite size_singleton in Hu.
    assert (size (list_to_set l ∖ {[q]}) ≤ size (list_to_set (C := gset string) l))%nat
      by (apply subseteq_size; set_solver).
    lia.
Qed.

Lemma distinct_size_le accs : Z.of_nat (size (distinct accs)) ≤ len accs.
Proof.
  unfold distinct, len. pose proof (size_list_to_set_le (pages accs)) as Hle.
  unfold pages in Hle at 2. rewrite length_map in Hle. lia.
Qed.

Lemma view0_fields :
  resident view0 = (∅ : gset string) ∧ faults view0 = 0
  ∧ loadmap view0 = (∅ : gmap string Z) ∧ victims view0 = ([] : list string).
Proof. done. Qed.

Ltac run_views :=
  destruct view0_fields as (Hres0 & Hfaults0 & Hloads0 & Hvictims0);
  unfold Opt_view, Clock_view in *;
  cbn [resident faults loadmap victims] in *;
  rewrite ?Hres0, ?Hfaults0, ?Hloads0, ?Hvictims0 in *;
  clear Hres0 Hfaults0 Hloads0 Hvictims0.

(** X1: every distinct page of the trace faults at least once and no
    access faults twice: with at least one frame and no more than [make]
    accepts, each policy returns a count between the number of distinct
    pages and the length of the trace. *)
Theorem fault_count_bounds {rt : Runtime} (s : Simulator) :
  1 ≤ totalFrames s → sizeofString * totalFrames s ≤ maxAlloc → go_values s →
  ∃ nOpt sOpt nClock sClock,
    OptimalAlgorithm s = Done (nOpt, sOpt) ∧
    ClockAlgorithm s = Done (nClock, sClock) ∧
    Z.of_nat (size (distinct (accesses s))) ≤ nOpt ≤ len (accesses s) ∧
    Z.of_nat (size (distinct (accesses s))) ≤ nClock ≤ len (accesses s).
Proof.
  intros HF Hfit Hgo.
  destruct (Opt_run_faults s HF Hfit Hgo) as (stO & HrunO & _ & HstepsO).
  destruct (Clock_run_faults s HF (pointers_fit _ HF Hfit) Hgo) as (stC & HrunC & _ & HstepsC).
  pose proof (steps_cold_faults _ _ _ _ _ HstepsO) as HloO.
  pose proof (steps_cold_faults _ _ _ _ _ HstepsC) as HloC.
  pose proof (steps_faults _ _ _ _ _ HstepsO) as HhiO.
  pose proof (steps_faults _ _ _ _ _ HstepsC) as HhiC.
  run_views. rewrite difference_empty_L in HloO, HloC.
  unfold len in *. unfold pages in HhiO, HhiC. rewrite length_map in HhiO, HhiC.
  unfold OptimalAlgorithm, ClockAlgorithm. rewrite HrunO, HrunC. simpl.
  do 4 eexists. split; [done|]. split; [done|]. unfold distinct. lia.
Qed.

Lemma fault_count_bounds_witness :
  ∃ nOpt sOpt nClock sClock,
    OptimalAlgorithm (simulatorOf 12288 sampleTrace) = Done (nOpt, sOpt) ∧
    ClockAlgorithm (simulatorOf 12288 sampleTrace) = Done (nClock, sClock) ∧
    Z.of_nat (size (distinct (accesses (simulatorOf 12288 sampleTrace)))) ≤ nOpt
      ≤ len (accesses (simulatorOf 12288 sampleTrace)) ∧
    Z.of_nat (size (distinct (accesses (simulatorOf 12288 sampleTrace)))) ≤ nClock
      ≤ len (accesses (simulatorOf 12288 sampleTrace)).
Proof.
  apply (fault_count_bounds (simulatorOf 12288 sampleTrace)).
  - vm_compute. discriminate.
  - vm_compute. discriminate.
  - apply go_values_simulatorOf; [vm_compute; split; discriminate | vm_compute; discriminate].
Defined.

(** X2: with at least one frame and no more than [make] accepts, after
    either policy the load counter has an entry for exactly the pages of
    the trace, and every entry is at least 1. *)
Theorem load_counter_keys {rt : Runtime} (s : Simulator) :
  1 ≤ totalFrames s → sizeofString * totalFrames s ≤ maxAlloc → go_values s →
  ∃ nOpt sOpt nClock sClock,
    OptimalAlgorithm s = Done (nOpt, sOpt) ∧
    ClockAlgorithm s = Done (nClock, sClock) ∧
    dom (pageLoadCount sOpt) = distinct (accesses s) ∧
    dom (pageLoadCount sClock) = distinct (accesses s) ∧
    map_Forall (λ _ n, 1 ≤ n) (pageLoadCount sOpt) ∧
    map_Forall (λ _ n, 1 ≤ n) (pageLoadCount sClock).
Proof.
  intros HF Hfit Hgo.
  destruct (Opt_run_faults s HF Hfit Hgo) as (stO & HrunO & _ & HstepsO).
  destruct (Clock_run_faults s HF (pointers_fit _ HF Hfit) Hgo) as (stC & HrunC & _ & HstepsC).
  apply steps_load_keys in HstepsO as (HdO & _ & HpO);
    [|by intros ? ?%elem_of_empty | apply map_Forall_empty].
  apply steps_load_keys in HstepsC as (HdC & _ & HpC);
    [|by intros ? ?%elem_of_empty | apply map_Forall_empty].
  run_views. rewrite dom_empty_L, union_empty_l_L in HdO, HdC.
  unfold OptimalAlgorithm, ClockAlgorithm. rewrite HrunO, HrunC. simpl.
  do 4 eexists. split; [done|]. split; [done|]. done.
Qed.

Lemma load_counter_keys_witness :
  ∃ nOpt sOpt nClock sClock,
    OptimalAlgorithm (simulatorOf 12288 sampleTrace) = Done (nOpt, sOpt) ∧
    ClockAlgorithm (simulatorOf 12288 sampleTrace) = Done (nClock, sClock) ∧
    dom (pageLoadCount sOpt) = distinct (accesses (simulatorOf 12288 sampleTrace)) ∧
    dom (pageLoadCount sClock) = distinct (accesses (simulatorOf 12288 sampleTrace)) ∧
    map_Forall (λ _ n, 1 ≤ n) (pageLoadCount sOpt) ∧
    map_Forall (λ _ n, 1 ≤ n) (pageLoadCount sClock).
Proof.
  apply (load_counter_keys (simulatorOf 12288 sampleTrace)).
  - vm_compute. discriminate.
  - vm_compute. discriminate.
  - apply go_values_simulatorOf; [vm_compute; split; discriminate | vm_compute; discriminate].
Defined.

(** X3: with at least one frame and no more than [make] accepts,
    [OptimalAlgorithm] returns, and then no page is in two frames, the
    [inMemory] map has exactly the pages of the frames, the frames in use
    are as many as the distinct pages allow, and every fault is accounted
    for by a page still in a frame or by an eviction. *)
Theorem optimal_final_state {rt : Runtime} (s : Simulator) :
  1 ≤ totalFrames s → sizeofString * totalFrames s ≤ maxAlloc → go_values s →
  ∃ st, Opt.run s = Done st ∧
    NoDup (Opt.frames st) ∧
    (∀ q, is_Some (Opt.inMemory st !! q) ↔ q ∈ Opt.frames st) ∧
    len (Opt.frames st)
    = Z.min (totalFrames s) (Z.of_nat (size (distinct (accesses s)))) ∧
    Opt.pageFaults st = len (Opt.frames st) + len (Opt.evicted st) ∧
    (∀ q, q ∈ Opt.frames st → q ∈ pages (accesses s)).
Proof.
  intros HF Hfit Hgo.
  destruct (Opt_run_steps s HF Hfit Hgo) as (st & Hrun & (Hnd & Hmem & _) & Hsteps).
  exists st. split; [done|]. split; [done|]. split; [done|].
  pose proof (steps_occupancy _ _ _ _ _ Hsteps (view0_size _)) as Hocc.
  pose proof (steps_accounting _ _ _ _ _ Hsteps) as Hacc.
  pose proof (steps_load_keys _ _ _ _ _ Hsteps) as Hkeys.
  run_views. rewrite union_empty_l_L in Hocc.
  rewrite size_empty in Hacc. rewrite size_list_to_set in Hocc, Hacc by done.
  unfold len, distinct. split; [lia|]. split; [simpl in Hacc; lia|].
  destruct Hkeys as (Hdom & Hres & _); [by intros ? ?%elem_of_empty | apply map_Forall_empty |].
  rewrite dom_empty_L, union_empty_l_L in Hdom.
  intros q Hq. apply (elem_of_list_to_set (C := gset string)). rewrite <- Hdom.
  apply Hres. by apply elem_of_list_to_set.
Qed.

Lemma optimal_final_state_witness :
  ∃ st, Opt.run (simulatorOf 12288 sampleTrace) = Done st ∧
    NoDup (Opt.frames st) ∧
    (∀ q, is_Some (Opt.inMemory st !! q) ↔ q ∈ Opt.frames st) ∧
    len (Opt.frames st)
    = Z.min (totalFrames (simulatorOf 12288 sampleTrace))
        (Z.of_nat (size (distinct (accesses (simulatorOf 12288 sampleTrace))))) ∧
    Opt.pageFaults st = len (Opt.frames st) + len (Opt.evicted st) ∧
    (∀ q, q ∈ Opt.frames st → q ∈ pages (accesses (simulatorOf 12288 sampleTrace))).
Proof.
  apply (optimal_final_state (simulatorOf 12288 sampleTrace)).
  - vm_compute. discriminate.
  - vm_compute. discriminate.
  - apply go_values_simulatorOf; [vm_compute; split; discriminate | vm_compute; discriminate].
Defined.

(** X4: with at least one frame and no more than [make] accepts,
    [ClockAlgorithm] returns, and then the hand is a frame index, the
    page table maps a page to a frame exactly when that frame holds the
    page (so no page is in two frames), the occupied frames are the first
    ones and as many as the distinct pages allow, and every fault is
    accounted for by a resident page or by an eviction. *)
Theorem clock_final_state {rt : Runtime} (s : Simulator) :
  1 ≤ totalFrames s → sizeofPointer * totalFrames s ≤ maxAlloc → go_values s →
  ∃ st, Clock.run s = Done st ∧
    len (Clock.frames st) = totalFrames s ∧
    0 ≤ Clock.clockPointer st < totalFrames s ∧
    table_agrees (Clock.pageToFrame st) (Clock.frames st) ∧
    (∀ (j j' : nat) q, pageAt (Clock.frames st) j = Some q →
       pageAt (Clock.frames st) j' = Some q → j = j') ∧
    (∀ j : nat, is_Some (pageAt (Clock.frames st) j)
                ↔ (j < size (Clock.pageToFrame st))%nat) ∧
    Z.of_nat (size (Clock.pageToFrame st))
    = Z.min (totalFrames s) (Z.of_nat (size (distinct (accesses s)))) ∧
    Clock.pageFaults st
    = Z.of_nat (size (Clock.pageToFrame st)) + len (Clock.evicted st).
Proof.
  intros HF Hfit Hgo.
  destruct (Clock_run_steps s HF Hfit Hgo)
    as (st & Hrun & (Hlen & Hcp & Hagree & Hsz & Hfill & _) & Hsteps).
  exists st. split; [done|]. split; [unfold len; lia|]. split; [done|]. split; [done|].
  pose proof (steps_occupancy _ _ _ _ _ Hsteps (view0_size _)) as Hocc.
  pose proof (steps_accounting _ _ _ _ _ Hsteps) as Hacc.
  run_views. rewrite union_empty_l_L in Hocc.
  rewrite size_empty in Hacc. rewrite size_dom in Hocc, Hacc.
  split.
  { intros j j' q Hj Hj'.
    assert (Clock.pageToFrame st !! q = Some (Z.of_nat j)) as H1
      by (apply Hagree; rewrite Nat2Z.id; split; [lia | done]).
    assert (Clock.pageToFrame st !! q = Some (Z.of_nat j')) as H2
      by (apply Hagree; rewrite Nat2Z.id; split; [lia | done]).
    rewrite H1 in H2. simplify_eq. lia. }
  split.
  { intros j. destruct (decide (j < length (Clock.frames st))%nat) as [Hj|Hj].
    - by apply Hfill.
    - split; [|lia]. unfold pageAt. rewrite (proj2 (lookup_ge_None _ _)) by lia.
      by intros [? ?]. }
  unfold len, distinct. simpl in Hacc. split; lia.
Qed.

Lemma clock_final_state_witness :
  ∃ st, Clock.run (simulatorOf 12288 sampleTrace) = Done st ∧
    len (Clock.frames st) = totalFrames (simulatorOf 12288 sampleTrace) ∧
    0 ≤ Clock.clockPointer st < totalFrames (simulatorOf 12288 sampleTrace) ∧
    table_agrees (Clock.pageToFrame st) (Clock.frames st) ∧
    (∀ (j j' : nat) q, pageAt (Clock.frames st) j = Some q →
       pageAt (Clock.frames st) j' = Some q → j = j') ∧
    (∀ j : nat, is_Some (pageAt (Clock.frames st) j)
                ↔ (j < size (Clock.pageToFrame st))%nat) ∧
    Z.of_nat (size (Clock.pageToFrame st))
    = Z.min (totalFrames (simulatorOf 12288 sampleTrace))
        (Z.of_nat (size (distinct (accesses (simulatorOf 12288 sampleTrace))))) ∧
    Clock.pageFaults st
    = Z.of_nat (size (Clock.pageToFrame st)) + len (Clock.evicted st).
Proof.
  apply (clock_final_state (simulatorOf 12288 sampleTrace)).
  - vm_compute. discriminate.
  - vm_compute. discriminate.
  - apply go_values_simulatorOf; [vm_compute; split; discriminate | vm_compute; discriminate].
Defined.

(** X5: with a single frame the two policies cannot differ: they return
    the same fault count, leave the same load counts and evict the same
    pages in the same order (on the runtime [go64], which never refuses
    one frame). *)
Theorem one_frame_policies_agree (s : Simulator) :
  totalFrames s = 1 → go_values s →
  ∃ stOpt stClock,
    Opt.run s = Done stOpt ∧ Clock.run s = Done stClock ∧
    Opt.evicted stOpt = Clock.evicted stClock ∧
    measurement (OptimalAlgorithm s) = measurement (ClockAlgorithm s).
Proof.
  intros HF Hgo.
  assert (sizeofString * totalFrames s ≤ maxAlloc) as HfitO by (by rewrite HF).
  assert (sizeofPointer * totalFrames s ≤ maxAlloc) as HfitC by (by rewrite HF).
  destruct (Opt_run_faults s ltac:(lia) HfitO Hgo) as (stO & HrunO & _ & HstepsO).
  destruct (Clock_run_faults s ltac:(lia) HfitC Hgo) as (stC & HrunC & _ & HstepsC).
  rewrite HF in HstepsO, HstepsC.
  pose proof (steps_one_frame _ _ _ _ _ _ HstepsO HstepsC (view0_size _)) as Heq.
  unfold Opt_view, Clock_view in Heq. injection Heq as _ Hf Hl Hv.
  exists stO, stC. split; [done|]. split; [done|]. split; [done|].
  unfold OptimalAlgorithm, ClockAlgorithm. rewrite HrunO, HrunC. simpl.
  by rewrite Hf, Hl.
Qed.

Lemma one_frame_policies_agree_witness :
  ∃ stOpt stClock,
    Opt.run (simulatorOf 4096 sampleTrace) = Done stOpt ∧
    Clock.run (simulatorOf 4096 sampleTrace) = Done stClock ∧
    Opt.evicted stOpt = Clock.evicted stClock ∧
    measurement (OptimalAlgorithm (simulatorOf 4096 sampleTrace))
    = measurement (ClockAlgorithm (simulatorOf 4096 sampleTrace)).
Proof.
  apply (one_frame_policies_agree (simulatorOf 4096 sampleTrace)).
  - reflexivity.
  - apply go_values_simulatorOf; [vm_compute; split; discriminate | vm_compute; discriminate].
Defined.

(** X6: the count [OptimalAlgorithm] returns (with at least one frame
    and no more than [make] accepts) is the least number of faults of any
    schedule with that many frames: it is the cost of a schedule, and no
    schedule costs less. *)
Theorem optimal_is_minimum {rt : Runtime} (s : Simulator) :
  1 ≤ totalFrames s → sizeofString * totalFrames s ≤ maxAlloc → go_values s →
  ∃ nOpt sOpt,
    OptimalAlgorithm s = Done (nOpt, sOpt) ∧ 0 ≤ nOpt ∧
    Serves (Z.to_nat (totalFrames s)) ∅ (pages (accesses s)) (Z.to_nat nOpt) ∧
    ∀ m, Serves (Z.to_nat (totalFrames s)) ∅ (pages (accesses s)) m → nOpt ≤ Z.of_nat m.
Proof.
  intros HF Hfit Hgo.
  destruct (Opt_run_faults s HF Hfit Hgo) as (st & Hrun & Hpos & Hsteps).
  unfold OptimalAlgorithm. rewrite Hrun. simpl.
  do 2 eexists. split; [done|]. split; [done|]. split.
  - pose proof (steps_Serves _ _ _ _ _ Hsteps (view0_size _)) as Hserves.
    run_views. by rewrite Z.sub_0_r in Hserves.
  - intros m Hm.
    pose proof (steps_farthest_optimal _ _ _ _ Hsteps m (view0_size _) Hm) as Hopt.
    run_views. lia.
Qed.

Lemma optimal_is_minimum_witness :
  ∃ nOpt sOpt,
    OptimalAlgorithm (simulatorOf 12288 sampleTrace) = Done (nOpt, sOpt) ∧ 0 ≤ nOpt ∧
    Serves (Z.to_nat (totalFrames (simulatorOf 12288 sampleTrace))) ∅
      (pages (accesses (simulatorOf 12288 sampleTrace))) (Z.to_nat nOpt) ∧
    ∀ m, Serves (Z.to_nat (totalFrames (simulatorOf 12288 sampleTrace))) ∅
           (pages (accesses (simulatorOf 12288 sampleTrace))) m → nOpt ≤ Z.of_nat m.
Proof.
  apply (optimal_is_minimum (simulatorOf 12288 sampleTrace)).
  - vm_compute. discriminate.
  - vm_compute. discriminate.
  - apply go_values_simulatorOf; [vm_compute; split; discriminate | vm_compute; discriminate].
Defined.


(** ** The position table, entry by entry *)

Lemma positionsOf_elem q : ∀ accs start v,
  v ∈ positionsOf q start accs
  ↔ start ≤ v ∧ PageAccess.PageID <$> accs !! Z.to_nat (v - start) = Some q.
Proof.
  induction accs as [|a accs IH]; intros start v; simpl.
  - rewrite elem_of_nil. split; [done | by intros [_ ?]].
  - assert (v ∈ positionsOf q (start + 1) accs
            ↔ start < v ∧ PageAccess.PageID <$> (a :: accs) !! Z.to_nat (v - start) = Some q)
      as Htail.
    { rewrite IH. split; intros [Hv Hq]; (split; [lia|]).
      - replace (Z.to_nat (v - start)) with (S (Z.to_nat (v - (start + 1)))) by lia. done.
      - replace (Z.to_nat (v - start)) with (S (Z.to_nat (v - (start + 1)))) in Hq by lia.
        done. }
    destruct (decide (PageAccess.PageID a = q)) as [Ha|Ha].
    + rewrite elem_of_cons, Htail. split.
      * intros [->|[Hv Hq]]; [|split; [lia | done]].
        split; [lia|]. rewrite Z.sub_diag. simpl. by rewrite Ha.
      * intros [Hv Hq]. destruct (decide (v = start)) as [|Hne]; [by left|].
        right. split; [lia | done].
    + rewrite Htail. split; [intros [Hv Hq]; split; [lia | done]|].
      intros [Hv Hq]. split; [|done].
      destruct (decide (v = start)) as [->|]; [|lia].
      rewrite Z.sub_diag in Hq. simpl in Hq. congruence.
Qed.

Lemma positionsOf_sorted q : ∀ accs start, StronglySorted Z.lt (positionsOf q start accs).
Proof.
  induction accs as [|a accs IH]; intros start; simpl; [constructor|].
  destruct (decide _); [|apply IH].
  constructor; [apply IH|].
  eapply Forall_impl; [apply positionsOf_bounds|]. simpl. intros v ?. lia.
Qed.

Lemma recordPositions_None q : ∀ accs i m,
  recordPositions i accs m !! q = None ↔ m !! q = None ∧ q ∉ pages accs.
Proof.
  induction accs as [|a accs IH]; intros i m; simpl.
  - split; [intros ?; split; [done | apply not_elem_of_nil] | by intros [? _]].
  - rewrite IH, not_elem_of_cons. destruct (decide (PageAccess.PageID a = q)) as [<-|Hne].
    + rewrite lookup_insert_eq. split; [by intros [? _] | by intros (_ & ? & _)].
    + rewrite lookup_insert_ne by done. split.
      * intros [? ?]. split; [done|]. split; [congruence | done].
      * intros (? & _ & ?). done.
Qed.

(** X7: the table the optimal policy builds holds, for every page, the
    positions of the trace where the page is accessed, and only those, in
    increasing order (what the binary search needs); a page that is not in
    the trace has no entry. *)
Theorem position_table (accs : list PageAccess.t) (q : string) :
  (∀ v, v ∈ default [] (recordPositions 0 accs ∅ !! q)
        ↔ 0 ≤ v ∧ PageAccess.PageID <$> accs !! Z.to_nat v = Some q)
  ∧ StronglySorted Z.lt (default [] (recordPositions 0 accs ∅ !! q))
  ∧ (recordPositions 0 accs ∅ !! q = None ↔ q ∉ pages accs)
  ∧ recordPositions 0 accs ∅ !! q ≠ Some [].
Proof.
  rewrite recordPositions_lookup, lookup_empty. simpl.
  split; [|split; [|split]].
  - intros v. rewrite positionsOf_elem. by rewrite Z.sub_0_r.
  - apply positionsOf_sorted.
  - rewrite recordPositions_None, lookup_empty. split; [by intros [_ ?] | done].
  - intros Hnil.
    assert (q ∈ pages accs) as Hq.
    { destruct (decide (q ∈ pages accs)) as [|Hn]; [done|].
      assert (recordPositions 0 accs ∅ !! q = None) as Hnone
        by (apply recordPositions_None; by rewrite lookup_empty).
      congruence. }
    pose proof (recordPositions_lookup q accs 0 ∅) as Hl.
    rewrite Hnil, lookup_empty in Hl. simpl in Hl.
    pose proof (positionsOf_first q accs 0) as Hfirst.
    destruct (firstOcc q (pages accs)) as [k|] eqn:Hk.
    + destruct Hfirst as [tl Htl]. congruence.
    + apply firstOcc_None in Hk. done.
Qed.

(** ** The trace matters through its page identifiers only *)

Lemma recordPositions_pages : ∀ accs accs' i m,
  pages accs = pages accs' → recordPositions i accs m = recordPositions i accs' m.
Proof.
  induction accs as [|a accs IH]; intros [|a' accs'] i m Hp; simpl in *; try done.
  injection Hp as Ha Hp. rewrite Ha. by apply IH.
Qed.

Lemma Opt_loop_pages F table : ∀ accs accs' i st,
  pages accs = pages accs' → Opt.loop F table i accs st = Opt.loop F table i accs' st.
Proof.
  induction accs as [|a accs IH]; intros [|a' accs'] i st Hp; simpl in *; try done.
  injection Hp as Ha Hp. rewrite Ha.
  destruct (Opt.access F table i (PageAccess.PageID a') st); simpl; [|done..].
  by apply IH.
Qed.

Lemma Clock_loop_pages F : ∀ accs accs' st,
  pages accs = pages accs' → Clock.loop F accs st = Clock.loop F accs' st.
Proof.
  induction accs as [|a accs IH]; intros [|a' accs'] st Hp; simpl in *; try done.
  injection Hp as Ha Hp. rewrite Ha.
  destruct (Clock.access F (PageAccess.PageID a') st); simpl; [|done..].
  by apply IH.
Qed.

(** X8: the [Type] field of the access records (instruction or data)
    plays no part in either policy: two traces with the same page
    identifiers give the same fault counts and load counts. *)
Theorem access_type_irrelevant {rt : Runtime} (s s' : Simulator) :
  pages (accesses s) = pages (accesses s') → totalFrames s = totalFrames s' →
  measurement (OptimalAlgorithm s) = measurement (OptimalAlgorithm s')
  ∧ measurement (ClockAlgorithm s) = measurement (ClockAlgorithm s').
Proof.
  intros Hp HF.
  assert (Opt.run s = Opt.run s') as HO.
  { unfold Opt.run. rewrite HF.
    destruct (makeslice sizeofString 0 (totalFrames s')); cbn [mbind outcome_bind]; [|done..].
    rewrite (recordPositions_pages _ _ 0 ∅ Hp). by apply Opt_loop_pages. }
  assert (Clock.run s = Clock.run s') as HC.
  { unfold Clock.run. rewrite HF.
    destruct (makeslice sizeofPointer (totalFrames s') (totalFrames s'));
      cbn [mbind outcome_bind]; [|done..].
    by apply Clock_loop_pages. }
  unfold OptimalAlgorithm, ClockAlgorithm, measurement. rewrite HO, HC.
  split; [by destruct (Opt.run s') | by destruct (Clock.run s')].
Qed.

Lemma access_type_irrelevant_witness :
  measurement (OptimalAlgorithm (simulatorOf 12288 sampleTrace))
  = measurement (OptimalAlgorithm
      (set_trace ((λ p, PageAccess.mk p "D") <$> sampleTrace) ∅ (simulatorOf 12288 sampleTrace)))
  ∧ measurement (ClockAlgorithm (simulatorOf 12288 sampleTrace))
    = measurement (ClockAlgorithm
        (set_trace ((λ p, PageAccess.mk p "D") <$> sampleTrace) ∅ (simulatorOf 12288 sampleTrace))).
Proof.
  apply (access_type_irrelevant (simulatorOf 12288 sampleTrace)
           (set_trace ((λ p, PageAccess.mk p "D") <$> sampleTrace) ∅
              (simulatorOf 12288 sampleTrace))); reflexivity.
Defined.

(** ** Edge cases of the two policies *)

(** X9: the frame counts [make] refuses, and the empty trace.  A
    negative number of frames, or more frames than the runtime gives to
    one slice, stops a policy before it reads the trace.  The only check
    [Run] makes is [totalFrames == 0], so [Run] stops with the policy it
    runs first: with the optimal policy as soon as the frames, as
    strings, are refused, with [skipOptimal] when they are as pointers.
    On an empty trace and a number of frames [make] accepts, zero
    included, both policies return 0 and leave an empty load counter. *)
Theorem policies_edge_cases {rt : Runtime} (s : Simulator) :
  (totalFrames s < 0 ∨ maxAlloc < sizeofString * totalFrames s →
   OptimalAlgorithm s = Panic
   ∧ (totalFrames s ≠ 0 → skipOptimal s = false → Run s = Panic))
  ∧ (totalFrames s < 0 ∨ maxAlloc < sizeofPointer * totalFrames s →
     ClockAlgorithm s = Panic ∧ (totalFrames s ≠ 0 → Run s = Panic))
  ∧ (accesses s = [] → 0 ≤ totalFrames s → sizeofString * totalFrames s ≤ maxAlloc →
     OptimalAlgorithm s = Done (0, set_pageLoadCount ∅ s)
     ∧ ClockAlgorithm s = Done (0, set_pageLoadCount ∅ s)).
Proof.
  assert (totalFrames s < 0 ∨ maxAlloc < sizeofString * totalFrames s →
          OptimalAlgorithm s = Panic) as HO.
  { intros HF. unfold OptimalAlgorithm, Opt.run. by rewrite makeslice_Panic. }
  assert (totalFrames s < 0 ∨ maxAlloc < sizeofPointer * totalFrames s →
          ClockAlgorithm s = Panic) as HC.
  { intros HF. unfold ClockAlgorithm, Clock.run. by rewrite makeslice_Panic. }
  split; [|split].
  - intros HF. split; [by apply HO|]. intros H0 Hskip. unfold Run.
    destruct (Z.eqb_spec (totalFrames s) 0) as [|_]; [done|].
    rewrite Hskip. cbn [negb]. by rewrite (HO HF).
  - intros HF. split; [by apply HC|]. intros H0. unfold Run.
    destruct (Z.eqb_spec (totalFrames s) 0) as [|_]; [done|].
    destruct (skipOptimal s); cbn [negb].
    + cbn [mbind outcome_bind mret outcome_ret]. by rewrite (HC HF).
    + rewrite HO; [done|]. unfold sizeofString, sizeofPointer in *. lia.
  - intros Hacc HF Hfit. unfold OptimalAlgorithm, ClockAlgorithm, Opt.run, Clock.run.
    rewrite !makeslice_Done, Hacc; [done | lia | | lia | done].
    unfold sizeofString, sizeofPointer in *. lia.
Qed.

Lemma policies_edge_cases_witness :
  (OptimalAlgorithm (simulatorOf (2 ^ 62) sampleTrace) = Panic
   ∧ (totalFrames (simulatorOf (2 ^ 62) sampleTrace) ≠ 0 →
      skipOptimal (simulatorOf (2 ^ 62) sampleTrace) = false →
      Run (simulatorOf (2 ^ 62) sampleTrace) = Panic))
  ∧ (ClockAlgorithm (simulatorOf (-8192) sampleTrace) = Panic
     ∧ (totalFrames (simulatorOf (-8192) sampleTrace) ≠ 0 →
        Run (simulatorOf (-8192) sampleTrace) = Panic))
  ∧ (OptimalAlgorithm (NewSimulator 100) = Done (0, set_pageLoadCount ∅ (NewSimulator 100))
     ∧ ClockAlgorithm (NewSimulator 100) = Done (0, set_pageLoadCount ∅ (NewSimulator 100))).
Proof.
  split; [|split].
  - apply (proj1 (policies_edge_cases (simulatorOf (2 ^ 62) sampleTrace))).
    right. reflexivity.
  - apply (proj1 (proj2 (policies_edge_cases (simulatorOf (-8192) sampleTrace)))).
    left. reflexivity.
  - apply (proj2 (proj2 (policies_edge_cases (NewSimulator 100))));
      [reflexivity | discriminate | discriminate].
Defined.


(** ** What [Run] prints *)

Lemma set_pageLoadCount_same s : set_pageLoadCount (pageLoadCount s) s = s.
Proof. by destruct s. Qed.

Lemma ClockAlgorithm_any_counter {rt : Runtime} s m :
  ClockAlgorithm (set_pageLoadCount m s) = ClockAlgorithm s.
Proof. done. Qed.

(** X10: with at least one frame and no more than [make] accepts, a
    non-empty trace and the optimal policy not skipped, [Run] runs both policies and prints their two
    counts and the efficiency computed from them, the optimal count being
    at least 1 and at most the clock count (so the efficiency is a
    percentage in (0, 100]); the load-count and page-table reports that
    follow are those of the simulator the clock run returns. *)
Theorem run_reports_both {rt : Runtime} (s : Simulator) :
  1 ≤ totalFrames s → sizeofString * totalFrames s ≤ maxAlloc → go_values s →
  accesses s ≠ [] → skipOptimal s = false →
  ∃ nOpt sOpt nClock sClock,
    OptimalAlgorithm s = Done (nOpt, sOpt) ∧
    ClockAlgorithm s = Done (nClock, sClock) ∧
    1 ≤ nOpt ≤ nClock ∧
    Run s = Done (Banner (memorySize s) PAGE_SIZE (totalFrames s) (len (accesses s))
                    (Z.of_nat (size (distinctPages s))) (estimateExecutionTime s)
                  :: OptimalFaults nOpt :: ClockFaults nClock :: Efficiency nOpt nClock
                  :: ShowLoadCount sClock ++ EstimatePageTableSize sClock,
                  sClock).
Proof.
  intros HF Hfit Hgo Hne Hskip.
  destruct (Clock_run_faults s HF (pointers_fit _ HF Hfit) Hgo)
    as (stC & HrunC & HposC & HstepsC).
  pose proof (steps_Serves _ _ _ _ _ HstepsC (view0_size _)) as Hserves.
  destruct (Opt_run_optimal s _ _ HF Hfit Hgo (Nat.le_refl _) Hserves)
    as (stO & HrunO & HfO).
  destruct (Opt_run_faults s HF Hfit Hgo) as (stO' & HrunO' & _ & HstepsO).
  rewrite HrunO in HrunO'. injection HrunO' as <-.
  pose proof (steps_cold_faults _ _ _ _ _ HstepsO) as Hcold.
  run_views. rewrite difference_empty_L in Hcold.
  assert (0 < size (list_to_set (C := gset string) (pages (accesses s))))%nat as Hpos.
  { destruct (accesses s) as [|a rest]; [done|].
    rewrite (size_remove _ (PageAccess.PageID a)); [lia|]. simpl. set_solver. }
  assert (ClockAlgorithm s
          = Done (Clock.pageFaults stC, set_pageLoadCount (Clock.loads stC) s)) as HC
    by (unfold ClockAlgorithm; by rewrite HrunC).
  assert (OptimalAlgorithm s
          = Done (Opt.pageFaults stO, set_pageLoadCount (Opt.loads stO) s)) as HO
    by (unfold OptimalAlgorithm; by rewrite HrunO).
  do 4 eexists. split; [exact HO|]. split; [exact HC|]. split; [lia|].
  unfold Run. destruct (Z.eqb_spec (totalFrames s) 0) as [|_]; [lia|].
  rewrite Hskip. cbn [negb]. rewrite HO. cbn [mbind outcome_bind].
  rewrite ClockAlgorithm_any_counter, HC. cbn [mbind outcome_bind].
  destruct (Z.gtb_spec (Opt.pageFaults stO) 0); [|lia].
  destruct (Z.gtb_spec (Clock.pageFaults stC) 0); [|lia]. done.
Qed.

Lemma run_reports_both_witness :
  ∃ nOpt sOpt nClock sClock,
    OptimalAlgorithm (simulatorOf 12288 sampleTrace) = Done (nOpt, sOpt) ∧
    ClockAlgorithm (simulatorOf 12288 sampleTrace) = Done (nClock, sClock) ∧
    1 ≤ nOpt ≤ nClock ∧
    Run (simulatorOf 12288 sampleTrace)
    = Done (Banner 12288 PAGE_SIZE 3 10 4 "1-5 segundos"
            :: OptimalFaults nOpt :: ClockFaults nClock :: Efficiency nOpt nClock
            :: ShowLoadCount sClock ++ EstimatePageTableSize sClock,
            sClock).
Proof.
  apply (run_reports_both (simulatorOf 12288 sampleTrace)).
  - vm_compute. discriminate.
  - vm_compute. discriminate.
  - apply go_values_simulatorOf; [vm_compute; split; discriminate | vm_compute; discriminate].
  - discriminate.
  - reflexivity.
Defined.

(** X11: with [skipOptimal] set, at least one frame and no more than
    [make] accepts as pointers, [Run] does not run the optimal policy:
    it prints that it was skipped, the clock count and no efficiency, and
    returns what [ClockAlgorithm] alone returns. *)
Theorem run_skips_optimal {rt : Runtime} (s : Simulator) :
  1 ≤ totalFrames s → sizeofPointer * totalFrames s ≤ maxAlloc → go_values s →
  skipOptimal s = true →
  ∃ nClock sClock,
    ClockAlgorithm s = Done (nClock, sClock) ∧
    Run s = Done (Banner (memorySize s) PAGE_SIZE (totalFrames s) (len (accesses s))
                    (Z.of_nat (size (distinctPages s))) "< 5 segundos"
                  :: OptimalSkipped :: ClockFaults nClock :: EfficiencyNotRun
                  :: ShowLoadCount sClock ++ EstimatePageTableSize sClock,
                  sClock).
Proof.
  intros HF Hfit Hgo Hskip.
  destruct (Clock_run_faults s HF Hfit Hgo) as (stC & HrunC & HposC & _).
  assert (ClockAlgorithm s
          = Done (Clock.pageFaults stC, set_pageLoadCount (Clock.loads stC) s)) as HC
    by (unfold ClockAlgorithm; by rewrite HrunC).
  do 2 eexists. split; [exact HC|].
  unfold Run, estimateExecutionTime.
  destruct (Z.eqb_spec (totalFrames s) 0) as [|_]; [lia|].
  rewrite Hskip. cbn [negb mbind outcome_bind]. rewrite HC. done.
Qed.

Lemma run_skips_optimal_witness :
  ∃ nClock sClock,
    ClockAlgorithm (set_flags false false false true (simulatorOf 12288 sampleTrace))
    = Done (nClock, sClock) ∧
    Run (set_flags false false false true (simulatorOf 12288 sampleTrace))
    = Done (Banner 12288 PAGE_SIZE 3 10 4 "< 5 segundos"
            :: OptimalSkipped :: ClockFaults nClock :: EfficiencyNotRun
            :: ShowLoadCount sClock ++ EstimatePageTableSize sClock,
            sClock).
Proof.
  apply (run_skips_optimal (set_flags false false false true (simulatorOf 12288 sampleTrace))).
  - vm_compute. discriminate.
  - vm_compute. discriminate.
  - split; vm_compute; [split; discriminate | discriminate].
  - reflexivity.
Defined.

(** X12: whatever [Run] does, the simulator it returns differs from the
    one it was given in the load counter at most: memory size, frames,
    trace, distinct pages and options are never touched. *)
Theorem run_changes_counter_only {rt : Runtime} (s s' : Simulator) (lines : list line) :
  Run s = Done (lines, s') → s' = set_pageLoadCount (pageLoadCount s') s.
Proof.
  unfold Run. destruct (totalFrames s =? 0).
  { intros [= _ <-]. by rewrite set_pageLoadCount_same. }
  destruct (skipOptimal s); cbn [negb mbind outcome_bind].
  - unfold ClockAlgorithm. destruct (Clock.run s); cbn [mbind outcome_bind]; [|done..].
    by intros [= _ <-].
  - unfold OptimalAlgorithm. destruct (Opt.run s); cbn [mbind outcome_bind]; [|done..].
    unfold ClockAlgorithm.
    destruct (Clock.run _); cbn [mbind outcome_bind]; [|done..].
    by intros [= _ <-].
Qed.

Lemma run_changes_counter_only_witness :
  set_pageLoadCount {["IA" := 2; "IB" := 2; "IC" := 2; "ID" := 2]} sampleReportRun
  = set_pageLoadCount
      (pageLoadCount
         (set_pageLoadCount {["IA" := 2; "IB" := 2; "IC" := 2; "ID" := 2]} sampleReportRun))
      sampleReportRun.
Proof.
  apply (run_changes_counter_only sampleReportRun _
           [Banner 12288 4096 3 10 4 "1-5 segundos"; OptimalFaults 5; ClockFaults 8;
            Efficiency 5 8; LoadCountTitle;
            LoadCountOf "IA" 2; LoadCountOf "IB" 2; LoadCountOf "IC" 2; LoadCountOf "ID" 2]).
  by vm_compute.
Defined.

(** ** The load-count report *)

(** X13: with the option on, [ShowLoadCount] prints the title and then
    one line for every page of the load counter, each page once and with
    its count, the pages in increasing order; with the option off it
    prints nothing. *)
Theorem load_count_report (s : Simulator) :
  (showLoadCount s = false → ShowLoadCount s = [])
  ∧ (showLoadCount s = true →
     ∃ entries : list (string * Z),
       ShowLoadCount s = LoadCountTitle :: ((λ e, LoadCountOf e.1 e.2) <$> entries) ∧
       (∀ page n, (page, n) ∈ entries ↔ pageLoadCount s !! page = Some n) ∧
       NoDup entries.*1 ∧
       Sorted String.le entries.*1).
Proof.
  unfold ShowLoadCount. split; [by intros ->|]. intros ->. cbn [negb].
  set (m := pageLoadCount s).
  set (keys := merge_sort String.le (map_to_list m).*1).
  assert (keys ≡ₚ (map_to_list m).*1) as Hperm by apply merge_sort_Permutation.
  exists ((λ page, (page, default 0 (m !! page))) <$> keys).
  assert (((λ page, (page, default 0 (m !! page))) <$> keys).*1 = keys) as Hfst.
  { rewrite <- list_fmap_compose. rewrite <- (list_fmap_id keys) at 2.
    by apply list_fmap_ext. }
  split; [|split; [|split]].
  - f_equal. rewrite <- list_fmap_compose. by apply list_fmap_ext.
  - intros page n. rewrite list_elem_of_fmap. split.
    + intros (k & [= -> ->] & Hk). rewrite Hperm in Hk.
      apply list_elem_of_fmap in Hk as ([k' v] & -> & Hkv).
      apply elem_of_map_to_list in Hkv. simpl. by rewrite Hkv.
    + intros Hn. exists page. rewrite Hn. split; [done|]. rewrite Hperm.
      apply list_elem_of_fmap. exists (page, n). split; [done|].
      by apply elem_of_map_to_list.
  - rewrite Hfst, Hperm. apply NoDup_fst_map_to_list.
  - rewrite Hfst. apply (Sorted_merge_sort String.le).
Qed.

Lemma load_count_report_witness :
  ShowLoadCount (simulatorOf 12288 sampleTrace) = []
  ∧ ∃ entries : list (string * Z),
      ShowLoadCount (set_pageLoadCount {["IB" := 2; "IA" := 1]} sampleReportRun)
      = LoadCountTitle :: ((λ e, LoadCountOf e.1 e.2) <$> entries) ∧
      (∀ page n, (page, n) ∈ entries
                 ↔ ({["IB" := 2; "IA" := 1]} : gmap string Z) !! page = Some n) ∧
      NoDup entries.*1 ∧
      Sorted String.le entries.*1.
Proof.
  split.
  - apply (proj1 (load_count_report (simulatorOf 12288 sampleTrace))). reflexivity.
  - exact (proj2 (load_count_report
                    (set_pageLoadCount {["IB" := 2; "IA" := 1]} sampleReportRun)) eq_refl).
Defined.

(** ** The options of the command line *)

Lemma set_flags_twice a b c d a' b' c' d' s :
  set_flags a b c d (set_flags a' b' c' d' s) = set_flags a b c d s.
Proof. done. Qed.

Lemma set_flags_same s :
  set_flags (didacticMode s) (showLoadCount s) (showPageTable s) (skipOptimal s) s = s.
Proof. by destruct s. Qed.

Ltac known_option IH :=
  rewrite IH, set_flags_twice; cbn -[elem_of bool_decide filter];
  rewrite ?orb_true_r; cbn -[elem_of bool_decide filter]; rewrite ?orb_true_r.

(** X14: the option loop of [main] only ever switches options on: after
    it an option is on exactly when it was on before or one of the
    arguments asks for it ([-all] asking for the first three), in any
    order and any number of times; the arguments it does not know are
    reported in order and change nothing; memory, trace and counters are
    left alone. *)
Theorem options_accumulate (args : list string) (s : Simulator) :
  processOptions args s
  = (UnknownOption <$> filter (λ arg, arg ∉ knownOptions) args,
     set_flags
       (didacticMode s || bool_decide ("-all" ∈ args) || bool_decide ("-didactic" ∈ args))
       (showLoadCount s || bool_decide ("-all" ∈ args) || bool_decide ("-loadcount" ∈ args))
       (showPageTable s || bool_decide ("-all" ∈ args) || bool_decide ("-pagetable" ∈ args))
       (skipOptimal s || bool_decide ("-skipoptimal" ∈ args))
       s).
Proof.
  revert s. induction args as [|arg args IH]; intros s.
  - cbn [processOptions filter list_filter fmap list_fmap].
    rewrite !(bool_decide_eq_false_2 (_ ∈ [])) by apply not_elem_of_nil.
    rewrite !orb_false_r. by rewrite set_flags_same.
  - assert (∀ o : string, bool_decide (o ∈ arg :: args)
                          = bool_decide (arg = o) || bool_decide (o ∈ args)) as Hmem.
    { intros o. rewrite <- bool_decide_or. apply bool_decide_ext.
      rewrite elem_of_cons. split; intros [?|?]; auto. }
    rewrite !Hmem, filter_cons. cbn [processOptions].
    destruct (String.eqb_spec arg "-all") as [->|Hall];
      [by known_option IH|].
    destruct (String.eqb_spec arg "-didactic") as [->|Hdid];
      [by known_option IH|].
    destruct (String.eqb_spec arg "-loadcount") as [->|Hload];
      [by known_option IH|].
    destruct (String.eqb_spec arg "-pagetable") as [->|Hpage];
      [by known_option IH|].
    destruct (String.eqb_spec arg "-skipoptimal") as [->|Hskip];
      [by known_option IH|].
    rewrite IH.
    rewrite decide_True
      by (unfold knownOptions; rewrite !not_elem_of_cons; repeat split; [done..|apply not_elem_of_nil]).
    rewrite !(bool_decide_eq_false_2 (arg = _)) by done. done.
Qed.


(** ** The trace loader *)

Lemma validPageID_shape (p : string) :
  validPageID p = true →
  (2 ≤ String.length p)%nat ∧
  ((∃ rest, p = String "I"%char rest ∧ PageAccess.Type_ (accessOf p) = "I")
   ∨ (∃ rest, p = String "D"%char rest ∧ PageAccess.Type_ (accessOf p) = "D")).
Proof.
  unfold validPageID. intros [Hlen Hc]%andb_true_iff.
  split; [apply Z.leb_le in Hlen; lia|].
  destruct p as [|c rest]; [done|].
  apply orb_true_iff in Hc as [Hc|Hc]; apply Ascii.eqb_eq in Hc; subst c.
  - left. exists rest. split; [done|]. by destruct rest.
  - right. exists rest. split; [done|]. by destruct rest.
Qed.

Lemma set_trace_same s : set_trace (accesses s) (distinctPages s) s = s.
Proof. by destruct s. Qed.

Section loader_facts.
Variable TrimSpace : string → string.
Variable Fields : string → list string.
Variable openFile : string → option (list string * bool).

Local Abbreviation accepted := (omap (acceptedPage TrimSpace Fields)).
Local Abbreviation scan := (scanLine TrimSpace Fields).

Lemma scanLine_loaded st text :
  loaded (scan st text)
  = match acceptedPage TrimSpace Fields text with
    | Some p => set_trace (accesses (loaded st) ++ [accessOf p])
                  (<[p := true]> (distinctPages (loaded st))) (loaded st)
    | None => loaded st
    end.
Proof.
  unfold scanLine, acceptedPage, rejectLine.
  destruct (String.eqb _ ""); [done|].
  destruct (pageField _) as [p|]; [|done].
  by destruct (validPageID p).
Qed.

Lemma fold_scan_loaded : ∀ texts st,
  ∃ m', loaded (fold_left scan texts st)
        = set_trace (accesses (loaded st) ++ (accessOf <$> accepted texts)) m' (loaded st)
        ∧ seen_after (distinctPages (loaded st)) (accepted texts) m'.
Proof.
  induction texts as [|text texts IH]; intros st.
  - exists (distinctPages (loaded st)). simpl. rewrite app_nil_r, set_trace_same.
    split; [done|]. intros q. by rewrite decide_False by apply not_elem_of_nil.
  - cbn [fold_left]. destruct (IH (scan st text)) as (m' & -> & Hseen).
    rewrite scanLine_loaded in *. cbn [omap list_omap].
    destruct (acceptedPage TrimSpace Fields text) as [p|]; [|by exists m'].
    exists m'. split.
    + simpl. by rewrite <- app_assoc.
    + intros q. rewrite (Hseen q). simpl.
      destruct (decide (q ∈ accepted texts)) as [Hin|Hnin].
      * by rewrite decide_True by (by right).
      * destruct (decide (p = q)) as [->|Hne].
        -- rewrite lookup_insert_eq. by rewrite decide_True by left.
        -- rewrite lookup_insert_ne by done.
           by rewrite decide_False by (rewrite not_elem_of_cons; split; congruence).
Qed.

Lemma accepted_valid texts : Forall (λ p, validPageID p = true) (accepted texts).
Proof.
  induction texts as [|text texts IH]; [constructor|]. cbn [omap list_omap].
  destruct (acceptedPage TrimSpace Fields text) as [p|] eqn:Hp; [|done].
  constructor; [|done]. unfold acceptedPage in Hp.
  destruct (String.eqb _ ""); [done|]. destruct (pageField _) as [p'|]; [|done].
  destruct (validPageID p') eqn:Hv; by simplify_eq.
Qed.

Lemma accepted_length texts : (length (accepted texts) ≤ length texts)%nat.
Proof.
  induction texts as [|text texts IH]; [done|]. cbn [omap list_omap].
  destruct (acceptedPage TrimSpace Fields text); simpl; lia.
Qed.

(** What [LoadAccessFile] returns for a file that opens: the simulator
    with the accepted pages appended, and the error, if any. *)
Lemma LoadAccessFile_opened filename s texts readFailed :
  openFile filename = Some (texts, readFailed) →
  ∃ ns m',
    seen_after (distinctPages s) (accepted texts) m' ∧
    LoadAccessFile TrimSpace Fields openFile filename s
    = (ns, set_trace (accesses s ++ (accessOf <$> accepted texts)) m' s,
       if readFailed then Some ReadError
       else if decide (accesses s ++ (accessOf <$> accepted texts) = []) then Some NoValidAccess
       else None).
Proof.
  intros Hopen. unfold LoadAccessFile. rewrite Hopen.
  destruct (fold_scan_loaded texts
              {| loaded := s; lineCount := 0; invalidLines := 0; notices := [] |})
    as (m' & Hloaded & Hseen). cbn [loaded] in *.
  rewrite Hloaded. destruct readFailed; [by eexists _, m'|].
  cbn [accesses set_trace]. unfold len.
  destruct (decide (accesses s ++ (accessOf <$> accepted texts) = [])) as [Hnil|Hcons].
  - rewrite Hnil. simpl. by eexists _, m'.
  - destruct (accesses s ++ (accessOf <$> accepted texts)) as [|a l]; [done|].
    simpl. by eexists _, m'.
Qed.

(** X15: for a file that opens, [LoadAccessFile] appends to the trace, in
    the order of the file, one record for every line whose page field is
    a valid identifier, and nothing else; every record it appends has an
    identifier of at least two characters that begins with I or D, and
    that first character as its type; apart from the trace and the set of
    distinct pages the simulator is unchanged. *)
Theorem loader_appends_valid_accesses filename s texts readFailed ns s' err :
  openFile filename = Some (texts, readFailed) →
  LoadAccessFile TrimSpace Fields openFile filename s = (ns, s', err) →
  accesses s' = accesses s ++ (accessOf <$> accepted texts)
  ∧ (length (accepted texts) ≤ length texts)%nat
  ∧ Forall (λ a, (2 ≤ String.length (PageAccess.PageID a))%nat
                 ∧ ((PageAccess.Type_ a = "I"
                     ∧ ∃ rest, PageAccess.PageID a = String "I"%char rest)
                    ∨ (PageAccess.Type_ a = "D"
                       ∧ ∃ rest, PageAccess.PageID a = String "D"%char rest)))
      (accessOf <$> accepted texts)
  ∧ s' = set_trace (accesses s') (distinctPages s') s.
Proof.
  intros Hopen Hload.
  destruct (LoadAccessFile_opened filename s texts readFailed Hopen) as (ns' & m' & _ & Heq).
  rewrite Heq in Hload. injection Hload as _ <- _.
  split; [done|]. split; [apply accepted_length|]. split; [|done].
  apply Forall_fmap. eapply Forall_impl; [apply accepted_valid|].
  intros p Hp. simpl. destruct (validPageID_shape p Hp) as [Hlen [(rest & -> & Ht)|(rest & -> & Ht)]].
  - split; [done|]. left. split; [done | by exists rest].
  - split; [done|]. right. split; [done | by exists rest].
Qed.

(** X16: if the set of distinct pages of the simulator is that of its
    trace before the load - as it is for a new simulator - it is so
    after: every page of the trace is in it with value [true], nothing
    else is, and its size, which [Run] prints and the page-table estimate
    multiplies by 8, is the number of distinct pages of the trace. *)
Theorem loader_keeps_distinct_pages filename s texts readFailed ns s' err :
  openFile filename = Some (texts, readFailed) →
  LoadAccessFile TrimSpace Fields openFile filename s = (ns, s', err) →
  (∀ q, distinctPages s !! q
        = if decide (q ∈ pages (accesses s)) then Some true else None) →
  (∀ q, distinctPages s' !! q
        = if decide (q ∈ pages (accesses s')) then Some true else None)
  ∧ size (distinctPages s') = size (distinct (accesses s'))
  ∧ (showPageTable s' = true →
     8 * Z.of_nat (size (distinct (accesses s'))) ≤ MaxInt →
     EstimatePageTableSize s'
     = [PageTableEstimate (Z.of_nat (size (distinct (accesses s')))) 8
          (8 * Z.of_nat (size (distinct (accesses s'))))]).
Proof.
  intros Hopen Hload Hs.
  destruct (LoadAccessFile_opened filename s texts readFailed Hopen) as (ns' & m' & Hseen & Heq).
  rewrite Heq in Hload. injection Hload as _ <- _. cbn [distinctPages accesses set_trace].
  assert (∀ q, m' !! q = if decide (q ∈ pages (accesses s ++ (accessOf <$> accepted texts)))
                         then Some true else None) as Hm'.
  { intros q. rewrite (Hseen q), (Hs q).
    assert (q ∈ pages (accesses s ++ (accessOf <$> accepted texts))
            ↔ q ∈ pages (accesses s) ∨ q ∈ accepted texts) as Hiff.
    { unfold pages. rewrite map_app, elem_of_app.
      change (map PageAccess.PageID (accessOf <$> accepted texts))
        with (PageAccess.PageID <$> (accessOf <$> accepted texts)).
      rewrite <- list_fmap_compose.
      assert (PageAccess.PageID ∘ accessOf <$> accepted texts = accepted texts) as ->; [|done].
      rewrite <- (list_fmap_id (accepted texts)) at 2. by apply list_fmap_ext. }
    destruct (decide (q ∈ accepted texts)), (decide (q ∈ pages (accesses s))),
      (decide (q ∈ pages (accesses s ++ (accessOf <$> accepted texts)))); tauto. }
  assert (size m' = size (distinct (accesses s ++ (accessOf <$> accepted texts)))) as Hsize.
  { rewrite <- size_dom. f_equal. apply set_eq. intros q.
    rewrite elem_of_dom, (Hm' q). unfold distinct. rewrite elem_of_list_to_set.
    destruct (decide (q ∈ pages (accesses s ++ (accessOf <$> accepted texts)))) as [Hin|Hnin];
      [split; [intros _; exact Hin | intros _; by eexists]
      |split; [by intros [? ?] | intros ?; by destruct Hnin]]. }
  split; [done|]. split; [done|].
  intros Hflag Hmax. unfold EstimatePageTableSize. cbn [showPageTable set_trace] in *.
  rewrite Hflag. cbn [negb distinctPages set_trace]. rewrite Hsize.
  rewrite wrap64_small by (unfold MaxInt in *; lia). do 2 f_equal. lia.
Qed.

(** X17: the errors of [LoadAccessFile].  A file that cannot be opened
    leaves the simulator as it was.  A read error is reported even when
    lines have been loaded.  Otherwise the load succeeds exactly when the
    trace is not empty afterwards: a successful load never hands an empty
    trace to the policies. *)
Theorem loader_errors filename s :
  match openFile filename with
  | None =>
      LoadAccessFile TrimSpace Fields openFile filename s = ([], s, Some (OpenError filename))
  | Some (texts, readFailed) =>
      ∃ ns s', LoadAccessFile TrimSpace Fields openFile filename s
               = (ns, s',
                  if readFailed then Some ReadError
                  else if decide (accesses s' = []) then Some NoValidAccess else None)
               ∧ accesses s' = accesses s ++ (accessOf <$> accepted texts)
  end.
Proof.
  destruct (openFile filename) as [[texts readFailed]|] eqn:Hopen.
  - destruct (LoadAccessFile_opened filename s texts readFailed Hopen) as (ns & m' & _ & ->).
    exists ns, (set_trace (accesses s ++ (accessOf <$> accepted texts)) m' s).
    split; reflexivity.
  - unfold LoadAccessFile. by rewrite Hopen.
Qed.

(** The three kinds of lines. *)
Lemma lines_partition texts :
  length texts
  = (length (filter (λ t, isBlank TrimSpace t = true) texts)
     + length (accepted texts)
     + length (filter (λ t, isInvalid TrimSpace Fields t = true) texts))%nat.
Proof.
  induction texts as [|text texts IH]; [done|].
  rewrite !filter_cons. cbn [omap list_omap length].
  unfold isInvalid, isBlank in *.
  assert (String.eqb (TrimSpace text) "" = true →
          acceptedPage TrimSpace Fields text = None) as Hblank
    by (unfold acceptedPage; by intros ->).
  destruct (String.eqb (TrimSpace text) "") eqn:Hb.
  - rewrite (Hblank eq_refl), decide_True by done. rewrite decide_False by done.
    simpl. lia.
  - rewrite decide_False by done.
    destruct (acceptedPage TrimSpace Fields text) as [p|].
    + rewrite bool_decide_eq_true_2 by (by eexists). rewrite decide_False by done.
      simpl. lia.
    + rewrite bool_decide_eq_false_2 by (by intros [? ?]). rewrite decide_True by done.
      simpl. lia.
Qed.

Lemma scanLine_counts st text :
  0 ≤ invalidLines st → invalidLines st ≤ lineCount st → lineCount st + 1 ≤ MaxInt →
  lineCount (scan st text) = lineCount st + 1
  ∧ invalidLines (scan st text)
    = invalidLines st + (if isInvalid TrimSpace Fields text then 1 else 0)
  ∧ ∃ ws, notices (scan st text) = notices st ++ ws
          ∧ len ws = Z.min (invalidLines (scan st text)) 10 - Z.min (invalidLines st) 10
          ∧ Forall (is_warning (lineCount st) (lineCount st + 1)) ws.
Proof.
  intros H0 Hle Hmax.
  assert (int_add (lineCount st) 1 = lineCount st + 1) as Hlc
    by (apply int_add_small; unfold MaxInt in *; lia).
  assert (int_add (invalidLines st) 1 = invalidLines st + 1) as Hinv
    by (apply int_add_small; unfold MaxInt in *; lia).
  assert (∀ report, is_warning (lineCount st) (lineCount st + 1) report →
    lineCount (rejectLine (lineCount st + 1) report st) = lineCount st + 1
    ∧ invalidLines (rejectLine (lineCount st + 1) report st) = invalidLines st + 1
    ∧ ∃ ws, notices (rejectLine (lineCount st + 1) report st) = notices st ++ ws
            ∧ len ws = Z.min (invalidLines (rejectLine (lineCount st + 1) report st)) 10
                       - Z.min (invalidLines st) 10
            ∧ Forall (is_warning (lineCount st) (lineCount st + 1)) ws) as Hreject.
  { intros report Hrep. unfold rejectLine. cbn [lineCount invalidLines notices].
    rewrite Hinv. split; [done|]. split; [done|]. eexists. split; [done|].
    destruct (Z.leb_spec (invalidLines st + 1) 10).
    - split; [unfold len; simpl; lia | by constructor].
    - split; [unfold len; simpl; lia | constructor]. }
  assert (∀ lo hi, lo ≤ hi → hi ≤ 10 ∨ 10 ≤ lo → Z.min hi 10 - Z.min lo 10 = 0 → True) as _ by done.
  unfold scanLine, isInvalid, isBlank, acceptedPage. rewrite Hlc.
  destruct (String.eqb (TrimSpace text) "") eqn:Hb; cbn [negb andb].
  { cbn [lineCount invalidLines notices]. split; [done|]. split; [lia|].
    exists []. rewrite app_nil_r. split; [done|]. split; [unfold len; simpl; lia | constructor]. }
  destruct (pageField (Fields (TrimSpace text))) as [p|].
  - destruct (validPageID p).
    + rewrite bool_decide_eq_true_2 by (by eexists).
      cbn [lineCount invalidLines notices negb]. split; [done|]. split; [lia|].
      exists []. rewrite app_nil_r. split; [done|]. split; [unfold len; simpl; lia | constructor].
    + rewrite bool_decide_eq_false_2 by (by intros [? ?]). cbn [negb].
      apply Hreject. eexists _, _. split; [by right | lia].
  - rewrite bool_decide_eq_false_2 by (by intros [? ?]). cbn [negb].
    apply Hreject. eexists _, _. split; [by left | lia].
Qed.

Lemma fold_scan_counts : ∀ texts st,
  0 ≤ invalidLines st → invalidLines st ≤ lineCount st → lineCount st + len texts ≤ MaxInt →
  lineCount (fold_left scan texts st) = lineCount st + len texts
  ∧ invalidLines (fold_left scan texts st)
    = invalidLines st + len (filter (λ t, isInvalid TrimSpace Fields t = true) texts)
  ∧ ∃ ws, notices (fold_left scan texts st) = notices st ++ ws
          ∧ len ws = Z.min (invalidLines (fold_left scan texts st)) 10
                     - Z.min (invalidLines st) 10
          ∧ Forall (is_warning (lineCount st) (lineCount st + len texts)) ws.
Proof.
  unfold len. induction texts as [|text texts IH]; intros st H0 Hle Hmax.
  - simpl. rewrite !Z.add_0_r. split; [done|]. split; [done|].
    exists []. rewrite app_nil_r. split; [done|]. split; [simpl; lia | constructor].
  - cbn [fold_left]. simpl length in *.
    destruct (scanLine_counts st text) as (Hlc & Hinv & ws1 & Hn1 & Hl1 & Hw1); [lia..|].
    destruct (IH (scan st text)) as (Hlc2 & Hinv2 & ws2 & Hn2 & Hl2 & Hw2).
    { rewrite Hinv. destruct (isInvalid _ _ _); lia. }
    { rewrite Hinv, Hlc. destruct (isInvalid _ _ _); lia. }
    { rewrite Hlc. lia. }
    rewrite Hlc2, Hinv2, Hlc, Hinv, filter_cons.
    split; [lia|]. split.
    { destruct (isInvalid TrimSpace Fields text) eqn:Hi.
      - rewrite decide_True by done. simpl length. lia.
      - rewrite decide_False by done. lia. }
    exists (ws1 ++ ws2). split; [by rewrite Hn2, Hn1, app_assoc|]. split.
    + rewrite length_app. rewrite Hinv2, Hinv in Hl2. rewrite Hinv in Hl1.
      unfold len in Hl1. lia.
    + apply Forall_app. split.
      * eapply Forall_impl; [exact Hw1|]. intros n (k & t & Hk & Hr).
        exists k, t. split; [done | lia].
      * rewrite Hlc in Hw2. eapply Forall_impl; [exact Hw2|]. intros n (k & t & Hk & Hr).
        exists k, t. split; [done | lia].
Qed.

(** X18: the accounting of a load that reads the whole file.  Every line
    is blank, accepted or invalid; at most ten invalid lines are reported,
    each with its own line number (counted from 1); beyond ten, one more
    notice gives the number of those not shown; on success the last notice
    gives the number of lines read, the length of the trace and the number
    of invalid lines. *)
Theorem loader_accounting filename s texts ns s' err :
  openFile filename = Some (texts, false) → len texts ≤ MaxInt →
  LoadAccessFile TrimSpace Fields openFile filename s = (ns, s', err) →
  let invalid := len (filter (λ t, isInvalid TrimSpace Fields t = true) texts) in
  len texts
  = len (filter (λ t, isBlank TrimSpace t = true) texts) + len (accepted texts) + invalid
  ∧ ∃ warnings,
      ns = warnings
           ++ (if 10 <? invalid then [MoreInvalid (invalid - 10)] else [])
           ++ (if decide (err = None)
               then [FileProcessed (len texts) (len (accesses s')) invalid] else [])
      ∧ len warnings = Z.min invalid 10
      ∧ Forall (is_warning 0 (len texts)) warnings.
Proof.
  intros Hopen Hmax Hload invalid.
  split. { unfold invalid, len. rewrite (lines_partition texts) at 1. lia. }
  unfold LoadAccessFile in Hload. rewrite Hopen in Hload.
  set (st0 := {| loaded := s; lineCount := 0; invalidLines := 0; notices := [] |}) in *.
  destruct (fold_scan_counts texts st0) as (Hlc & Hinv & ws & Hn & Hl & Hw);
    [simpl; lia.. | simpl; lia |].
  cbn [lineCount invalidLines notices st0] in *. rewrite Z.add_0_l in *. fold invalid in Hinv.
  assert (0 ≤ invalid) as Hpos by (unfold invalid, len; lia).
  assert (invalid ≤ len texts) as Hle.
  { unfold invalid, len. pose proof (length_filter (λ t, isInvalid TrimSpace Fields t = true) texts).
    lia. }
  rewrite Hn, Hinv, Hlc in Hload. simpl app in Hload.
  rewrite wrap64_small in Hload by (unfold MaxInt in *; lia).
  exists ws. rewrite Hinv in Hl.
  assert ((invalid >? 10) = (10 <? invalid)) as Hgt by (rewrite Z.gtb_ltb; done).
  rewrite Hgt in Hload.
  destruct (len (accesses (loaded (fold_left scan texts st0))) =? 0);
    injection Hload as <- <- <-.
  - rewrite decide_False by done. rewrite app_nil_r. split; [done|]. split; [lia | done].
  - rewrite decide_True by done. rewrite <- app_assoc. split; [done|]. split; [lia | done].
Qed.

(** X19: a file of which every line names a valid page, alone or after
    a line number, loads into a new simulator as the trace of these pages
    in order, with their set as distinct pages and no error: the
    simulator is the one [simulatorOf] describes. *)
Theorem loader_round_trip filename memorySize texts pageIDs :
  openFile filename = Some (texts, false) → pageIDs ≠ [] →
  Forall2 (λ text p,
             TrimSpace text ≠ "" ∧ validPageID p = true ∧
             (Fields (TrimSpace text) = [p] ∨ ∃ no, Fields (TrimSpace text) = [no; p]))
    texts pageIDs →
  ∃ ns, LoadAccessFile TrimSpace Fields openFile filename (NewSimulator memorySize)
        = (ns, simulatorOf memorySize pageIDs, None).
Proof.
  intros Hopen Hne Hlines.
  assert (accepted texts = pageIDs) as Hacc.
  { clear Hne Hopen.
    induction Hlines as [|text p texts pageIDs (Hline & Hvalid & Hfields) _ IH]; [done|].
    cbn [omap list_omap]. unfold acceptedPage at 1.
    destruct (String.eqb_spec (TrimSpace text) "") as [|_]; [done|].
    assert (pageField (Fields (TrimSpace text)) = Some p) as ->
      by (destruct Hfields as [->|[no ->]]; done).
    rewrite Hvalid. simpl. by f_equal. }
  destruct (LoadAccessFile_opened filename (NewSimulator memorySize) texts false Hopen)
    as (ns & m' & Hseen & Heq).
  exists ns. rewrite Heq, Hacc in *. cbn [accesses NewSimulator app] in *.
  rewrite decide_False by (destruct pageIDs; done). f_equal. f_equal.
  unfold set_trace, simulatorOf, NewSimulator. cbn. f_equal.
  apply map_eq. intros q. rewrite (Hseen q), lookup_gset_to_gmap.
  cbn [distinctPages NewSimulator]. rewrite ?lookup_empty.
  destruct (decide (q ∈ pageIDs)) as [Hin|Hnin].
  - by rewrite option_guard_True by (by apply elem_of_list_to_set).
  - by rewrite option_guard_False by (by rewrite elem_of_list_to_set).
Qed.

End loader_facts.


Lemma loader_appends_valid_accesses_witness :
  accesses (simulatorOf 8192 ["I0"; "D1"; "I0"])
  = accesses (NewSimulator 8192)
    ++ (accessOf <$> omap (acceptedPage id spaceFields) sampleLines)
  ∧ (length (omap (acceptedPage id spaceFields) sampleLines) ≤ length sampleLines)%nat
  ∧ Forall (λ a, (2 ≤ String.length (PageAccess.PageID a))%nat
                 ∧ ((PageAccess.Type_ a = "I"
                     ∧ ∃ rest, PageAccess.PageID a = String "I"%char rest)
                    ∨ (PageAccess.Type_ a = "D"
                       ∧ ∃ rest, PageAccess.PageID a = String "D"%char rest)))
      (accessOf <$> omap (acceptedPage id spaceFields) sampleLines)
  ∧ simulatorOf 8192 ["I0"; "D1"; "I0"]
    = set_trace (accesses (simulatorOf 8192 ["I0"; "D1"; "I0"]))
        (distinctPages (simulatorOf 8192 ["I0"; "D1"; "I0"])) (NewSimulator 8192).
Proof.
  apply (loader_appends_valid_accesses id spaceFields sampleOpenFile "trace.txt"
           (NewSimulator 8192) sampleLines false
           [BadPage 4 "oops"; BadPage 6 "4 X9"; FileProcessed 6 3 2]
           (simulatorOf 8192 ["I0"; "D1"; "I0"]) None); reflexivity.
Defined.

Lemma loader_keeps_distinct_pages_witness :
  (∀ q, distinctPages (set_flags false false true false (simulatorOf 8192 ["I0"; "D1"; "I0"])) !! q
        = if decide (q ∈ pages (accesses (set_flags false false true false
                                            (simulatorOf 8192 ["I0"; "D1"; "I0"]))))
          then Some true else None)
  ∧ size (distinctPages (set_flags false false true false (simulatorOf 8192 ["I0"; "D1"; "I0"])))
    = size (distinct (accesses (set_flags false false true false
                                  (simulatorOf 8192 ["I0"; "D1"; "I0"]))))
  ∧ (showPageTable (set_flags false false true false (simulatorOf 8192 ["I0"; "D1"; "I0"])) = true →
     8 * Z.of_nat (size (distinct (accesses (set_flags false false true false
                                               (simulatorOf 8192 ["I0"; "D1"; "I0"])))))
     ≤ MaxInt →
     EstimatePageTableSize (set_flags false false true false (simulatorOf 8192 ["I0"; "D1"; "I0"]))
     = [PageTableEstimate
          (Z.of_nat (size (distinct (accesses (set_flags false false true false
                                                 (simulatorOf 8192 ["I0"; "D1"; "I0"])))))) 8
          (8 * Z.of_nat (size (distinct (accesses (set_flags false false true false
                                                     (simulatorOf 8192 ["I0"; "D1"; "I0"]))))))]).
Proof.
  apply (loader_keeps_distinct_pages id spaceFields sampleOpenFile "trace.txt"
           (set_flags false false true false (NewSimulator 8192)) sampleLines false
           [BadPage 4 "oops"; BadPage 6 "4 X9"; FileProcessed 6 3 2]
           (set_flags false false true false (simulatorOf 8192 ["I0"; "D1"; "I0"])) None).
  - reflexivity.
  - reflexivity.
  - intros q. change (pages _) with (@nil string).
    by destruct (decide (q ∈ [])) as [?%elem_of_nil|].
Defined.

Lemma loader_accounting_witness :
  len sampleLines
  = len (filter (λ t, isBlank id t = true) sampleLines)
    + len (omap (acceptedPage id spaceFields) sampleLines)
    + len (filter (λ t, isInvalid id spaceFields t = true) sampleLines)
  ∧ ∃ warnings,
      [BadPage 4 "oops"; BadPage 6 "4 X9"; FileProcessed 6 3 2]
      = warnings
        ++ (if 10 <? len (filter (λ t, isInvalid id spaceFields t = true) sampleLines)
            then [MoreInvalid (len (filter (λ t, isInvalid id spaceFields t = true) sampleLines)
                               - 10)]
            else [])
        ++ (if decide (@None loadError = None)
            then [FileProcessed (len sampleLines)
                    (len (accesses (simulatorOf 8192 ["I0"; "D1"; "I0"])))
                    (len (filter (λ t, isInvalid id spaceFields t = true) sampleLines))]
            else [])
      ∧ len warnings
        = Z.min (len (filter (λ t, isInvalid id spaceFields t = true) sampleLines)) 10
      ∧ Forall (is_warning 0 (len sampleLines)) warnings.
Proof.
  apply (loader_accounting id spaceFields sampleOpenFile "trace.txt"
           (NewSimulator 8192) sampleLines
           [BadPage 4 "oops"; BadPage 6 "4 X9"; FileProcessed 6 3 2]
           (simulatorOf 8192 ["I0"; "D1"; "I0"]) None).
  - reflexivity.
  - vm_compute. discriminate.
  - reflexivity.
Defined.

Lemma loader_round_trip_witness :
  ∃ ns, LoadAccessFile id spaceFields sampleOpenFile "clean.txt" (NewSimulator 8192)
        = (ns, simulatorOf 8192 ["I0"; "D1"; "I0"], None).
Proof.
  apply (loader_round_trip id spaceFields sampleOpenFile "clean.txt" 8192
           cleanLines ["I0"; "D1"; "I0"]).
  - reflexivity.
  - discriminate.
  - constructor; [split; [discriminate | split; [reflexivity | right; by exists "1"]]|].
    constructor; [split; [discriminate | split; [reflexivity | right; by exists "2"]]|].
    constructor; [split; [discriminate | split; [reflexivity | by left]]|].
    constructor.
Defined.


(** ** The driver *)

Lemma processOptions_keeps : ∀ args s warnings s',
  processOptions args s = (warnings, s') →
  memorySize s' = memorySize s ∧ totalFrames s' = totalFrames s
  ∧ accesses s' = accesses s ∧ distinctPages s' = distinctPages s
  ∧ pageLoadCount s' = pageLoadCount s
  ∧ Forall (λ l, ∃ arg, l = UnknownOption arg ∧ arg ∈ args ∧ arg ∉ knownOptions) warnings.
Proof.
  induction args as [|arg rest IH]; intros s warnings s' Hrun.
  - injection Hrun as <- <-. by repeat split.
  - cbn [processOptions] in Hrun.
    assert (∃ w s1, (if String.eqb arg "-all"
        then ([], set_flags true true true (skipOptimal s) s)
        else if String.eqb arg "-didactic"
        then ([], set_flags true (showLoadCount s) (showPageTable s) (skipOptimal s) s)
        else if String.eqb arg "-loadcount"
        then ([], set_flags (didacticMode s) true (showPageTable s) (skipOptimal s) s)
        else if String.eqb arg "-pagetable"
        then ([], set_flags (didacticMode s) (showLoadCount s) true (skipOptimal s) s)
        else if String.eqb arg "-skipoptimal"
        then ([], set_flags (didacticMode s) (showLoadCount s) (showPageTable s) true s)
        else ([UnknownOption arg], s)) = (w, s1)
      ∧ memorySize s1 = memorySize s ∧ totalFrames s1 = totalFrames s
      ∧ accesses s1 = accesses s ∧ distinctPages s1 = distinctPages s
      ∧ pageLoadCount s1 = pageLoadCount s
      ∧ Forall (λ l, l = UnknownOption arg ∧ arg ∉ knownOptions) w)
      as (w & s1 & Heq & Hm & Hf & Ha & Hd & Hp & Hw).
    { unfold knownOptions.
      destruct (String.eqb_spec arg "-all") as [->|?];
        [eexists _, _; split; [done|]; repeat split; constructor|].
      destruct (String.eqb_spec arg "-didactic") as [->|?];
        [eexists _, _; split; [done|]; repeat split; constructor|].
      destruct (String.eqb_spec arg "-loadcount") as [->|?];
        [eexists _, _; split; [done|]; repeat split; constructor|].
      destruct (String.eqb_spec arg "-pagetable") as [->|?];
        [eexists _, _; split; [done|]; repeat split; constructor|].
      destruct (String.eqb_spec arg "-skipoptimal") as [->|?];
        [eexists _, _; split; [done|]; repeat split; constructor|].
      eexists _, _. split; [done|]. repeat split; [].
      constructor; [|constructor]. split; [done|]. set_solver. }
    rewrite Heq in Hrun.
    destruct (processOptions rest s1) as [ws s2] eqn:Hrest.
    injection Hrun as <- <-.
    destruct (IH _ _ _ Hrest) as (Hm' & Hf' & Ha' & Hd' & Hp' & Hws).
    repeat split; [congruence..|].
    apply Forall_app. split.
    + eapply Forall_impl; [exact Hw|]. intros l [-> Hl]. exists arg.
      split; [done|]. split; [set_solver | done].
    + eapply Forall_impl; [exact Hws|]. intros l (a & -> & Ha1 & Ha2). exists a.
      split; [done|]. split; [set_solver | done].
Qed.

Ltac not_printed Hin :=
  repeat first
    [ apply elem_of_nil in Hin; destruct Hin
    | apply elem_of_cons in Hin as [Hin|Hin]; [try discriminate Hin|]
    | apply elem_of_app in Hin as [Hin|Hin] ].

Lemma Run_with_frames {rt : Runtime} s :
  1 ≤ totalFrames s → sizeofString * totalFrames s ≤ maxAlloc → go_values s →
  ∃ lines s', Run s = Done (lines, s')
              ∧ set_pageLoadCount (pageLoadCount s') s = s'
              ∧ ∀ n, InsufficientMemory n ∉ lines.
Proof.
  intros HF Hfit Hgo. unfold Run.
  destruct (Z.eqb_spec (totalFrames s) 0) as [|_]; [lia|].
  destruct (Clock_run_steps s HF (pointers_fit _ HF Hfit) Hgo) as (stC & HrunC & _).
  assert (∀ m, ClockAlgorithm (set_pageLoadCount m s)
               = Done (Clock.pageFaults stC, set_pageLoadCount (Clock.loads stC) s)) as HC.
  { intros m. change (ClockAlgorithm (set_pageLoadCount m s)) with (ClockAlgorithm s).
    unfold ClockAlgorithm. by rewrite HrunC. }
  assert (∀ s2 n, InsufficientMemory n ∉ ShowLoadCount s2 ++ EstimatePageTableSize s2)
    as Hreports.
  { intros s2 n. unfold ShowLoadCount, EstimatePageTableSize.
    rewrite elem_of_app. intros [Hin|Hin].
    - destruct (negb (showLoadCount s2)); [by apply elem_of_nil in Hin|].
      apply elem_of_cons in Hin as [|Hin]; [done|].
      apply list_elem_of_In, in_map_iff in Hin as (? & ? & _). done.
    - destruct (negb (showPageTable s2)); [by apply elem_of_nil in Hin|].
      apply list_elem_of_singleton in Hin. done. }
  destruct (skipOptimal s) eqn:Hskip; cbn [negb].
  - cbn [mbind outcome_bind mret outcome_ret].
    pose proof (HC ∅) as HC0.
    change (ClockAlgorithm (set_pageLoadCount ∅ s)) with (ClockAlgorithm s) in HC0.
    rewrite HC0.
    cbn [mbind outcome_bind]. eexists _, _. split; [done|]. split; [done|].
    intros n Hin.
    pose proof (Hreports (set_pageLoadCount (Clock.loads stC) s) n) as Hr.
    not_printed Hin;
      first [apply Hr, elem_of_app; by auto | revert Hin; by repeat case_match].
  - destruct (Opt_run_steps s HF Hfit Hgo) as (stO & HrunO & _).
    unfold OptimalAlgorithm. rewrite HrunO.
    cbn [mbind outcome_bind mret outcome_ret]. rewrite HC.
    cbn [mbind outcome_bind]. eexists _, _. split; [done|]. split; [done|].
    intros n Hin.
    pose proof (Hreports (set_pageLoadCount (Clock.loads stC) s) n) as Hr.
    not_printed Hin;
      first [apply Hr, elem_of_app; by auto | revert Hin; by repeat case_match].
Qed.

Section main_facts.
Context {rt : Runtime}.
Variable TrimSpace : string → string.
Variable Fields : string → list string.
Variable openFile : string → option (list string * bool).
Variable Atoi : string → option Z.

Lemma loadOrFail_Some filename s s' :
  loadOrFail TrimSpace Fields openFile filename s = Some s' →
  ∃ texts, openFile filename = Some (texts, false)
    ∧ s' = set_trace (accesses s') (distinctPages s') s
    ∧ accesses s' = accesses s ++ (accessOf <$> omap (acceptedPage TrimSpace Fields) texts)
    ∧ accesses s' ≠ [].
Proof.
  unfold loadOrFail. intros Hload.
  destruct (openFile filename) as [[texts readFailed]|] eqn:Hopen.
  - destruct (LoadAccessFile_opened TrimSpace Fields openFile filename s texts readFailed Hopen)
      as (ns & m' & _ & Heq).
    rewrite Heq in Hload. destruct readFailed; [done|].
    destruct (decide _) as [|Hne]; [done|]. injection Hload as <-.
    exists texts. by repeat split.
  - unfold LoadAccessFile in Hload. by rewrite Hopen in Hload.
Qed.

(** X20: for memory sizes whose frames [make] accepts (below 2^56
    bytes on the 64-bit runtime), [main] does not panic, whatever the
    command line and the file: it returns after printing its lines; and
    with a memory size that passed its check the simulator has at least
    one frame, so the zero-frame message of [Run] is never printed. *)
Theorem main_completes (args : list string) :
  (∀ arg n, Atoi arg = Some n →
     n ≤ MaxInt ∧ sizeofString * (n ÷ PAGE_SIZE) ≤ maxAlloc) →
  (∀ filename texts readFailed,
     openFile filename = Some (texts, readFailed) → len texts ≤ MaxInt) →
  ∃ lines, main Atoi (loadOrFail TrimSpace Fields openFile) args = Done lines
           ∧ lines ≠ []
           ∧ ∀ n, InsufficientMemory n ∉ lines.
Proof.
  intros HAtoi Hfile. unfold main.
  destruct (Z.ltb_spec (len args) 3) as [|Hlen].
  { exists [Usage]. split; [done|]. split; [done|]. intros n. set_solver. }
  destruct args as [|prog [|filename [|arg2 opts]]]; try (unfold len in Hlen; simpl in Hlen; lia).
  change (index _ 1) with (Done filename). change (index _ 2) with (Done arg2).
  cbn [mbind outcome_bind].
  destruct (Atoi arg2) as [memorySize|] eqn:Hsize.
  2:{ eexists. split; [done|]. split; [done|]. intros n. set_solver. }
  destruct (Z.ltb_spec memorySize PAGE_SIZE) as [|Hmin].
  { eexists. split; [done|]. split; [done|]. intros n. set_solver. }
  change (drop 3 (prog :: filename :: arg2 :: opts)) with opts.
  destruct (processOptions opts (NewSimulator memorySize)) as [warnings simulator] eqn:Hopts.
  destruct (processOptions_keeps _ _ _ _ Hopts) as (_ & Hframes & Hacc & _ & _ & Hwarn).
  assert (∀ n, InsufficientMemory n ∉ warnings) as Hw.
  { intros n Hin. rewrite Forall_forall in Hwarn.
    by destruct (Hwarn _ Hin) as (? & ? & _). }
  destruct (loadOrFail TrimSpace Fields openFile filename simulator) as [simulator'|] eqn:Hload.
  2:{ eexists. split; [done|]. split; [by destruct warnings|]. intros n Hin.
      not_printed Hin. by eapply Hw. }
  apply loadOrFail_Some in Hload as (texts & Hopen & Hs' & Haccs & _).
  apply HAtoi in Hsize as [Hsize Hfit0]. apply Hfile in Hopen.
  assert (totalFrames simulator' = memorySize ÷ PAGE_SIZE) as HFeq.
  { rewrite Hs'. cbn [totalFrames set_trace]. by rewrite Hframes. }
  assert (1 ≤ totalFrames simulator' ≤ MaxInt) as HF.
  { rewrite HFeq. unfold PAGE_SIZE in *.
    pose proof (Z.quot_le_mono 4096 memorySize 4096).
    pose proof (Z.quot_lt memorySize 4096).
    change (4096 ÷ 4096) with 1 in *. unfold MaxInt in *. lia. }
  assert (sizeofString * totalFrames simulator' ≤ maxAlloc) as Hfit by (by rewrite HFeq).
  assert (go_values simulator') as Hgo.
  { split; [unfold MaxInt in *; lia|]. rewrite Haccs, Hacc. cbn [accesses NewSimulator app].
    unfold len in *. rewrite length_fmap.
    pose proof (accepted_length TrimSpace Fields texts). lia. }
  destruct (Run_with_frames simulator' (proj1 HF) Hfit Hgo)
    as (lines & s2 & Hrun & _ & Hlines).
  rewrite Hrun. cbn [mbind outcome_bind]. eexists. split; [done|].
  split; [by destruct warnings|]. intros n Hin.
  not_printed Hin; [by eapply Hw | by eapply Hlines].
Qed.

End main_facts.


Lemma main_completes_witness :
  ∃ lines,
    main sampleAtoi (loadOrFail id spaceFields sampleOpenFile)
      ["sim"; "trace.txt"; "8192"; "-loadcount"; "-x"] = Done lines
    ∧ lines ≠ []
    ∧ ∀ n, InsufficientMemory n ∉ lines.
Proof.
  apply (main_completes id spaceFields sampleOpenFile sampleAtoi).
  - intros arg n. unfold sampleAtoi. destruct (String.eqb arg "8192"); [|discriminate].
    intros [= <-]. split; vm_compute; discriminate.
  - intros filename texts readFailed. unfold sampleOpenFile.
    destruct (String.eqb filename "trace.txt");
      [intros [= <- <-]; vm_compute; discriminate|].
    destruct (String.eqb filename "clean.txt");
      [intros [= <- <-]; vm_compute; discriminate | discriminate].
Defined.
